(** * StudyTracker: the progress tree, its mutations and the sync controller

    A shallow embedding of [src/app.jsx]: the helper [calculateProgress], the
    mutation callbacks that [App] hands to [SubjectManager] ([addSubject],
    [addChapter], [toggleQuestion], [genQuestions], [deleteChapter],
    [addGenericSection], [addSubExercise]), [saveData] and the snapshot
    listener.

    JavaScript objects used as maps keyed by generated ids ([chapter.sections],
    [section.subExercises]) are [gmap string _]; arrays are lists; object
    fields that the source creates in some places and omits in others are
    [option]s; an exception (the [TypeError] raised by reading a property of
    [undefined], the [RangeError] raised by [Array.from] on a length that no
    array can have) is the [Throw] outcome; [crypto.randomUUID()] draws from
    an explicit supply;
    Numbers that take part in a division are binary64 floats. *)

From Stdlib Require Import ZArith Ascii DecimalString.
From Stdlib Require Floats Uint63 DecimalNat DecimalFacts.
From Stdlib Require Import Reals Lra Lia.
From stdpp Require Import gmap strings list fin_maps.
From stdpp Require sorting.

Local Open Scope Z_scope.

(** ** JavaScript Numbers *)

Module JsNumber.
Import PrimFloat FloatOps SpecFloat.

(** The Number holding a count.  Counts here are lengths of arrays and sums
    of such lengths; [of_uint63] is exact on every integer below [2^53]. *)
Definition of_count (n : nat) : float :=
  of_uint63 (Uint63.of_Z (Z.of_nat n)).

(** [Math.round(x)]: the integer closest to [x], ties towards [+∞], that is
    [floor (x + 1/2)] computed exactly.  A finite float is [± m * 2^e]. *)
Definition Math_round (x : float) : Z :=
  match Prim2SF x with
  | S754_finite s m e =>
      let v := if s then Z.neg m else Z.pos m in
      if 0 <=? e then v * 2 ^ e
      else (2 * v + 2 ^ (- e)) / 2 ^ (1 - e)
  | _ => 0
  end.

(** The Number 100. *)
Definition hundred : float := 100%float.

(** [Math.round((completedQs / totalQs) * 100)] *)
Definition percent (completedQs totalQs : nat) : Z :=
  Math_round (mul (div (of_count completedQs) (of_count totalQs)) hundred).
End JsNumber.

(** ** The hierarchy *)

Record Question := mkQuestion {
  q_id : string;
  q_completed : bool
}.

Record SubExercise := mkSubExercise {
  sub_id : string;
  sub_name : string;
  sub_questions : list Question
}.

(** A section object is built in four places of the source, each with its own
    set of fields, so every field may be absent. *)
Record Section := mkSection {
  sec_id : option string;
  sec_label : option string;
  sec_type : option string;
  sec_questions : option (list Question);
  sec_subExercises : option (gmap string SubExercise)
}.

Record Chapter := mkChapter {
  ch_id : string;
  ch_name : string;
  ch_progress : Z;
  ch_sections : gmap string Section
}.

Record Subject := mkSubject {
  subj_id : string;
  subj_name : string;
  subj_chapters : list Chapter
}.

Abbreviation Tree := (list Subject).

#[global] Instance Question_eq_dec : EqDecision Question.
Proof. solve_decision. Defined.
#[global] Instance SubExercise_eq_dec : EqDecision SubExercise.
Proof. solve_decision. Defined.
#[global] Instance Section_eq_dec : EqDecision Section.
Proof. solve_decision. Defined.
#[global] Instance Chapter_eq_dec : EqDecision Chapter.
Proof. solve_decision. Defined.
#[global] Instance Subject_eq_dec : EqDecision Subject.
Proof. solve_decision. Defined.

(** ** calculateProgress *)

(** A pair of running counters [(totalQs, completedQs)]. *)
Definition counters : Type := nat * nat.

Definition tally (qs : list Question) (acc : counters) : counters :=
  (acc.1 + length qs, acc.2 + length (filter (λ q, q_completed q = true) qs))%nat.

(** [questions?.length || 0] and [questions?.filter(...).length || 0] *)
Definition tally_opt (qs : option (list Question)) (acc : counters) : counters :=
  match qs with
  | Some l => tally l acc
  | None => acc
  end.

(** The body of [sections.forEach(section => ...)]. *)
Definition count_section (section : Section) (acc : counters) : counters :=
  match sec_type section, sec_subExercises section with
  | Some ty, Some subs =>
      if decide (ty = "exercise")
      then map_fold (λ _ ex a, tally (sub_questions ex) a) acc subs
      else tally_opt (sec_questions section) acc
  | _, _ => tally_opt (sec_questions section) acc
  end.

Definition count_sections (sections : gmap string Section) : counters :=
  map_fold (λ _ section acc, count_section section acc) (0, 0)%nat sections.

(** The guards [!chapter] and [!chapter.sections] of the source have no
    counterpart: every caller passes a chapter object, and a chapter is only
    ever built with a [sections] object. *)
Definition calculateProgress (chapter : Chapter) : Z :=
  let sections := ch_sections chapter in
  if decide (size sections = 0%nat) then 0
  else
    let '(totalQs, completedQs) := count_sections sections in
    if decide (totalQs = 0%nat) then 0
    else JsNumber.percent completedQs totalQs.

(** ** Effects: exceptions and the UUID supply *)

(** What running a piece of the source produces: a value, or an exception.
    These callbacks can raise two: a [TypeError], by reading a property of
    [undefined], and a [RangeError], by asking [Array.from] for an array of
    more than [2^32 - 1] elements.  Either one ends the callback before
    [saveData]. *)
Inductive outcome (A : Type) : Type :=
  | Return (a : A)
  | Throw.
Arguments Return {A} a.
Arguments Throw {A}.

(** A computation that may draw UUIDs and may throw.  The state is the number
    of UUIDs drawn so far; the supply itself is a parameter of the
    development. *)
Definition M (A : Type) : Type := nat → outcome (A * nat).

#[global] Instance M_ret : MRet M := λ A a n, Return (a, n).
#[global] Instance M_bind : MBind M := λ A B k m n,
  match m n with
  | Return (a, n') => k a n'
  | Throw => Throw
  end.

Definition throw {A} : M A := λ _, Throw.

(** [array.map(f)] is stdpp's [mapM]: the callback runs on the elements from
    left to right, and an exception in one call ends the whole [map]. *)

(** ** Strings and counts *)

(** [String.prototype.toLowerCase] on the ASCII letters; bytes outside
    [A-Z] are kept. *)
Definition lower_ascii (c : ascii) : ascii :=
  let n := nat_of_ascii c in
  if bool_decide (65 ≤ n ≤ 90)%nat then ascii_of_nat (n + 32) else c.

Fixpoint toLowerCase (s : string) : string :=
  match s with
  | EmptyString => EmptyString
  | String c s' => String (lower_ascii c) (toLowerCase s')
  end.

(** White space as [String.prototype.trim] sees it, on the ASCII range. *)
Definition is_white_space (c : ascii) : bool :=
  let n := nat_of_ascii c in
  bool_decide (n = 32 ∨ 9 ≤ n ≤ 13)%nat.

Fixpoint all_white_space (s : string) : bool :=
  match s with
  | EmptyString => true
  | String c s' => is_white_space c && all_white_space s'
  end.

(** The result of [parseInt]: an integer or [NaN]. *)
Inductive jsint : Type :=
  | Int (z : Z)
  | NaN.

(** [ToLength], as [Array.from({ length: count }, ...)] applies it: [NaN] and
    negative numbers give 0, large numbers are clamped. *)
Definition ToLength (count : jsint) : nat :=
  match count with
  | Int z => Z.to_nat (Z.min z (2 ^ 53 - 1))
  | NaN => 0
  end.

(** The template literal [`q-${i+1}`]. *)
Definition question_id (i : nat) : string :=
  "q-" +:+ NilZero.string_of_uint (Nat.to_uint (i + 1)).

(** The elements that the callback [(_, i) => ({ id: `q-${i+1}`, completed: false })]
    gives for the indices below [ToLength count]. *)
Definition fresh_questions (count : jsint) : list Question :=
  map (λ i, mkQuestion (question_id i) false) (seq 0 (ToLength count)).

(** [Array.from({ length: count }, (_, i) => ({ id: `q-${i+1}`, completed: false }))]:
    with [len = ToLength count], the array is created by [new Array(len)],
    which throws a [RangeError] when [len] exceeds [2^32 - 1], and is then
    filled with the elements above. *)
Definition Array_from (count : jsint) : M (list Question) :=
  if Z.of_nat (ToLength count) <=? 2 ^ 32 - 1 then mret (fresh_questions count)
  else throw.

(** [q => q.id === qId ? { ...q, completed: !q.completed } : q] *)
Definition toggle (qId : string) (q : Question) : Question :=
  if decide (q_id q = qId) then mkQuestion (q_id q) (negb (q_completed q)) else q.

(** An optional argument used as a condition: [undefined] and the empty
    string are falsy. *)
Definition truthy (x : option string) : option string :=
  match x with
  | Some s => if decide (s = "") then None else Some s
  | None => None
  end.

(** [array.forEach(f)] where [f] updates a local variable. *)
Fixpoint forEach {A S} (f : A → S → M S) (l : list A) (s : S) : M S :=
  match l with
  | [] => mret s
  | a :: l' => s' ← f a s; forEach f l' s'
  end.

(** ** The mutation callbacks

    Each definition is the tree that the callback of the same name computes
    from [subjects] and hands to [saveData]. *)

Section Mutations.
Variable randomUUID : nat → string.

(** [crypto.randomUUID()] *)
Definition uuid : M string := λ n, Return (randomUUID n, S n).

(** [{ ...c, sections: newSecs,
       progress: calculateProgress({ ...c, sections: newSecs }) }] *)
Definition with_sections (c : Chapter) (newSecs : gmap string Section) : Chapter :=
  mkChapter (ch_id c) (ch_name c)
    (calculateProgress (mkChapter (ch_id c) (ch_name c) (ch_progress c) newSecs))
    newSecs.

(** The frame shared by four callbacks:
    [subjects.map(s => { if (s.id !== sId) return s;
       return { ...s, chapters: s.chapters.map(c => {
         if (c.id !== cId) return c; ... }) }; })] *)
Definition update_chapter (sId cId : string) (body : Chapter → M Chapter)
    (subjects : Tree) : M Tree :=
  mapM (λ s,
    if decide (subj_id s ≠ sId) then mret s
    else
      chapters ← mapM (λ c,
        if decide (ch_id c ≠ cId) then mret c else body c) (subj_chapters s);
      mret (mkSubject (subj_id s) (subj_name s) chapters)) subjects.

(** [addSubject]: no tree is saved when the name trims to nothing. *)
Definition addSubject (subjects : Tree) (name : string) : M (option Tree) :=
  if all_white_space name then mret None
  else
    id ← uuid;
    mret (Some (subjects ++ [mkSubject id name []])).

(** [{ id, label: type, type: type.toLowerCase(), questions: [],
       ...(type === 'EXERCISE' ? { subExercises: {} } : {}) }] *)
Definition new_section (type id : string) : Section :=
  mkSection (Some id) (Some type) (Some (toLowerCase type)) (Some [])
    (if decide (type = "EXERCISE") then Some ∅ else None).

(** [const sections = {}; selectedSections.forEach(type => {
       const id = crypto.randomUUID(); sections[id] = ...; })] *)
Definition new_sections (selectedSections : list string)
    : M (gmap string Section) :=
  forEach (λ type sections,
      id ← uuid;
      mret (<[id := new_section type id]> sections))
    selectedSections ∅.

Definition addChapter (subjects : Tree) (sId name : string)
    (selectedSections : list string) : M Tree :=
  sections ← new_sections selectedSections;
  mapM (λ s,
    if decide (subj_id s = sId) then
      id ← uuid;
      mret (mkSubject (subj_id s) (subj_name s)
              (subj_chapters s ++ [mkChapter id name 0 sections]))
    else mret s) subjects.

(** The inner callback of [toggleQuestion]. *)
Definition toggleQuestion_chapter (secId qId : string)
    (subExId : option string) (c : Chapter) : M Chapter :=
  let sec := ch_sections c !! secId in
  match truthy subExId with
  | Some subExId =>
      match sec with
      | None => throw
      | Some sec =>
          match sec_subExercises sec with
          | None => throw
          | Some subExercises =>
              match subExercises !! subExId with
              | None => throw
              | Some sub =>
                  let upd := map (toggle qId) (sub_questions sub) in
                  let newSecs :=
                    <[secId := mkSection (sec_id sec) (sec_label sec)
                        (sec_type sec) (sec_questions sec)
                        (Some (<[subExId :=
                            mkSubExercise (sub_id sub) (sub_name sub) upd]>
                          subExercises))]> (ch_sections c) in
                  mret (with_sections c newSecs)
              end
          end
      end
  | None =>
      match sec with
      | None => throw
      | Some sec =>
          match sec_questions sec with
          | None => throw
          | Some questions =>
              let upd := map (toggle qId) questions in
              let newSecs :=
                <[secId := mkSection (sec_id sec) (sec_label sec)
                    (sec_type sec) (Some upd) (sec_subExercises sec)]>
                  (ch_sections c) in
              mret (with_sections c newSecs)
          end
      end
  end.

Definition toggleQuestion (subjects : Tree) (sId cId secId qId : string)
    (subExId : option string) : M Tree :=
  update_chapter sId cId (toggleQuestion_chapter secId qId subExId) subjects.

(** [{ ...c.sections[secId], questions: updQs }]: spreading [undefined]
    contributes no field. *)
Definition set_questions (sec : option Section) (updQs : list Question) : Section :=
  match sec with
  | Some sec =>
      mkSection (sec_id sec) (sec_label sec) (sec_type sec) (Some updQs)
        (sec_subExercises sec)
  | None => mkSection None None None (Some updQs) None
  end.

(** The inner callback of [genQuestions]. *)
Definition genQuestions_chapter (secId : string) (count : jsint)
    (c : Chapter) : M Chapter :=
  updQs ← Array_from count;
  let newSecs :=
    <[secId := set_questions (ch_sections c !! secId) updQs]> (ch_sections c) in
  mret (with_sections c newSecs).

Definition genQuestions (subjects : Tree) (sId cId secId : string)
    (count : jsint) : M Tree :=
  update_chapter sId cId (genQuestions_chapter secId count) subjects.

Definition deleteChapter (subjects : Tree) (sId cId : string) : M Tree :=
  mret (map (λ s,
    if decide (subj_id s = sId) then
      mkSubject (subj_id s) (subj_name s)
        (filter (λ c, ch_id c ≠ cId) (subj_chapters s))
    else s) subjects).

(** The inner callback of [addGenericSection]. *)
Definition addGenericSection_chapter (label : string) (c : Chapter) : M Chapter :=
  secId ← uuid;
  let newSecs :=
    <[secId := mkSection (Some secId) (Some label) (Some "custom") (Some []) None]>
      (ch_sections c) in
  mret (with_sections c newSecs).

Definition addGenericSection (subjects : Tree) (sId cId label : string) : M Tree :=
  update_chapter sId cId (addGenericSection_chapter label) subjects.

(** The inner callback of [addSubExercise]; [qCount] is [parseInt(count)].
    [Array.from] throws on a length that is too large, and
    [c.sections[secId].subExercises] throws when the section is missing. *)
Definition addSubExercise_chapter (secId name : string) (qCount : jsint)
    (c : Chapter) : M Chapter :=
  subId ← uuid;
  questions ← Array_from qCount;
  let newSub := mkSubExercise subId name questions in
  match ch_sections c !! secId with
  | None => throw
  | Some sec =>
      let newSecs :=
        <[secId := mkSection (sec_id sec) (sec_label sec) (sec_type sec)
            (sec_questions sec)
            (Some (<[subId := newSub]> (default ∅ (sec_subExercises sec))))]>
          (ch_sections c) in
      mret (with_sections c newSecs)
  end.

Definition addSubExercise (subjects : Tree) (sId cId secId name : string)
    (qCount : jsint) : M Tree :=
  update_chapter sId cId (addSubExercise_chapter secId name qCount) subjects.
End Mutations.

(** ** The sync controller

    The component state that matters here: the signed-in user ([user.uid]),
    the in-memory tree ([subjects], changed only through [setSubjects]) and the
    position in the UUID supply.  What a step does to the outside is recorded
    as a list of actions, in program order. *)

Record AppState := mkAppState {
  user : option string;
  subjects : Tree;
  drawn : nat
}.

Inductive action : Type :=
  | SetSubjects (tree : Tree)            (* [setSubjects(tree)] *)
  | SetDoc (uid : string) (list : Tree). (* [setDoc(doc(..., uid, 'data', 'subjects'), { list })] *)

(** The callbacks with their arguments. *)
Inductive mutation : Type :=
  | AddSubject (name : string)
  | AddChapter (sId name : string) (selectedSections : list string)
  | ToggleQuestion (sId cId secId qId : string) (subExId : option string)
  | GenQuestions (sId cId secId : string) (count : jsint)
  | DeleteChapter (sId cId : string)
  | AddGenericSection (sId cId label : string)
  | AddSubExercise (sId cId secId name : string) (qCount : jsint).

(** What the component receives. *)
Inductive event : Type :=
  | Mutate (op : mutation)
  | Snapshot (doc : option (option Tree)) (* absent; present without [list]; present *)
  | AuthChanged (u : option string).

Section Controller.
Variable randomUUID : nat → string.

Definition saved (m : M Tree) : M (option Tree) :=
  newSubjs ← m; mret (Some newSubjs).

(** The tree a callback passes to [saveData], if it gets that far. *)
Definition new_tree (op : mutation) (subjects : Tree) : M (option Tree) :=
  match op with
  | AddSubject name => addSubject randomUUID subjects name
  | AddChapter sId name kinds =>
      saved (addChapter randomUUID subjects sId name kinds)
  | ToggleQuestion sId cId secId qId subExId =>
      saved (toggleQuestion subjects sId cId secId qId subExId)
  | GenQuestions sId cId secId count =>
      saved (genQuestions subjects sId cId secId count)
  | DeleteChapter sId cId => saved (deleteChapter subjects sId cId)
  | AddGenericSection sId cId label =>
      saved (addGenericSection randomUUID subjects sId cId label)
  | AddSubExercise sId cId secId name qCount =>
      saved (addSubExercise randomUUID subjects sId cId secId name qCount)
  end.

(** [saveData]: [if (!user) return;] then the write. *)
Definition saveData (user : option string) (newSubjs : Tree) : list action :=
  match user with
  | None => []
  | Some uid => [SetDoc uid newSubjs]
  end.

Definition step (st : AppState) (ev : event) : AppState * list action :=
  match ev with
  | Mutate op =>
      match new_tree op (subjects st) (drawn st) with
      | Return (Some newSubjs, n) =>
          (mkAppState (user st) (subjects st) n, saveData (user st) newSubjs)
      | Return (None, n) => (mkAppState (user st) (subjects st) n, [])
      | Throw => (st, [])
      end
  | Snapshot doc =>
      (* the listener exists only while a user is signed in *)
      match user st, doc with
      | Some _, Some list =>
          let tree := default [] list in
          (mkAppState (user st) tree (drawn st), [SetSubjects tree])
      | _, _ => (st, [])
      end
  | AuthChanged u =>
      match u with
      | None => (mkAppState None [] (drawn st), [SetSubjects []])
      | Some _ => (mkAppState u (subjects st) (drawn st), [])
      end
  end.

(** Running a sequence of events, collecting the actions. *)
Fixpoint run (st : AppState) (evs : list event) : AppState * list action :=
  match evs with
  | [] => (st, [])
  | ev :: evs' =>
      let '(st1, acts1) := step st ev in
      let '(st2, acts2) := run st1 evs' in
      (st2, acts1 ++ acts2)
  end.
End Controller.

(** ** Addressing a chapter *)

(** The lookup of the chapter and questions views:
    [subjects.find(s => s.id === view.sId)] followed by
    [s?.chapters.find(ch => ch.id === view.cId)]. *)
Definition find_chapter (subjects : Tree) (sId cId : string) : option Chapter :=
  s ← find (λ s, bool_decide (subj_id s = sId)) subjects;
  find (λ c, bool_decide (ch_id c = cId)) (subj_chapters s).

(** Every chapter that the frame [update_chapter] runs its body on. *)
Definition targets (subjects : Tree) (sId cId : string) : list Chapter :=
  s ← filter (λ s, subj_id s = sId) subjects;
  filter (λ c, ch_id c = cId) (subj_chapters s).

(** The frame with a body that neither throws nor draws a UUID. *)
Definition map_chapter (sId cId : string) (g : Chapter → Chapter)
    (subjects : Tree) : Tree :=
  map (λ s,
    if decide (subj_id s ≠ sId) then s
    else mkSubject (subj_id s) (subj_name s)
           (map (λ c, if decide (ch_id c ≠ cId) then c else g c) (subj_chapters s)))
    subjects.

Definition subject_known (subjects : Tree) (sId : string) : Prop :=
  ∃ s, s ∈ subjects ∧ subj_id s = sId.

Definition chapter_known (subjects : Tree) (sId cId : string) : Prop :=
  ∃ s c, s ∈ subjects ∧ subj_id s = sId ∧ c ∈ subj_chapters s ∧ ch_id c = cId.

(** [c] with its cached progress recomputed. *)
Definition refresh (c : Chapter) : Chapter := with_sections c (ch_sections c).

(** * Properties *)

(** ** The monad and the frame *)

Lemma M_bind_eq {A B} (m : M A) (k : A → M B) n :
  (m ≫= k) n = match m n with
               | Return (a, n') => k a n'
               | Throw => Throw
               end.
Proof. done. Qed.

Lemma mapM_cons {A B} (f : A → M B) a l n :
  mapM f (a :: l) n =
  match f a n with
  | Return (b, n1) =>
      match mapM f l n1 with
      | Return (bs, n2) => Return (b :: bs, n2)
      | Throw => Throw
      end
  | Throw => Throw
  end.
Proof. done. Qed.

Lemma mapM_pure {A B} (f : A → M B) (g : A → B) (l : list A) :
  (∀ a n, a ∈ l → f a n = Return (g a, n)) →
  ∀ n, mapM f l n = Return (map g l, n).
Proof.
  induction l as [|a l IH]; intros Hf n; [done|].
  cbn. unfold mbind, M_bind. rewrite Hf by left.
  fold (mapM f). rewrite IH; [done|].
  intros b m Hb. apply Hf. by right.
Qed.

Lemma mapM_throw {A B} (f : A → M B) (l : list A) (x : A) :
  x ∈ l → (∀ n, f x n = Throw) → ∀ n, mapM f l n = Throw.
Proof.
  induction l as [|a l IH]; intros Hx Hf n; [by apply elem_of_nil in Hx|].
  cbn. unfold mbind, M_bind.
  destruct (f a n) as [[b n']|] eqn:Ha; [|done].
  fold (mapM f).
  apply elem_of_cons in Hx as [->|Hx]; [by rewrite Hf in Ha|].
  by rewrite IH.
Qed.

Lemma subject_eta s : mkSubject (subj_id s) (subj_name s) (subj_chapters s) = s.
Proof. by destruct s. Qed.

Lemma map_id_on {A} (g : A → A) (l : list A) :
  (∀ a, a ∈ l → g a = a) → map g l = l.
Proof.
  induction l as [|a l IH]; intros Hg; [done|].
  cbn. rewrite Hg by left. f_equal. apply IH. intros b Hb. apply Hg. by right.
Qed.

Lemma targets_cons s subjects sId cId :
  targets (s :: subjects) sId cId =
  (if decide (subj_id s = sId)
   then filter (λ c, ch_id c = cId) (subj_chapters s) else [])
  ++ targets subjects sId cId.
Proof.
  unfold targets. rewrite filter_cons. by destruct (decide (subj_id s = sId)).
Qed.

Lemma elem_of_targets c subjects sId cId :
  c ∈ targets subjects sId cId ↔
  ∃ s, s ∈ subjects ∧ subj_id s = sId ∧ c ∈ subj_chapters s ∧ ch_id c = cId.
Proof.
  unfold targets. rewrite list_elem_of_bind. split.
  - intros (s & Hc & Hs). apply list_elem_of_filter in Hc as [? ?].
    apply list_elem_of_filter in Hs as [? ?]. eauto 6.
  - intros (s & Hs & Hid & Hc & Hcid). exists s.
    split; apply list_elem_of_filter; auto.
Qed.

Lemma targets_nil subjects sId cId :
  ¬ chapter_known subjects sId cId → targets subjects sId cId = [].
Proof.
  intros Hk. destruct (targets subjects sId cId) as [|c l] eqn:Ht; [done|].
  exfalso. apply Hk.
  assert (c ∈ targets subjects sId cId) as Hc by (rewrite Ht; left).
  apply elem_of_targets in Hc as (s & ? & ? & ? & ?). by exists s, c.
Qed.

(** When the body behaves as the pure function [g] on every target, the frame
    is [map_chapter g] and draws nothing. *)
Lemma update_chapter_pure sId cId body g subjects :
  (∀ c n, c ∈ targets subjects sId cId → body c n = Return (g c, n)) →
  ∀ n, update_chapter sId cId body subjects n
       = Return (map_chapter sId cId g subjects, n).
Proof.
  intros Hb n. unfold update_chapter, map_chapter.
  apply mapM_pure. intros s m Hs.
  destruct (decide (subj_id s ≠ sId)) as [|Heq]; [done|].
  apply dec_stable in Heq.
  unfold mbind, M_bind.
  rewrite (mapM_pure _ (λ c, if decide (ch_id c ≠ cId) then c else g c)); [done|].
  intros c k Hc. destruct (decide (ch_id c ≠ cId)) as [|Hcid]; [done|].
  apply dec_stable in Hcid. apply Hb, elem_of_targets. eauto.
Qed.

Lemma map_chapter_miss sId cId g subjects :
  ¬ chapter_known subjects sId cId → map_chapter sId cId g subjects = subjects.
Proof.
  intros Hk. unfold map_chapter. apply map_id_on. intros s Hs.
  destruct (decide (subj_id s ≠ sId)) as [|Heq]; [done|].
  apply dec_stable in Heq.
  rewrite map_id_on; [apply subject_eta|]. intros c Hc.
  destruct (decide (ch_id c ≠ cId)) as [|Hcid]; [done|].
  apply dec_stable in Hcid. exfalso. apply Hk. by exists s, c.
Qed.

(** A miss on the subject id or on the chapter id: the body is never run. *)
Lemma update_chapter_miss sId cId body subjects n :
  ¬ chapter_known subjects sId cId →
  update_chapter sId cId body subjects n = Return (subjects, n).
Proof.
  intros Hk.
  rewrite (update_chapter_pure sId cId body (λ c, c)).
  - by rewrite map_chapter_miss.
  - intros c m Hc. rewrite targets_nil in Hc by done. by apply elem_of_nil in Hc.
Qed.

Lemma map_chapter_ext sId cId g1 g2 subjects :
  (∀ c, c ∈ targets subjects sId cId → g1 c = g2 c) →
  map_chapter sId cId g1 subjects = map_chapter sId cId g2 subjects.
Proof.
  intros Hg. unfold map_chapter. apply map_ext_in. intros s Hs.
  apply list_elem_of_In in Hs.
  destruct (decide (subj_id s ≠ sId)) as [|Heq]; [done|].
  apply dec_stable in Heq. f_equal.
  apply map_ext_in. intros c Hc. apply list_elem_of_In in Hc.
  destruct (decide (ch_id c ≠ cId)) as [|Hcid]; [done|].
  apply dec_stable in Hcid. apply Hg, elem_of_targets. eauto.
Qed.

Lemma map_chapter_compose sId cId g1 g2 subjects :
  (∀ c, ch_id (g1 c) = ch_id c) →
  map_chapter sId cId g2 (map_chapter sId cId g1 subjects)
  = map_chapter sId cId (g2 ∘ g1) subjects.
Proof.
  intros Hid. unfold map_chapter. rewrite map_map. apply map_ext. intros s.
  destruct (decide (subj_id s ≠ sId)) as [Hne|Heq]; cbn.
  - by rewrite decide_True.
  - rewrite decide_False by done. f_equal.
    rewrite map_map. apply map_ext. intros c.
    destruct (decide (ch_id c ≠ cId)) as [Hc|Hc].
    + by rewrite decide_True.
    + by rewrite decide_False by (by rewrite Hid).
Qed.

Lemma targets_map_chapter sId cId g subjects :
  (∀ c, ch_id (g c) = ch_id c) →
  targets (map_chapter sId cId g subjects) sId cId
  = map g (targets subjects sId cId).
Proof.
  intros Hid. induction subjects as [|s subjects IH]; [done|].
  cbn [map_chapter map]. fold (map_chapter sId cId g subjects).
  rewrite !targets_cons, map_app, IH. f_equal.
  destruct (decide (subj_id s ≠ sId)) as [Hne|Heq].
  - by rewrite !decide_False.
  - apply dec_stable in Heq. cbn. rewrite !decide_True by done.
    clear IH. induction (subj_chapters s) as [|c l IHl]; [done|].
    cbn [map]. rewrite !filter_cons.
    destruct (decide (ch_id c ≠ cId)) as [Hc|Hc].
    + by rewrite !decide_False.
    + apply dec_stable in Hc.
      rewrite !decide_True by (by rewrite ?Hid). cbn. by rewrite IHl.
Qed.

Lemma find_chapter_map_chapter sId cId g subjects :
  (∀ c, ch_id (g c) = ch_id c) →
  find_chapter (map_chapter sId cId g subjects) sId cId
  = g <$> find_chapter subjects sId cId.
Proof.
  intros Hid. unfold find_chapter.
  induction subjects as [|s subjects IH]; [done|].
  cbn [map_chapter map find]. fold (map_chapter sId cId g subjects).
  destruct (decide (subj_id s ≠ sId)) as [Hne|Heq].
  - rewrite bool_decide_eq_false_2 by done. apply IH.
  - apply dec_stable in Heq. cbn [subj_id].
    rewrite bool_decide_eq_true_2 by done. cbn. clear IH.
    induction (subj_chapters s) as [|c l IHl]; [done|].
    cbn [map find].
    destruct (decide (ch_id c ≠ cId)) as [Hc|Hc].
    + rewrite bool_decide_eq_false_2 by done. apply IHl.
    + apply dec_stable in Hc.
      by rewrite !bool_decide_eq_true_2 by (by rewrite ?Hid).
Qed.

Lemma find_chapter_target subjects sId cId c :
  find_chapter subjects sId cId = Some c → c ∈ targets subjects sId cId.
Proof.
  unfold find_chapter. intros H.
  destruct (find _ subjects) as [s|] eqn:Hs; [|done]. cbn in H.
  apply find_some in Hs as [Hs Hsid]. apply find_some in H as [Hc Hcid].
  apply bool_decide_eq_true in Hsid, Hcid.
  apply elem_of_targets. exists s. by rewrite <- !list_elem_of_In in *.
Qed.

Lemma find_chapter_known subjects sId cId c :
  find_chapter subjects sId cId = Some c → chapter_known subjects sId cId.
Proof.
  intros H. apply find_chapter_target, elem_of_targets in H as (s & ? & ? & ? & ?).
  by exists s, c.
Qed.

(** ** calculateProgress depends on the sections only *)

Lemma calculateProgress_sections c1 c2 :
  ch_sections c1 = ch_sections c2 → calculateProgress c1 = calculateProgress c2.
Proof. unfold calculateProgress. by intros ->. Qed.

Lemma with_sections_progress c newSecs :
  ch_progress (with_sections c newSecs) = calculateProgress (with_sections c newSecs).
Proof. done. Qed.

Lemma refresh_consistent c :
  ch_progress c = calculateProgress c → refresh c = c.
Proof.
  intros H. destruct c as [i nm p secs]. unfold refresh, with_sections. cbn in *.
  f_equal. rewrite H. by apply calculateProgress_sections.
Qed.

(** ** genQuestions *)

(** When the count is a length that an array can have, [genQuestions] does
    not throw and draws no UUID: it rebuilds every addressed chapter with the
    section's question list replaced. *)
Definition regenerated (secId : string) (count : jsint) (c : Chapter) : Chapter :=
  with_sections c
    (<[secId := set_questions (ch_sections c !! secId) (fresh_questions count)]>
       (ch_sections c)).

Lemma Array_from_Return count n :
  Z.of_nat (ToLength count) < 2 ^ 32 →
  Array_from count n = Return (fresh_questions count, n).
Proof.
  intros Hlen. unfold Array_from.
  destruct (Z.leb_spec (Z.of_nat (ToLength count)) (2 ^ 32 - 1)); [done|lia].
Qed.

Lemma Array_from_Throw count n :
  2 ^ 32 ≤ Z.of_nat (ToLength count) → Array_from count n = Throw.
Proof.
  intros Hlen. unfold Array_from.
  destruct (Z.leb_spec (Z.of_nat (ToLength count)) (2 ^ 32 - 1)); [lia|done].
Qed.

Lemma Array_from_inv count n questions n' :
  Array_from count n = Return (questions, n') →
  questions = fresh_questions count ∧ n' = n ∧ Z.of_nat (ToLength count) < 2 ^ 32.
Proof.
  unfold Array_from.
  destruct (Z.leb_spec (Z.of_nat (ToLength count)) (2 ^ 32 - 1)); [|done].
  intros [= <- <-]. split_and!; [done|done|lia].
Qed.

Lemma genQuestions_chapter_Return secId count c n :
  Z.of_nat (ToLength count) < 2 ^ 32 →
  genQuestions_chapter secId count c n = Return (regenerated secId count c, n).
Proof.
  intros Hlen. unfold genQuestions_chapter.
  by rewrite M_bind_eq, Array_from_Return.
Qed.

Lemma genQuestions_chapter_inv secId count c n c' n' :
  genQuestions_chapter secId count c n = Return (c', n') →
  c' = regenerated secId count c ∧ n' = n ∧ Z.of_nat (ToLength count) < 2 ^ 32.
Proof.
  unfold genQuestions_chapter. rewrite M_bind_eq.
  destruct (Array_from count n) as [[questions n1]|] eqn:Hq; [|done].
  apply Array_from_inv in Hq as (-> & -> & Hlen). by intros [= <- <-].
Qed.

Lemma genQuestions_eq subjects sId cId secId count n :
  Z.of_nat (ToLength count) < 2 ^ 32 →
  genQuestions subjects sId cId secId count n
  = Return (map_chapter sId cId (regenerated secId count) subjects, n).
Proof.
  intros Hlen. apply update_chapter_pure. intros c m _.
  by apply genQuestions_chapter_Return.
Qed.

Lemma genQuestions_find subjects sId cId secId count n c :
  Z.of_nat (ToLength count) < 2 ^ 32 →
  find_chapter subjects sId cId = Some c →
  ∃ t', genQuestions subjects sId cId secId count n = Return (t', n) ∧
        find_chapter t' sId cId = Some (regenerated secId count c).
Proof.
  intros Hlen Hc. eexists. split; [by apply genQuestions_eq|].
  rewrite find_chapter_map_chapter by done. by rewrite Hc.
Qed.

Lemma ToLength_nonpos z : z ≤ 0 → ToLength (Int z) = 0%nat.
Proof. intros Hz. unfold ToLength. lia. Qed.

Lemma ToLength_nonpos_small z : z ≤ 0 → Z.of_nat (ToLength (Int z)) < 2 ^ 32.
Proof. intros Hz. by rewrite ToLength_nonpos. Qed.

Lemma fresh_questions_nonpos z : z ≤ 0 → fresh_questions (Int z) = [].
Proof. intros Hz. unfold fresh_questions. by rewrite ToLength_nonpos. Qed.

(** A small tree used to run the definitions. *)
Definition demo_uuid (n : nat) : string :=
  "uuid-" +:+ NilZero.string_of_uint (Nat.to_uint n).

Definition demo_section : Section :=
  mkSection (Some "sec-1") (Some "PYQS") (Some "pyqs")
    (Some [mkQuestion "q-1" true; mkQuestion "q-2" false]) None.

Definition demo_chapter : Chapter :=
  mkChapter "ch-1" "Algebra" 50 {[ "sec-1" := demo_section ]}.

Definition demo_tree : Tree := [mkSubject "subj-1" "Math" [demo_chapter]].

(** C6. On a tree that contains the addressed section, [genQuestions] with
    count 5 returns a tree in which that section's question list is exactly
    [q-1 .. q-5], all incomplete, whatever the list held before; every other
    field of the section is kept; with count 0 the list is empty. *)
Theorem genQuestions_five_and_reset subjects sId cId secId c sec n :
  find_chapter subjects sId cId = Some c →
  ch_sections c !! secId = Some sec →
  (∃ t' c',
      genQuestions subjects sId cId secId (Int 5) n = Return (t', n) ∧
      find_chapter t' sId cId = Some c' ∧
      ch_sections c' !! secId =
        Some (mkSection (sec_id sec) (sec_label sec) (sec_type sec)
                (Some [mkQuestion "q-1" false; mkQuestion "q-2" false;
                       mkQuestion "q-3" false; mkQuestion "q-4" false;
                       mkQuestion "q-5" false])
                (sec_subExercises sec))) ∧
  (∃ t' c',
      genQuestions subjects sId cId secId (Int 0) n = Return (t', n) ∧
      find_chapter t' sId cId = Some c' ∧
      ch_sections c' !! secId =
        Some (mkSection (sec_id sec) (sec_label sec) (sec_type sec)
                (Some []) (sec_subExercises sec))).
Proof.
  intros Hc Hsec. split.
  - destruct (genQuestions_find subjects sId cId secId (Int 5) n c) as (t' & Ht & Hf);
      [done..|].
    exists t', (regenerated secId (Int 5) c). split_and!; [done..|].
    unfold regenerated. cbn. by rewrite lookup_insert_eq, Hsec.
  - destruct (genQuestions_find subjects sId cId secId (Int 0) n c) as (t' & Ht & Hf);
      [done..|].
    exists t', (regenerated secId (Int 0) c). split_and!; [done..|].
    unfold regenerated. cbn. by rewrite lookup_insert_eq, Hsec.
Qed.

Lemma genQuestions_five_and_reset_witness :
  (∃ t' c',
      genQuestions demo_tree "subj-1" "ch-1" "sec-1" (Int 5) 0%nat = Return (t', 0%nat) ∧
      find_chapter t' "subj-1" "ch-1" = Some c' ∧
      ch_sections c' !! "sec-1" =
        Some (mkSection (Some "sec-1") (Some "PYQS") (Some "pyqs")
                (Some [mkQuestion "q-1" false; mkQuestion "q-2" false;
                       mkQuestion "q-3" false; mkQuestion "q-4" false;
                       mkQuestion "q-5" false])
                None)) ∧
  (∃ t' c',
      genQuestions demo_tree "subj-1" "ch-1" "sec-1" (Int 0) 0%nat = Return (t', 0%nat) ∧
      find_chapter t' "subj-1" "ch-1" = Some c' ∧
      ch_sections c' !! "sec-1" =
        Some (mkSection (Some "sec-1") (Some "PYQS") (Some "pyqs") (Some []) None)).
Proof.
  apply (genQuestions_five_and_reset demo_tree "subj-1" "ch-1" "sec-1"
           demo_chapter demo_section 0%nat); reflexivity.
Defined.

(** C10. On a tree that contains the addressed section, [genQuestions] with any
    count [z ≤ 0] does exactly what count 0 does: the section's question list
    becomes empty and the cached progress of the chapter is the progress
    computed on the new sections. *)
Theorem genQuestions_nonpositive subjects sId cId secId c sec z n :
  find_chapter subjects sId cId = Some c →
  ch_sections c !! secId = Some sec →
  z ≤ 0 →
  genQuestions subjects sId cId secId (Int z) n
    = genQuestions subjects sId cId secId (Int 0) n ∧
  ∃ t' c',
    genQuestions subjects sId cId secId (Int z) n = Return (t', n) ∧
    find_chapter t' sId cId = Some c' ∧
    ch_sections c' =
      <[secId := mkSection (sec_id sec) (sec_label sec) (sec_type sec)
                   (Some []) (sec_subExercises sec)]> (ch_sections c) ∧
    ch_progress c' = calculateProgress c'.
Proof.
  intros Hc Hsec Hz. split.
  - rewrite !genQuestions_eq by (by apply ToLength_nonpos_small). unfold regenerated.
    by rewrite (fresh_questions_nonpos z), (fresh_questions_nonpos 0).
  - destruct (genQuestions_find subjects sId cId secId (Int z) n c) as (t' & Ht & Hf);
      [by apply ToLength_nonpos_small|done|].
    exists t', (regenerated secId (Int z) c). split_and!; [done..| |done].
    unfold regenerated. rewrite fresh_questions_nonpos by done.
    cbn. by rewrite Hsec.
Qed.

Lemma genQuestions_nonpositive_witness :
  genQuestions demo_tree "subj-1" "ch-1" "sec-1" (Int (-3)) 0%nat
    = genQuestions demo_tree "subj-1" "ch-1" "sec-1" (Int 0) 0%nat ∧
  ∃ t' c',
    genQuestions demo_tree "subj-1" "ch-1" "sec-1" (Int (-3)) 0%nat = Return (t', 0%nat) ∧
    find_chapter t' "subj-1" "ch-1" = Some c' ∧
    ch_sections c' =
      <["sec-1" := mkSection (Some "sec-1") (Some "PYQS") (Some "pyqs")
                     (Some []) None]> (ch_sections demo_chapter) ∧
    ch_progress c' = calculateProgress c'.
Proof.
  apply (genQuestions_nonpositive demo_tree "subj-1" "ch-1" "sec-1"
           demo_chapter demo_section (-3) 0%nat); [reflexivity | reflexivity | lia].
Defined.

(** ** toggleQuestion *)

(** The question list that a toggle addresses inside a chapter: the one the
    questions view shows for the same ids ([section.questions], or
    [section.subExercises[subExId].questions] when [subExId] is given). *)
Definition leaf (secId : string) (subExId : option string) (c : Chapter)
    : option (list Question) :=
  sec ← ch_sections c !! secId;
  match truthy subExId with
  | Some subExId =>
      subExercises ← sec_subExercises sec;
      sub ← subExercises !! subExId;
      Some (sub_questions sub)
  | None => sec_questions sec
  end.

(** The chapter that the inner callback returns, when it returns. *)
Definition toggled (secId qId : string) (subExId : option string) (c : Chapter)
    : Chapter :=
  match toggleQuestion_chapter secId qId subExId c 0%nat with
  | Return (c', _) => c'
  | Throw => c
  end.

Ltac toggle_cases c secId subExId :=
  unfold toggled, leaf, toggleQuestion_chapter in *;
  destruct (truthy subExId) as [sx|];
  destruct (ch_sections c !! secId) as [sec|] eqn:Hsec; cbn in *;
  try (destruct (sec_subExercises sec) as [subs|] eqn:Hsubs; cbn in *;
       try (destruct (subs !! sx) as [sub|] eqn:Hsub; cbn in * ));
  try (destruct (sec_questions sec) as [qs'|] eqn:Hqs; cbn in * ).

Lemma toggleQuestion_chapter_Return secId qId subExId c n :
  is_Some (leaf secId subExId c) →
  toggleQuestion_chapter secId qId subExId c n
  = Return (toggled secId qId subExId c, n).
Proof. intros [qs H]. toggle_cases c secId subExId; done. Qed.

Lemma toggleQuestion_chapter_Throw secId qId subExId c n :
  leaf secId subExId c = None →
  toggleQuestion_chapter secId qId subExId c n = Throw.
Proof. intros H. toggle_cases c secId subExId; done. Qed.

Lemma toggled_id secId qId subExId c :
  ch_id (toggled secId qId subExId c) = ch_id c.
Proof. toggle_cases c secId subExId; done. Qed.

Lemma leaf_toggled secId qId subExId c qs :
  leaf secId subExId c = Some qs →
  leaf secId subExId (toggled secId qId subExId c) = Some (map (toggle qId) qs).
Proof.
  intros H. toggle_cases c secId subExId; try done.
  all: rewrite lookup_insert_eq; cbn; rewrite ?lookup_insert_eq; cbn; try congruence.

Qed.

Lemma toggle_toggle qId q : toggle qId (toggle qId q) = q.
Proof.
  unfold toggle. destruct (decide (q_id q = qId)) as [Hq|Hq]; cbn.
  - rewrite decide_True by done. destruct q as [i b]. cbn. by rewrite negb_involutive.
  - by rewrite decide_False.
Qed.

Lemma map_toggle_toggle qId qs : map (toggle qId) (map (toggle qId) qs) = qs.
Proof. rewrite map_map. apply map_id_on. intros q _. apply toggle_toggle. Qed.

Lemma section_eta sec :
  mkSection (sec_id sec) (sec_label sec) (sec_type sec) (sec_questions sec)
    (sec_subExercises sec) = sec.
Proof. by destruct sec. Qed.

Lemma sub_eta sub :
  mkSubExercise (sub_id sub) (sub_name sub) (sub_questions sub) = sub.
Proof. by destruct sub. Qed.

Lemma toggled_toggled secId qId subExId c :
  is_Some (leaf secId subExId c) →
  toggled secId qId subExId (toggled secId qId subExId c) = refresh c.
Proof.
  intros [qs H]. destruct c as [i nm p secs].
  toggle_cases (mkChapter i nm p secs) secId subExId; try done.
  all: rewrite lookup_insert_eq; cbn; rewrite ?lookup_insert_eq; cbn.
  all: unfold refresh, with_sections; cbn.
  all: rewrite !insert_insert_eq, map_toggle_toggle.
  all: match goal with
       | |- mkChapter _ _ _ ?S = _ =>
           assert (S = secs) as ->;
             [| f_equal; by apply calculateProgress_sections]
       end.
  all: rewrite ?sub_eta, ?(insert_id subs sx sub) by done.
  all: rewrite <- ?Hqs, <- ?Hsubs, ?section_eta.
  all: by rewrite insert_id.
Qed.

Lemma map_chapter_id sId cId subjects :
  map_chapter sId cId (λ c, c) subjects = subjects.
Proof.
  unfold map_chapter. apply map_id_on. intros s _.
  destruct (decide (subj_id s ≠ sId)); [done|].
  rewrite map_id_on; [apply subject_eta|].
  intros c _. by destruct (decide (ch_id c ≠ cId)).
Qed.

Lemma toggleQuestion_eq subjects sId cId secId qId subExId n :
  Forall (λ c, is_Some (leaf secId subExId c)) (targets subjects sId cId) →
  toggleQuestion subjects sId cId secId qId subExId n
  = Return (map_chapter sId cId (toggled secId qId subExId) subjects, n).
Proof.
  intros Hall. apply update_chapter_pure. intros c m Hc.
  apply toggleQuestion_chapter_Return.
  by apply (proj1 (Forall_forall _ _) Hall).
Qed.

(** C5. On a tree in which the ids address a question list (the chapter [c]
    that the view finds, and every chapter carrying the same ids), toggling the
    same question twice succeeds both times, flips the flag after the first
    call and gives back, after the second, the original question list and
    sections; the chapter's progress, computed or cached, is the progress of the
    original chapter, and the whole tree is the original one when the cached
    values were up to date. *)
Theorem toggleQuestion_twice subjects sId cId secId qId subExId c n :
  find_chapter subjects sId cId = Some c →
  Forall (λ c, is_Some (leaf secId subExId c)) (targets subjects sId cId) →
  ∃ qs t1 c1 t2 c2,
    leaf secId subExId c = Some qs ∧
    toggleQuestion subjects sId cId secId qId subExId n = Return (t1, n) ∧
    find_chapter t1 sId cId = Some c1 ∧
    leaf secId subExId c1 = Some (map (toggle qId) qs) ∧
    toggleQuestion t1 sId cId secId qId subExId n = Return (t2, n) ∧
    find_chapter t2 sId cId = Some c2 ∧
    leaf secId subExId c2 = Some qs ∧
    ch_sections c2 = ch_sections c ∧
    calculateProgress c2 = calculateProgress c ∧
    ch_progress c2 = calculateProgress c ∧
    (Forall (λ c, ch_progress c = calculateProgress c) (targets subjects sId cId) →
     t2 = subjects).
Proof.
  intros Hc Hall.
  pose proof (find_chapter_target _ _ _ _ Hc) as Hin.
  destruct (proj1 (Forall_forall _ _) Hall c Hin) as [qs Hqs].
  set (g := toggled secId qId subExId).
  assert (Hid : ∀ c, ch_id (g c) = ch_id c) by (intros; apply toggled_id).
  assert (Hall1 : Forall (λ c, is_Some (leaf secId subExId c))
                    (targets (map_chapter sId cId g subjects) sId cId)).
  { rewrite targets_map_chapter by done. apply Forall_forall.
    intros c' Hc'. apply list_elem_of_fmap in Hc' as (c0 & -> & Hc0).
    destruct (proj1 (Forall_forall _ _) Hall c0 Hc0) as [qs0 Hqs0].
    exists (map (toggle qId) qs0). by apply leaf_toggled. }
  assert (Ht2 : map_chapter sId cId g (map_chapter sId cId g subjects)
                = map_chapter sId cId refresh subjects).
  { rewrite map_chapter_compose by done. apply map_chapter_ext.
    intros c0 Hc0. apply toggled_toggled.
    by apply (proj1 (Forall_forall _ _) Hall). }
  exists qs, (map_chapter sId cId g subjects), (g c),
    (map_chapter sId cId refresh subjects), (refresh c).
  split_and!.
  - done.
  - by apply toggleQuestion_eq.
  - rewrite find_chapter_map_chapter by done. by rewrite Hc.
  - by apply leaf_toggled.
  - rewrite <- Ht2. by apply toggleQuestion_eq.
  - rewrite find_chapter_map_chapter by done. by rewrite Hc.
  - done.
  - done.
  - by apply calculateProgress_sections.
  - by apply calculateProgress_sections.
  - intros Hcons. rewrite <- (map_chapter_id sId cId subjects) at 2.
    apply map_chapter_ext. intros c0 Hc0. apply refresh_consistent.
    by apply (proj1 (Forall_forall _ _) Hcons).
Qed.

Lemma toggleQuestion_twice_witness :
  ∃ qs t1 c1 t2 c2,
    leaf "sec-1" None demo_chapter = Some qs ∧
    toggleQuestion demo_tree "subj-1" "ch-1" "sec-1" "q-2" None 0%nat
      = Return (t1, 0%nat) ∧
    find_chapter t1 "subj-1" "ch-1" = Some c1 ∧
    leaf "sec-1" None c1 = Some (map (toggle "q-2") qs) ∧
    toggleQuestion t1 "subj-1" "ch-1" "sec-1" "q-2" None 0%nat = Return (t2, 0%nat) ∧
    find_chapter t2 "subj-1" "ch-1" = Some c2 ∧
    leaf "sec-1" None c2 = Some qs ∧
    ch_sections c2 = ch_sections demo_chapter ∧
    calculateProgress c2 = calculateProgress demo_chapter ∧
    ch_progress c2 = calculateProgress demo_chapter ∧
    (Forall (λ c, ch_progress c = calculateProgress c)
       (targets demo_tree "subj-1" "ch-1") → t2 = demo_tree).
Proof.
  apply (toggleQuestion_twice demo_tree "subj-1" "ch-1" "sec-1" "q-2" None
           demo_chapter 0%nat).
  - reflexivity.
  - repeat constructor. by eexists.
Defined.

(** ** Ids that match nothing *)

Lemma forEach_cons {A S} (f : A → S → M S) a l s n :
  forEach f (a :: l) s n =
  match f a s n with
  | Return (s', n') => forEach f l s' n'
  | Throw => Throw
  end.
Proof. done. Qed.

Lemma forEach_sections randomUUID (kinds : list string) :
  ∀ (acc : gmap string Section) n,
  ∃ sections,
    forEach (λ type sections,
        id ← uuid randomUUID;
        mret (<[id := new_section type id]> sections)) kinds acc n
    = Return (sections, (n + length kinds)%nat).
Proof.
  induction kinds as [|k kinds IH]; intros acc n.
  - exists acc. cbn. unfold mret, M_ret. do 2 f_equal. lia.
  - destruct (IH (<[randomUUID n := new_section k (randomUUID n)]> acc) (S n))
      as [sections Hs].
    exists sections. rewrite forEach_cons. cbn [length].
    replace (n + S (length kinds))%nat with (S n + length kinds)%nat by lia.
    exact Hs.
Qed.

Lemma new_sections_Return randomUUID kinds n :
  ∃ sections,
    new_sections randomUUID kinds n = Return (sections, (n + length kinds)%nat).
Proof. apply forEach_sections. Qed.

Lemma addChapter_miss randomUUID subjects sId name kinds n :
  ¬ subject_known subjects sId →
  addChapter randomUUID subjects sId name kinds n
  = Return (subjects, (n + length kinds)%nat).
Proof.
  intros Hk. unfold addChapter, mbind, M_bind.
  destruct (new_sections_Return randomUUID kinds n) as [sections ->].
  rewrite (mapM_pure _ (λ s, s)).
  - by rewrite map_id.
  - intros s m Hs. destruct (decide (subj_id s = sId)) as [Heq|]; [|done].
    exfalso. apply Hk. by exists s.
Qed.

Lemma filter_all {A} (P : A → Prop) `{∀ x, Decision (P x)} (l : list A) :
  (∀ x, x ∈ l → P x) → filter P l = l.
Proof.
  induction l as [|a l IH]; intros HP; [done|].
  rewrite filter_cons, decide_True by (apply HP; left).
  f_equal. apply IH. intros x Hx. apply HP. by right.
Qed.

Lemma deleteChapter_miss subjects sId cId n :
  ¬ chapter_known subjects sId cId →
  deleteChapter subjects sId cId n = Return (subjects, n).
Proof.
  intros Hk. unfold deleteChapter, mret, M_ret. do 2 f_equal.
  apply map_id_on. intros s Hs.
  destruct (decide (subj_id s = sId)) as [Heq|]; [|done].
  rewrite filter_all; [apply subject_eta|].
  intros c Hc Hcid. apply Hk. by exists s, c.
Qed.

(** C3, as the code has it.  When the subject id matches no subject, or the
    chapter id matches no chapter of a matching subject, every mutation
    returns the tree it was given and does not throw.  ([addChapter] still
    draws one UUID for each requested kind.)  Section and sub-exercise ids are
    not covered. *)
Theorem unknown_subject_or_chapter_is_no_op
    randomUUID subjects sId cId secId qId subExId count name label kinds n :
  (¬ subject_known subjects sId →
     addChapter randomUUID subjects sId name kinds n
     = Return (subjects, (n + length kinds)%nat)) ∧
  (¬ chapter_known subjects sId cId →
     toggleQuestion subjects sId cId secId qId subExId n = Return (subjects, n) ∧
     genQuestions subjects sId cId secId count n = Return (subjects, n) ∧
     deleteChapter subjects sId cId n = Return (subjects, n) ∧
     addGenericSection randomUUID subjects sId cId label n = Return (subjects, n) ∧
     addSubExercise randomUUID subjects sId cId secId name count n
     = Return (subjects, n)).
Proof.
  split; [apply addChapter_miss|].
  intros Hk. split_and!;
    first [by apply update_chapter_miss | by apply deleteChapter_miss].
Qed.

Lemma unknown_subject_or_chapter_is_no_op_witness :
  (addChapter demo_uuid demo_tree "subj-9" "Algebra" ["EXERCISE"; "PYQS"] 0%nat
   = Return (demo_tree, 2%nat)) ∧
  (toggleQuestion demo_tree "subj-1" "ch-9" "sec-1" "q-1" None 0%nat
     = Return (demo_tree, 0%nat) ∧
   genQuestions demo_tree "subj-1" "ch-9" "sec-1" (Int 3) 0%nat
     = Return (demo_tree, 0%nat) ∧
   deleteChapter demo_tree "subj-1" "ch-9" 0%nat = Return (demo_tree, 0%nat) ∧
   addGenericSection demo_uuid demo_tree "subj-1" "ch-9" "NOTES" 0%nat
     = Return (demo_tree, 0%nat) ∧
   addSubExercise demo_uuid demo_tree "subj-1" "ch-9" "sec-1" "Set A" (Int 3) 0%nat
     = Return (demo_tree, 0%nat)).
Proof.
  split.
  - apply (unknown_subject_or_chapter_is_no_op demo_uuid demo_tree
             "subj-9" "ch-9" "sec-1" "q-1" None (Int 3) "Algebra" "NOTES"
             ["EXERCISE"; "PYQS"] 0%nat).
    intros (s & Hs & Hid). apply list_elem_of_In in Hs.
    cbn in Hs. destruct Hs as [<-|[]]. discriminate Hid.
  - apply (unknown_subject_or_chapter_is_no_op demo_uuid demo_tree
             "subj-1" "ch-9" "sec-1" "q-1" None (Int 3) "Algebra" "NOTES"
             ["EXERCISE"; "PYQS"] 0%nat).
    intros (s & c & Hs & _ & Hc & Hid). apply list_elem_of_In in Hs.
    cbn in Hs. destruct Hs as [<-|[]]. apply list_elem_of_In in Hc.
    cbn in Hc. destruct Hc as [<-|[]]. discriminate Hid.
Defined.

(** C3, as stated, fails on a section id or sub-exercise id that matches
    nothing: [toggleQuestion] and [addSubExercise] throw, and [genQuestions]
    returns a tree with one more section. *)
Lemma unknown_section_is_not_a_no_op :
  ch_sections demo_chapter !! "sec-9" = None ∧
  toggleQuestion demo_tree "subj-1" "ch-1" "sec-9" "q-1" None 0%nat = Throw ∧
  toggleQuestion demo_tree "subj-1" "ch-1" "sec-1" "q-1" (Some "sub-9") 0%nat = Throw ∧
  addSubExercise demo_uuid demo_tree "subj-1" "ch-1" "sec-9" "Set A" (Int 4) 0%nat
    = Throw ∧
  ∃ t',
    genQuestions demo_tree "subj-1" "ch-1" "sec-9" (Int 2) 0%nat = Return (t', 0%nat) ∧
    t' ≠ demo_tree ∧
    (c ← find_chapter t' "subj-1" "ch-1"; ch_sections c !! "sec-9")
    = Some (mkSection None None None
              (Some [mkQuestion "q-1" false; mkQuestion "q-2" false]) None).
Proof.
  split_and!; [reflexivity..|].
  eexists. split_and!; [reflexivity| |reflexivity].
  intros H. apply (f_equal (λ t, c ← find_chapter t "subj-1" "ch-1";
                                 ch_sections c !! "sec-9")) in H.
  vm_compute in H. discriminate H.
Qed.

(** ** Counting *)

Definition plus_counters (a b : counters) : counters :=
  (a.1 + b.1, a.2 + b.2)%nat.

(** [(length, number completed)] of a question list. *)
Definition counts_of (qs : list Question) : counters :=
  (length qs, length (filter (λ q, q_completed q = true) qs)).

(** The questions that [calculateProgress] reaches through a section: those of
    the sub-exercises when the type is ["exercise"] and a sub-exercise map is
    there, the direct list otherwise. *)
Definition section_questions (sec : Section) : list Question :=
  match sec_type sec, sec_subExercises sec with
  | Some ty, Some subs =>
      if decide (ty = "exercise")
      then kx ← map_to_list subs; sub_questions kx.2
      else default [] (sec_questions sec)
  | _, _ => default [] (sec_questions sec)
  end.

Definition chapter_questions (c : Chapter) : list Question :=
  ks ← map_to_list (ch_sections c); section_questions ks.2.

Lemma plus_counters_zero a : plus_counters a (0, 0)%nat = a.
Proof. destruct a. unfold plus_counters. cbn. f_equal; lia. Qed.

Lemma plus_counters_assoc a b c :
  plus_counters (plus_counters a b) c = plus_counters a (plus_counters b c).
Proof. unfold plus_counters. cbn. f_equal; lia. Qed.

Lemma plus_counters_comm a b : plus_counters a b = plus_counters b a.
Proof. unfold plus_counters. f_equal; lia. Qed.

Lemma counts_of_app qs1 qs2 :
  counts_of (qs1 ++ qs2) = plus_counters (counts_of qs1) (counts_of qs2).
Proof.
  unfold counts_of, plus_counters. cbn. by rewrite filter_app, !length_app.
Qed.

Lemma tally_counts qs acc : tally qs acc = plus_counters acc (counts_of qs).
Proof. done. Qed.

Lemma tally_opt_counts qs acc :
  tally_opt qs acc = plus_counters acc (counts_of (default [] qs)).
Proof. destruct qs; [done|]. cbn. by rewrite plus_counters_zero. Qed.

Lemma foldr_tally {A} (g : A → counters → counters) (f : A → list Question)
    (l : list A) acc :
  (∀ x a, g x a = tally (f x) a) →
  foldr g acc l = plus_counters acc (counts_of (x ← l; f x)).
Proof.
  intros Hg. induction l as [|x l IH]; cbn.
  - by rewrite plus_counters_zero.
  - rewrite Hg, IH, tally_counts, counts_of_app, plus_counters_assoc.
    f_equal. apply plus_counters_comm.
Qed.

(** One call of the [forEach] body adds the counts of the questions reached
    through the section. *)
Lemma count_section_counts sec acc :
  count_section sec acc = plus_counters acc (counts_of (section_questions sec)).
Proof.
  unfold count_section, section_questions.
  destruct (sec_type sec) as [ty|], (sec_subExercises sec) as [subs|];
    try apply tally_opt_counts.
  destruct (decide (ty = "exercise")); [|apply tally_opt_counts].
  rewrite map_fold_foldr. apply foldr_tally. by intros [k ex] a.
Qed.

Lemma count_sections_counts sections :
  count_sections sections
  = counts_of (ks ← map_to_list sections; section_questions ks.2).
Proof.
  unfold count_sections. rewrite map_fold_foldr.
  generalize (map_to_list sections). intros l.
  induction l as [|[k sec] l IH]; [done|].
  cbn. rewrite IH, count_section_counts, counts_of_app. apply plus_counters_comm.
Qed.

(** [calculateProgress] in terms of the questions reached. *)
Lemma calculateProgress_counts c :
  calculateProgress c =
  let qs := chapter_questions c in
  if decide (length qs = 0%nat) then 0
  else JsNumber.percent (length (filter (λ q, q_completed q = true) qs)) (length qs).
Proof.
  unfold calculateProgress, chapter_questions.
  rewrite count_sections_counts. cbn zeta.
  destruct (decide (size (ch_sections c) = 0%nat)) as [Hsz|Hsz]; [|done].
  apply map_size_empty_inv in Hsz. rewrite Hsz, map_to_list_empty. done.
Qed.

(** C1, first half.  With no question under the chapter the result is 0. *)
Lemma calculateProgress_no_questions c :
  chapter_questions c = [] → calculateProgress c = 0.
Proof. intros H. rewrite calculateProgress_counts, H. done. Qed.

Lemma count_sections_insert k sec sections :
  sections !! k = None →
  count_sections (<[k := sec]> sections)
  = plus_counters (count_sections sections) (counts_of (section_questions sec)).
Proof.
  intros Hk. unfold count_sections.
  rewrite map_fold_insert_L; [apply count_section_counts| |done].
  intros j1 j2 z1 z2 y _ _ _. rewrite !count_section_counts, !plus_counters_assoc.
  f_equal. apply plus_counters_comm.
Qed.

(** Replacing a section by one through which the same questions are reached
    does not change the counts. *)
Lemma count_sections_replace k sec sec' sections :
  sections !! k = Some sec →
  section_questions sec' = section_questions sec →
  count_sections (<[k := sec']> sections) = count_sections sections.
Proof.
  intros Hk Hq.
  rewrite <- (insert_delete_id sections k sec) at 2 by done.
  rewrite <- (insert_delete_eq sections k sec').
  rewrite !count_sections_insert by apply lookup_delete_eq.
  by rewrite Hq.
Qed.

Lemma calculateProgress_replace c k sec sec' :
  ch_sections c !! k = Some sec →
  section_questions sec' = section_questions sec →
  calculateProgress
    (mkChapter (ch_id c) (ch_name c) (ch_progress c) (<[k := sec']> (ch_sections c)))
  = calculateProgress c.
Proof.
  intros Hk Hq. unfold calculateProgress. cbn.
  rewrite (count_sections_replace k sec sec') by done.
  by rewrite map_size_insert_Some.
Qed.

(** ** Which list a section contributes *)

Definition with_questions (sec : Section) (qs : option (list Question)) : Section :=
  mkSection (sec_id sec) (sec_label sec) (sec_type sec) qs (sec_subExercises sec).

Definition with_subExercises (sec : Section)
    (subs : option (gmap string SubExercise)) : Section :=
  mkSection (sec_id sec) (sec_label sec) (sec_type sec) (sec_questions sec) subs.

Definition with_section (c : Chapter) (k : string) (sec : Section) : Chapter :=
  mkChapter (ch_id c) (ch_name c) (ch_progress c) (<[k := sec]> (ch_sections c)).

(** C9, as the code has it.  For a section whose type is ["exercise"] and that
    carries a sub-exercise map, [calculateProgress] reaches only the questions
    of the sub-exercises, and the result does not depend on the direct question
    list.  For every other section (another type, or no sub-exercise map) it
    reaches only the direct list, and for a type other than ["exercise"] the
    result does not depend on the sub-exercise map. *)
Theorem progress_by_section_kind c k sec :
  ch_sections c !! k = Some sec →
  (∀ subs,
     sec_type sec = Some "exercise" → sec_subExercises sec = Some subs →
     section_questions sec = (kx ← map_to_list subs; sub_questions kx.2) ∧
     ∀ qs, calculateProgress (with_section c k (with_questions sec qs))
           = calculateProgress c) ∧
  (sec_type sec ≠ Some "exercise" ∨ sec_subExercises sec = None →
     section_questions sec = default [] (sec_questions sec)) ∧
  (sec_type sec ≠ Some "exercise" →
     ∀ subs, calculateProgress (with_section c k (with_subExercises sec subs))
             = calculateProgress c).
Proof.
  intros Hk. split_and!.
  - intros subs Hty Hsubs. split.
    + unfold section_questions. rewrite Hty, Hsubs. by rewrite decide_True.
    + intros qs. apply (calculateProgress_replace c k sec); [done|].
      unfold section_questions, with_questions. cbn.
      rewrite Hty, Hsubs. by rewrite decide_True.
  - intros [Hty|Hsubs]; unfold section_questions.
    + destruct (sec_type sec) as [ty|], (sec_subExercises sec); try done.
      rewrite decide_False; [done|]. congruence.
    + rewrite Hsubs. by destruct (sec_type sec).
  - intros Hty subs. apply (calculateProgress_replace c k sec); [done|].
    unfold section_questions, with_subExercises. cbn.
    destruct (sec_type sec) as [ty|].
    + assert (ty ≠ "exercise") by congruence.
      destruct subs, (sec_subExercises sec); by rewrite ?decide_False.
    + by destruct subs.
Qed.

Lemma progress_by_section_kind_witness :
  (∀ subs,
     sec_type demo_section = Some "exercise" →
     sec_subExercises demo_section = Some subs →
     section_questions demo_section = (kx ← map_to_list subs; sub_questions kx.2) ∧
     ∀ qs, calculateProgress (with_section demo_chapter "sec-1"
                                (with_questions demo_section qs))
           = calculateProgress demo_chapter) ∧
  (sec_type demo_section ≠ Some "exercise" ∨ sec_subExercises demo_section = None →
     section_questions demo_section = default [] (sec_questions demo_section)) ∧
  (sec_type demo_section ≠ Some "exercise" →
     ∀ subs, calculateProgress (with_section demo_chapter "sec-1"
                                  (with_subExercises demo_section subs))
             = calculateProgress demo_chapter).
Proof.
  apply (progress_by_section_kind demo_chapter "sec-1" demo_section). reflexivity.
Defined.

(** A section of type ["exercise"] without a sub-exercise map, as [addChapter]
    builds for the kind ["exercise"], once a question has been generated in it
    and completed. *)
Definition bare_exercise : Section :=
  mkSection (Some "uuid-0") (Some "exercise") (Some "exercise")
    (Some [mkQuestion "q-1" true]) None.

Definition bare_exercise_tree : Tree :=
  [mkSubject "subj-1" "Math"
     [mkChapter "uuid-1" "Sets" 100 {[ "uuid-0" := bare_exercise ]}]].

(** C9, as stated, fails on such a section: its type is ["exercise"], it has no
    sub-exercise question at all, and its direct list decides the progress. *)
Lemma exercise_without_map_counts_direct_list :
  sec_type bare_exercise = Some "exercise" ∧
  sec_subExercises bare_exercise = None ∧
  calculateProgress (mkChapter "uuid-1" "Sets" 0 {[ "uuid-0" := bare_exercise ]}) = 100 ∧
  calculateProgress
    (mkChapter "uuid-1" "Sets" 0
       {[ "uuid-0" := with_questions bare_exercise (Some []) ]}) = 0 ∧
  (t1 ← addChapter demo_uuid [mkSubject "subj-1" "Math" []] "subj-1" "Sets"
          ["exercise"];
   t2 ← genQuestions t1 "subj-1" "uuid-1" "uuid-0" (Int 1);
   toggleQuestion t2 "subj-1" "uuid-1" "uuid-0" "q-1" None) 0%nat
  = Return (bare_exercise_tree, 2%nat).
Proof. split_and!; reflexivity. Qed.

(** ** The shape of sections *)




Lemma mapM_Return_inv {A B} (f : A → M B) (l : list A) n l' n' :
  mapM f l n = Return (l', n') →
  Forall2 (λ a b, ∃ m m', f a m = Return (b, m')) l l'.
Proof.
  revert n l'. induction l as [|a l IH]; intros n l' H.
  - cbn in H. injection H as <- <-. constructor.
  - cbn in H. unfold mbind, M_bind in H.
    destruct (f a n) as [[b n1]|] eqn:Ha; [|done].
    fold (mapM f) in H.
    destruct (mapM f l n1) as [[bs n2]|] eqn:Hl; [|done].
    cbn in H. injection H as <- <-. constructor; eauto.
Qed.




(** What [addSubExercise]'s inner callback returns, when it returns: the
    count was a length that an array can have and the section was there. *)
Lemma addSubExercise_chapter_inv randomUUID secId name qCount c n c' n' :
  addSubExercise_chapter randomUUID secId name qCount c n = Return (c', n') →
  ∃ sec,
    ch_sections c !! secId = Some sec ∧
    Z.of_nat (ToLength qCount) < 2 ^ 32 ∧
    n' = S n ∧
    c' = with_sections c
           (<[secId := with_subExercises sec
                (Some (<[randomUUID n :=
                           mkSubExercise (randomUUID n) name (fresh_questions qCount)]>
                         (default ∅ (sec_subExercises sec))))]> (ch_sections c)).
Proof.
  unfold addSubExercise_chapter. rewrite M_bind_eq. cbn. rewrite M_bind_eq.
  destruct (Array_from qCount (S n)) as [[questions n1]|] eqn:Hq; [|done].
  apply Array_from_inv in Hq as (-> & -> & Hlen).
  destruct (ch_sections c !! secId) as [sec|]; [|done].
  intros [= <- <-]. by exists sec.
Qed.




Lemma forEach_new_sections randomUUID (kinds : list string) :
  ∀ (acc : gmap string Section) n sections n',
  forEach (λ type sections,
      id ← uuid randomUUID;
      mret (<[id := new_section type id]> sections)) kinds acc n
  = Return (sections, n') →
  ∀ k sec, sections !! k = Some sec →
    acc !! k = Some sec ∨ ∃ kind, kind ∈ kinds ∧ sec = new_section kind k.
Proof.
  induction kinds as [|kind kinds IH]; intros acc n sections n' H k sec Hk.
  - injection H as <- _. by left.
  - rewrite forEach_cons in H.
    destruct (IH _ _ _ _ H k sec Hk) as [Hacc|(kind' & Hin & ->)].
    + apply lookup_insert_Some in Hacc as [[<- <-]|[_ Hacc]]; [|by left].
      right. exists kind. split; [left|done].
    + right. exists kind'. split; [by right|done].
Qed.

(** The sections that [addChapter] builds: one per requested kind, keyed by
    its id. *)
Lemma new_sections_shape randomUUID kinds n sections n' :
  new_sections randomUUID kinds n = Return (sections, n') →
  ∀ k sec, sections !! k = Some sec →
    ∃ kind, kind ∈ kinds ∧ sec = new_section kind k.
Proof.
  intros H k sec Hk.
  destruct (forEach_new_sections _ _ _ _ _ _ H k sec Hk) as [Hacc|?]; [|done].
  by rewrite lookup_empty in Hacc.
Qed.

(** The chapters of the tree that [addChapter] returns: those of the tree it
    was given, and the new one with the new sections. *)
Lemma addChapter_chapters randomUUID subjects sId name kinds n t' n' :
  addChapter randomUUID subjects sId name kinds n = Return (t', n') →
  ∃ sections,
    new_sections randomUUID kinds n = Return (sections, (n + length kinds)%nat) ∧
    ∀ s' c, s' ∈ t' → c ∈ subj_chapters s' →
      (∃ s, s ∈ subjects ∧ c ∈ subj_chapters s) ∨
      (ch_name c = name ∧ ch_progress c = 0 ∧ ch_sections c = sections).
Proof.
  intros H. unfold addChapter, mbind, M_bind in H.
  destruct (new_sections_Return randomUUID kinds n) as [sections Hs].
  rewrite Hs in H. exists sections. split; [done|].
  apply mapM_Return_inv in H. intros s' c Hs' Hc.
  apply list_elem_of_lookup in Hs' as [i Hi].
  destruct (Forall2_lookup_r _ _ _ _ _ H Hi) as (s & Hsi & m & m' & Hf).
  apply list_elem_of_lookup_2 in Hsi.
  destruct (decide (subj_id s = sId)).
  - injection Hf as <- _. cbn in Hc.
    apply elem_of_app in Hc as [Hc|Hc]; [left; eauto|].
    apply list_elem_of_singleton in Hc as ->. by right.
  - injection Hf as <- _. left. eauto.
Qed.

Lemma new_section_fields kind k :
  sec_id (new_section kind k) = Some k ∧
  sec_label (new_section kind k) = Some kind ∧
  sec_type (new_section kind k) = Some (toLowerCase kind) ∧
  sec_questions (new_section kind k) = Some [] ∧
  sec_subExercises (new_section kind k)
  = if decide (kind = "EXERCISE") then Some ∅ else None.
Proof. done. Qed.


Lemma mapM_total {A B} (f : A → M B) (l : list A) :
  (∀ a n, ∃ b n', f a n = Return (b, n')) →
  ∀ n, ∃ l' n', mapM f l n = Return (l', n').
Proof.
  intros Hf. induction l as [|a l IH]; intros n.
  - by exists [], n.
  - destruct (Hf a n) as (b & n1 & Ha). destruct (IH n1) as (bs & n2 & Hl).
    exists (b :: bs), n2. by rewrite mapM_cons, Ha, Hl.
Qed.

Lemma addChapter_total randomUUID subjects sId name kinds n :
  ∃ t' n', addChapter randomUUID subjects sId name kinds n = Return (t', n').
Proof.
  unfold addChapter, mbind, M_bind.
  destruct (new_sections_Return randomUUID kinds n) as [sections ->].
  apply mapM_total. intros s m.
  destruct (decide (subj_id s = sId)); by eexists _, _.
Qed.





(** ** The frame with a body that draws UUIDs *)

Lemma mapM_total_on {A B} (f : A → M B) (l : list A) :
  (∀ a n, a ∈ l → ∃ b n', f a n = Return (b, n')) →
  ∀ n, ∃ l' n', mapM f l n = Return (l', n').
Proof.
  induction l as [|a l IH]; intros Hf n.
  - by exists [], n.
  - destruct (Hf a n) as (b & n1 & Ha); [left|].
    destruct (IH (λ x m Hx, Hf x m (list_elem_of_further _ _ _ Hx)) n1)
      as (bs & n2 & Hl).
    exists (b :: bs), n2. by rewrite mapM_cons, Ha, Hl.
Qed.

(** Inside the first subject that matches: the first matching chapter is the
    first one the body runs on, and it is the one [find] sees afterwards. *)
Lemma chapters_first cId (body : Chapter → M Chapter) chapters c :
  find (λ c, bool_decide (ch_id c = cId)) chapters = Some c →
  (∀ c' m, c' ∈ chapters → ch_id c' = cId →
     ∃ c'' m', body c' m = Return (c'', m') ∧ ch_id c'' = cId) →
  ∀ n, ∃ chapters' n' c1 n1,
    mapM (λ c, if decide (ch_id c ≠ cId) then mret c else body c) chapters n
    = Return (chapters', n') ∧
    body c n = Return (c1, n1) ∧
    find (λ c, bool_decide (ch_id c = cId)) chapters' = Some c1.
Proof.
  induction chapters as [|a l IH]; intros Hfind Hbody n; [done|].
  cbn [find] in Hfind. rewrite mapM_cons.
  destruct (decide (ch_id a ≠ cId)) as [Hne|Heq].
  - rewrite bool_decide_eq_false_2 in Hfind by done.
    destruct (IH Hfind (λ x m Hx, Hbody x m (list_elem_of_further _ _ _ Hx)) n)
      as (l' & n' & c1 & n1 & Hl & Hb & Hf).
    exists (a :: l'), n', c1, n1. cbn. rewrite Hl. split_and!; [done..|].
    cbn [find]. by rewrite bool_decide_eq_false_2.
  - apply dec_stable in Heq.
    rewrite bool_decide_eq_true_2 in Hfind by done. injection Hfind as ->.
    destruct (Hbody c n) as (c1 & n1 & Hb & Hid); [left|done|].
    rewrite Hb.
    destruct (mapM_total_on
                (λ c, if decide (ch_id c ≠ cId) then mret c else body c) l)
      with (n := n1) as (l' & n' & Hl).
    { intros x m Hx. destruct (decide (ch_id x ≠ cId)) as [|Hx'].
      - by eexists _, _.
      - apply dec_stable in Hx'.
        destruct (Hbody x m) as (x' & m' & Hx'' & _); [by right|done|eauto]. }
    exists (c1 :: l'), n', c1, n1. rewrite Hl. split_and!; [done..|].
    cbn [find]. by rewrite bool_decide_eq_true_2.
Qed.

Lemma update_chapter_first sId cId (body : Chapter → M Chapter) subjects c :
  find_chapter subjects sId cId = Some c →
  (∀ c' m, c' ∈ targets subjects sId cId →
     ∃ c'' m', body c' m = Return (c'', m') ∧ ch_id c'' = cId) →
  ∀ n, ∃ t' n' c1 n1,
    update_chapter sId cId body subjects n = Return (t', n') ∧
    body c n = Return (c1, n1) ∧
    find_chapter t' sId cId = Some c1.
Proof.
  unfold find_chapter, update_chapter.
  induction subjects as [|s subjects IH]; intros Hfind Hbody n; [done|].
  cbn [find] in Hfind. rewrite mapM_cons.
  destruct (decide (subj_id s ≠ sId)) as [Hne|Heq].
  - rewrite bool_decide_eq_false_2 in Hfind by done.
    destruct (IH Hfind) with (n := n) as (t' & n' & c1 & n1 & Ht & Hb & Hf).
    { intros c' m Hc'. apply Hbody. rewrite targets_cons.
      apply elem_of_app. by right. }
    exists (s :: t'), n', c1, n1. cbn. rewrite Ht. split_and!; [done..|].
    cbn [find]. by rewrite bool_decide_eq_false_2.
  - apply dec_stable in Heq.
    rewrite bool_decide_eq_true_2 in Hfind by done. cbn in Hfind.
    destruct (chapters_first cId body (subj_chapters s) c Hfind)
      with (n := n) as (chs & n0 & c1 & n1 & Hchs & Hb & Hf).
    { intros c' m Hc' Hid. apply Hbody. apply elem_of_targets.
      exists s. split_and!; [left|done..]. }
    rewrite M_bind_eq, Hchs. cbn.
    match goal with
    | |- context [@mapM M _ _ _ _ ?f subjects n0] =>
        destruct (mapM_total_on f subjects) with (n := n0) as (t' & n' & Ht)
    end.
    { intros x m Hx. destruct (decide (subj_id x ≠ sId)) as [|Hx'].
      - by eexists _, _.
      - apply dec_stable in Hx'. rewrite M_bind_eq.
        match goal with
        | |- context [@mapM M _ _ _ _ ?f (subj_chapters x) m] =>
            destruct (mapM_total_on f (subj_chapters x)) with (n := m)
              as (l' & m' & ->)
        end; [|by eexists _, _].
        intros y k Hy. destruct (decide (ch_id y ≠ cId)) as [|Hy'].
        + by eexists _, _.
        + apply dec_stable in Hy'.
          destruct (Hbody y k) as (y' & k' & Hy'' & _); [|eauto].
          apply elem_of_targets. exists x. split_and!; [by right|done..]. }
    rewrite Ht. exists (mkSubject (subj_id s) (subj_name s) chs :: t'), n', c1, n1.
    split_and!; [done..|]. cbn [find subj_id].
    by rewrite bool_decide_eq_true_2.
Qed.

(** ** addSubExercise *)

Lemma fresh_questions_length count :
  length (fresh_questions count) = ToLength count.
Proof. unfold fresh_questions. by rewrite length_map, length_seq. Qed.

Lemma fresh_questions_incomplete count :
  Forall (λ q, q_completed q = false) (fresh_questions count).
Proof.
  unfold fresh_questions. apply Forall_forall. intros q Hq.
  apply list_elem_of_fmap in Hq as (i & -> & _). done.
Qed.

Lemma addSubExercise_chapter_Return randomUUID secId name qCount c sec n :
  Z.of_nat (ToLength qCount) < 2 ^ 32 →
  ch_sections c !! secId = Some sec →
  addSubExercise_chapter randomUUID secId name qCount c n
  = Return
      (with_sections c
         (<[secId := with_subExercises sec
              (Some (<[randomUUID n :=
                         mkSubExercise (randomUUID n) name (fresh_questions qCount)]>
                       (default ∅ (sec_subExercises sec))))]> (ch_sections c)),
       S n).
Proof.
  intros Hlen Hsec. unfold addSubExercise_chapter. rewrite M_bind_eq. cbn.
  by rewrite M_bind_eq, Array_from_Return, Hsec.
Qed.

(** C7, as the code has it.  [addSubExercise] does not look at the type of the
    section.  Whenever the ids address a section (in the chapter [c] that the
    view finds and in every chapter carrying the same ids) and the count is a
    length that an array can have (at most [2^32 - 1]; [Array.from] throws
    above), it returns a tree in which that section has one sub-exercise under
    the UUID just drawn, with [ToLength qCount] questions, none completed,
    added to the sub-exercise map the section had (or to an empty one); the
    rest of the section is kept and the cached progress is the progress
    computed on the new sections. *)
Theorem addSubExercise_any_kind
    randomUUID subjects sId cId secId name qCount c sec n :
  find_chapter subjects sId cId = Some c →
  ch_sections c !! secId = Some sec →
  Forall (λ c, is_Some (ch_sections c !! secId)) (targets subjects sId cId) →
  Z.of_nat (ToLength qCount) < 2 ^ 32 →
  ∃ t' n' c',
    addSubExercise randomUUID subjects sId cId secId name qCount n
    = Return (t', n') ∧
    find_chapter t' sId cId = Some c' ∧
    ch_sections c' =
      <[secId := with_subExercises sec
           (Some (<[randomUUID n :=
                      mkSubExercise (randomUUID n) name (fresh_questions qCount)]>
                    (default ∅ (sec_subExercises sec))))]> (ch_sections c) ∧
    length (fresh_questions qCount) = ToLength qCount ∧
    Forall (λ q, q_completed q = false) (fresh_questions qCount) ∧
    ch_progress c' = calculateProgress c'.
Proof.
  intros Hc Hsec Hall Hlen.
  destruct (update_chapter_first sId cId
              (addSubExercise_chapter randomUUID secId name qCount) subjects c Hc)
    with (n := n) as (t' & n' & c1 & n1 & Ht & Hb & Hf).
  { intros c' m Hc'.
    destruct (proj1 (Forall_forall _ _) Hall c' Hc') as [sec' Hsec'].
    apply elem_of_targets in Hc' as (_ & _ & _ & _ & Hid).
    eexists _, _. split; [by apply addSubExercise_chapter_Return|done]. }
  rewrite (addSubExercise_chapter_Return _ _ _ _ _ sec) in Hb by done.
  injection Hb as <- <-.
  exists t', n'. eexists. split_and!; [done|done|done| | |done].
  - apply fresh_questions_length.
  - apply fresh_questions_incomplete.
Qed.

Lemma addSubExercise_any_kind_witness :
  ∃ t' n' c',
    addSubExercise demo_uuid demo_tree "subj-1" "ch-1" "sec-1" "Set A" (Int 4) 0%nat
    = Return (t', n') ∧
    find_chapter t' "subj-1" "ch-1" = Some c' ∧
    ch_sections c' =
      <["sec-1" := with_subExercises demo_section
           (Some (<[demo_uuid 0 :=
                      mkSubExercise (demo_uuid 0) "Set A" (fresh_questions (Int 4))]>
                    (default ∅ (sec_subExercises demo_section))))]>
        (ch_sections demo_chapter) ∧
    length (fresh_questions (Int 4)) = ToLength (Int 4) ∧
    Forall (λ q, q_completed q = false) (fresh_questions (Int 4)) ∧
    ch_progress c' = calculateProgress c'.
Proof.
  apply (addSubExercise_any_kind demo_uuid demo_tree "subj-1" "ch-1" "sec-1"
           "Set A" (Int 4) demo_chapter demo_section 0%nat).
  - reflexivity.
  - reflexivity.
  - repeat constructor. by eexists.
  - reflexivity.
Defined.

(** C7, as stated, fails on a section that is not of the exercise kind: the
    sub-exercise is added to it all the same. *)
Lemma sub_exercise_added_to_other_kind :
  sec_type demo_section = Some "pyqs" ∧
  sec_subExercises demo_section = None ∧
  ∃ t' c' sec',
    addSubExercise demo_uuid demo_tree "subj-1" "ch-1" "sec-1" "Set A" (Int 1) 0%nat
    = Return (t', 1%nat) ∧
    find_chapter t' "subj-1" "ch-1" = Some c' ∧
    ch_sections c' !! "sec-1" = Some sec' ∧
    sec_type sec' = Some "pyqs" ∧
    sec_subExercises sec'
    = Some {[ "uuid-0" := mkSubExercise "uuid-0" "Set A" [mkQuestion "q-1" false] ]}.
Proof. split_and!; [reflexivity..|]. eexists _, _, _. split_and!; reflexivity. Qed.

(** ** The order of effects in a mutation *)

(** "The tree [t] is set as the in-memory tree before its write is
    dispatched", read on a list of actions in program order. *)
Definition visible_before_write (acts : list action) (uid : string) (t : Tree) : Prop :=
  ∃ pre post, acts = pre ++ SetDoc uid t :: post ∧ SetSubjects t ∈ pre.

Lemma saveData_no_SetSubjects u newSubjs t : SetSubjects t ∉ saveData u newSubjs.
Proof.
  destruct u; cbn; [|apply not_elem_of_nil].
  intros H. apply list_elem_of_singleton in H. discriminate H.
Qed.

(** C4, as the code has it.  A mutation callback never calls [setSubjects]:
    after it has run the in-memory tree is the one it started from.  Its only
    action is the write of the new tree, dispatched when a user is signed in
    and the callback got as far as [saveData]; without a user nothing is
    dispatched.  The in-memory tree takes a new value when the snapshot
    listener delivers one, so a mutation followed by the snapshot of its own
    write shows the write first and the in-memory update second. *)
Theorem mutation_only_dispatches_write randomUUID st op :
  subjects (step randomUUID st (Mutate op)).1 = subjects st ∧
  (∀ t, SetSubjects t ∉ (step randomUUID st (Mutate op)).2) ∧
  (∀ uid newSubjs n,
     user st = Some uid →
     new_tree randomUUID op (subjects st) (drawn st) = Return (Some newSubjs, n) →
     (step randomUUID st (Mutate op)).2 = [SetDoc uid newSubjs] ∧
     (run randomUUID st [Mutate op; Snapshot (Some (Some newSubjs))]).2
     = [SetDoc uid newSubjs; SetSubjects newSubjs] ∧
     subjects (run randomUUID st [Mutate op; Snapshot (Some (Some newSubjs))]).1
     = newSubjs) ∧
  (user st = None → (step randomUUID st (Mutate op)).2 = []).
Proof.
  cbn [step run].
  destruct (new_tree randomUUID op (subjects st) (drawn st))
    as [[[newSubjs|] n]|] eqn:Hnew; cbn.
  - split_and!; [done|intros t; apply saveData_no_SetSubjects| |].
    + intros uid t m Hu [= <- <-]. rewrite Hu. done.
    + by intros ->.
  - split_and!; [done|intros t; apply not_elem_of_nil|done|done].
  - split_and!; [done|intros t; apply not_elem_of_nil|done|done].
Qed.

Definition demo_state : AppState := mkAppState (Some "user-1") demo_tree 0.

Definition demo_op : mutation := GenQuestions "subj-1" "ch-1" "sec-1" (Int 3).

Definition demo_newSubjs : Tree :=
  map_chapter "subj-1" "ch-1" (regenerated "sec-1" (Int 3)) demo_tree.

Lemma mutation_only_dispatches_write_witness :
  (step demo_uuid demo_state (Mutate demo_op)).2 = [SetDoc "user-1" demo_newSubjs] ∧
  (run demo_uuid demo_state
     [Mutate demo_op; Snapshot (Some (Some demo_newSubjs))]).2
  = [SetDoc "user-1" demo_newSubjs; SetSubjects demo_newSubjs] ∧
  subjects (run demo_uuid demo_state
              [Mutate demo_op; Snapshot (Some (Some demo_newSubjs))]).1
  = demo_newSubjs.
Proof.
  apply (proj1 (proj2 (proj2
           (mutation_only_dispatches_write demo_uuid demo_state demo_op)))
           "user-1" demo_newSubjs 0%nat); reflexivity.
Defined.

(** C4, as stated, fails: with a user signed in, [genQuestions] dispatches the
    write of a tree that differs from the in-memory one, the in-memory tree
    is still the old one when the callback is done, and no [setSubjects]
    precedes the write. *)
Lemma write_dispatched_before_visible :
  new_tree demo_uuid demo_op (subjects demo_state) (drawn demo_state)
  = Return (Some demo_newSubjs, 0%nat) ∧
  demo_newSubjs ≠ subjects demo_state ∧
  (step demo_uuid demo_state (Mutate demo_op)).2 = [SetDoc "user-1" demo_newSubjs] ∧
  subjects (step demo_uuid demo_state (Mutate demo_op)).1 = subjects demo_state ∧
  ¬ visible_before_write (step demo_uuid demo_state (Mutate demo_op)).2
      "user-1" demo_newSubjs.
Proof.
  split_and!; [reflexivity| |reflexivity|reflexivity|].
  - intros H. apply (f_equal (λ t, ch_progress <$> find_chapter t "subj-1" "ch-1")) in H.
    vm_compute in H. discriminate H.
  - intros (pre & post & Hacts & Hin).
    destruct pre as [|a pre]; [by apply elem_of_nil in Hin|].
    destruct pre; discriminate Hacts.
Qed.

(** ** The percentage and exact rounding *)

(** The spec's formula, [round (100 * completed / total)], on exact rationals,
    with ties rounded up as [Math.round] does: [floor (100 * c / t + 1/2)]. *)
Definition spec_round_percent (completed total : nat) : Z :=
  (200 * Z.of_nat completed + Z.of_nat total) / (2 * Z.of_nat total).

(** A chapter with one section of [n] questions, the first [k] completed. *)
Definition questions_done (k n : nat) : list Question :=
  map (λ i, mkQuestion (question_id i) (bool_decide (i < k)%nat)) (seq 0 n).

Definition chapter_done (k n : nat) : Chapter :=
  mkChapter "ch-1" "Algebra" 0
    {[ "sec-1" := mkSection (Some "sec-1") (Some "PYQS") (Some "pyqs")
                    (Some (questions_done k n)) None ]}.

(** C1 at 23 questions completed out of 40.  The quotient [23/40] is rounded
    to a double below 0.575, its product with 100 to the double just below
    57.5, and [Math.round] gives 57; the exact value is 57.5, which rounds to
    58. *)
Theorem calculateProgress_23_of_40 :
  length (chapter_questions (chapter_done 23 40)) = 40%nat ∧
  length (filter (λ q, q_completed q = true)
            (chapter_questions (chapter_done 23 40))) = 23%nat ∧
  calculateProgress (chapter_done 23 40) = 57 ∧
  spec_round_percent 23 40 = 58 ∧
  JsNumber.percent 23 40 = 57.
Proof. split_and!; reflexivity. Qed.

(** The values the spec lists do come out: 10 of 10 is 100, 5 of 10 is 50. *)
Example calculateProgress_examples :
  calculateProgress (chapter_done 10 10) = 100 ∧
  calculateProgress (chapter_done 5 10) = 50 ∧
  calculateProgress (chapter_done 0 0) = 0.
Proof. split_and!; reflexivity. Qed.

(** ** Binary64 arithmetic

    What is needed of IEEE-754 double precision to reason about
    [Math.round((completedQs / totalQs) * 100)]: the operations of
    [SpecFloat], to which the primitive floats are tied by the library's
    specification, round to nearest with ties to even, and that rounding is
    monotone.  Everything here is about positive normal numbers, which is
    where counts and their quotients live. *)

Module Rounding.
Import SpecFloat FloatOps.
Local Open Scope R_scope.

Definition pow2 (e : Z) : R := powerRZ 2 e.

(** The real number [m * 2^e]. *)
Definition F2R (m e : Z) : R := IZR m * pow2 e.

Lemma pow2_pos e : 0 < pow2 e.
Proof. apply powerRZ_lt. lra. Qed.

Lemma pow2_add a b : pow2 (a + b) = pow2 a * pow2 b.
Proof. apply powerRZ_add. lra. Qed.

Lemma pow2_succ e : pow2 (e + 1) = 2 * pow2 e.
Proof.
  rewrite pow2_add. replace (pow2 1) with 2; [ring|].
  unfold pow2. simpl. lra.
Qed.

Lemma pow2_0 : pow2 0 = 1.
Proof. done. Qed.

Lemma pow2_IZR (n : Z) : (0 <= n)%Z → pow2 n = IZR (2 ^ n).
Proof.
  intros Hn. unfold pow2. rewrite <- (Z2Nat.id n) by done.
  rewrite <- pow_powerRZ, pow_IZR. done.
Qed.

Lemma pow2_le a b : (a <= b)%Z → pow2 a <= pow2 b.
Proof.
  intros H. replace b with (a + (b - a))%Z by lia.
  rewrite pow2_add, (pow2_IZR (b - a)) by lia.
  assert (1 <= IZR (2 ^ (b - a))).
  { apply IZR_le. assert (0 < 2 ^ (b - a))%Z by (apply Z.pow_pos_nonneg; lia). lia. }
  pose proof (pow2_pos a). nra.
Qed.

Lemma pow2_lt a b : (a < b)%Z → pow2 a < pow2 b.
Proof.
  intros H. apply Rlt_le_trans with (pow2 (a + 1)).
  - rewrite pow2_succ. pose proof (pow2_pos a). lra.
  - apply pow2_le. lia.
Qed.

Lemma pow2_lt_inv a b : pow2 a < pow2 b → (a < b)%Z.
Proof.
  intros H. destruct (Z_lt_le_dec a b) as [|Hle]; [done|].
  apply pow2_le in Hle. lra.
Qed.

Lemma F2R_shift m e k : (0 <= k)%Z → F2R (m * 2 ^ k) e = F2R m (e + k).
Proof.
  intros Hk. unfold F2R. rewrite mult_IZR, pow2_add, (pow2_IZR k) by done. ring.
Qed.

(** [x] lies at location [l] of the interval [[m * 2^e, (m+1) * 2^e)]. *)
Definition located (x : R) (m e : Z) (l : location) : Prop :=
  match l with
  | loc_Exact => x = F2R m e
  | loc_Inexact Lt => F2R m e < x < F2R m e + pow2 e / 2
  | loc_Inexact Eq => x = F2R m e + pow2 e / 2
  | loc_Inexact Gt => F2R m e + pow2 e / 2 < x < F2R m e + pow2 e
  end.

Definition located_rec (x : R) (mrs : shr_record) (e : Z) : Prop :=
  located x (shr_m mrs) e (loc_of_shr_record mrs).

Lemma IZR_xO p : IZR (Zpos p~0) = 2 * IZR (Zpos p).
Proof. change (Zpos p~0) with (2 * Zpos p)%Z. by rewrite mult_IZR. Qed.

Lemma IZR_xI p : IZR (Zpos p~1) = 2 * IZR (Zpos p) + 1.
Proof. change (Zpos p~1) with (2 * Zpos p + 1)%Z. by rewrite plus_IZR, mult_IZR. Qed.

Lemma shr_1_m mrs : (0 <= shr_m mrs)%Z → shr_m (shr_1 mrs) = (shr_m mrs / 2)%Z.
Proof.
  destruct mrs as [m r s]. cbn [shr_m]. intros Hm.
  destruct m as [|[p|p|]|p]; cbn [shr_1 shr_m]; [done| | |done|lia].
  - change (Zpos p~1) with (2 * Zpos p + 1)%Z.
    apply Z.div_unique with 1%Z; lia.
  - change (Zpos p~0) with (2 * Zpos p)%Z.
    apply Z.div_unique with 0%Z; lia.
Qed.

Lemma shr_1_located x mrs e :
  (0 <= shr_m mrs)%Z → located_rec x mrs e → located_rec x (shr_1 mrs) (e + 1).
Proof.
  destruct mrs as [m r s]. unfold located_rec. cbn [shr_m]. intros Hm.
  pose proof (pow2_pos e) as HP.
  destruct m as [|[p|p|]|p]; [| | | |lia];
    destruct r, s; cbn [shr_1 shr_m shr_r shr_s loc_of_shr_record located orb];
    unfold F2R; rewrite ?pow2_succ, ?(IZR_xO p), ?(IZR_xI p);
    intros H; lra.
Qed.

Lemma shr_1_nonneg mrs : (0 <= shr_m mrs)%Z → (0 <= shr_m (shr_1 mrs))%Z.
Proof. intros H. rewrite shr_1_m by done. by apply Z.div_pos. Qed.

(** [n] steps of [shr_1]: the mantissa is divided by [2^n], and the record
    still tells where [x] lies, one exponent higher per step. *)
Lemma iter_shr_1 (n : positive) :
  ∀ x mrs e,
    (0 <= shr_m mrs)%Z → located_rec x mrs e →
    shr_m (iter_pos shr_1 n mrs) = (shr_m mrs / 2 ^ Zpos n)%Z ∧
    located_rec x (iter_pos shr_1 n mrs) (e + Zpos n).
Proof.
  induction n as [n IH|n IH|]; intros x mrs e Hm Hl; cbn [iter_pos].
  - pose proof (shr_1_nonneg _ Hm) as H1.
    pose proof (shr_1_located _ _ _ Hm Hl) as L1.
    destruct (IH x _ _ H1 L1) as [M2 L2].
    assert (0 <= shr_m (iter_pos shr_1 n (shr_1 mrs)))%Z as H2.
    { rewrite M2. apply Z.div_pos; [done|]. by apply Z.pow_pos_nonneg. }
    destruct (IH x _ _ H2 L2) as [M3 L3].
    split.
    + rewrite M3, M2, shr_1_m by done.
      rewrite !Z.div_div by (try apply Z.pow_pos_nonneg; lia).
      f_equal. replace (Zpos n~1) with (1 + Zpos n + Zpos n)%Z by lia.
      rewrite !Z.pow_add_r, Z.pow_1_r by lia. ring.
    + replace (e + Zpos n~1)%Z with (e + 1 + Zpos n + Zpos n)%Z by lia. done.
  - destruct (IH x _ _ Hm Hl) as [M2 L2].
    assert (0 <= shr_m (iter_pos shr_1 n mrs))%Z as H2.
    { rewrite M2. apply Z.div_pos; [done|]. by apply Z.pow_pos_nonneg. }
    destruct (IH x _ _ H2 L2) as [M3 L3].
    split.
    + rewrite M3, M2.
      rewrite !Z.div_div by (try apply Z.pow_pos_nonneg; lia).
      f_equal. replace (Zpos n~0) with (Zpos n + Zpos n)%Z by lia.
      rewrite !Z.pow_add_r by lia. ring.
    + replace (e + Zpos n~0)%Z with (e + Zpos n + Zpos n)%Z by lia. done.
  - split; [by apply shr_1_m|by apply shr_1_located].
Qed.

Lemma shr_located x mrs e n :
  (0 <= shr_m mrs)%Z → (0 <= n)%Z → located_rec x mrs e →
  ∃ mrs', shr mrs e n = (mrs', (e + n)%Z) ∧
          shr_m mrs' = (shr_m mrs / 2 ^ n)%Z ∧
          located_rec x mrs' (e + n).
Proof.
  intros Hm Hn Hl. destruct n as [|n|n]; [| |lia].
  - exists mrs. cbn [shr]. rewrite Z.add_0_r, Z.pow_0_r, Z.div_1_r. done.
  - destruct (iter_shr_1 n x mrs e Hm Hl) as [M L].
    exists (iter_pos shr_1 n mrs). done.
Qed.

(** The number of binary digits. *)
Lemma digits2_pos_bounds (m : positive) :
  (2 ^ (Zpos (digits2_pos m) - 1) <= Zpos m < 2 ^ Zpos (digits2_pos m))%Z.
Proof.
  induction m as [m IH|m IH|]; cbn [digits2_pos].
  - rewrite Pos2Z.inj_succ.
    replace (Z.succ (Zpos (digits2_pos m)) - 1)%Z
      with (Z.succ (Zpos (digits2_pos m) - 1))%Z by lia.
    rewrite !Z.pow_succ_r by lia. lia.
  - rewrite Pos2Z.inj_succ.
    replace (Z.succ (Zpos (digits2_pos m)) - 1)%Z
      with (Z.succ (Zpos (digits2_pos m) - 1))%Z by lia.
    rewrite !Z.pow_succ_r by lia. lia.
  - done.
Qed.

Lemma digits2_pos_unique (m : positive) (k : Z) :
  (2 ^ (k - 1) <= Zpos m < 2 ^ k)%Z → Zpos (digits2_pos m) = k.
Proof.
  intros [H1 H2]. pose proof (digits2_pos_bounds m) as [B1 B2].
  assert (0 < k)%Z.
  { destruct (Z_lt_le_dec 0 k) as [|Hk]; [done|].
    destruct k as [|k|k]; [cbn in H2; lia|lia|].
    rewrite Z.pow_neg_r in H2 by lia. lia. }
  destruct (Z.lt_trichotomy (Zpos (digits2_pos m)) k) as [Hlt|[Heq|Hgt]]; [|done|].
  - assert (2 ^ Zpos (digits2_pos m) <= 2 ^ (k - 1))%Z
      by (apply Z.pow_le_mono_r; lia). lia.
  - assert (2 ^ k <= 2 ^ (Zpos (digits2_pos m) - 1))%Z
      by (apply Z.pow_le_mono_r; lia). lia.
Qed.

(** [y] is [x] rounded to the nearest double, ties to even, for [x] in the
    range of normal numbers: [y = N * 2^E] where [E] is fixed by the binade of
    [x] and [N] is an integer nearest to [x / 2^E], the even one at a tie. *)
Definition rounds_to (x y : R) : Prop :=
  ∃ N E : Z,
    y = F2R N E ∧
    pow2 (E + 52) <= x < pow2 (E + 53) ∧
    F2R N E - pow2 E / 2 <= x <= F2R N E + pow2 E / 2 ∧
    (x = F2R N E - pow2 E / 2 ∨ x = F2R N E + pow2 E / 2 → Z.even N = true).

Lemma rounds_to_mono x y x' y' :
  rounds_to x y → rounds_to x' y' → x <= x' → y <= y'.
Proof.
  intros (N & E & -> & [Hlo Hhi] & [Hn1 Hn2] & Htie)
         (N' & E' & -> & [Hlo' Hhi'] & [Hn1' Hn2'] & Htie') Hx.
  assert (E <= E')%Z as HE.
  { assert (pow2 (E + 52) < pow2 (E' + 53)) as H by lra.
    apply pow2_lt_inv in H. lia. }
  pose proof (pow2_pos E) as HP. pose proof (pow2_pos E') as HP'.
  destruct (Z.eq_dec E E') as [<-|Hne].
  - unfold F2R in *.
    assert (IZR N <= IZR N' + 1) as Hle by nra.
    rewrite <- (plus_IZR N' 1) in Hle. apply le_IZR in Hle.
    destruct (Z.eq_dec N (N' + 1)%Z) as [->|Hneq].
    + exfalso. rewrite plus_IZR in *.
      assert (x = (IZR N' + 1) * pow2 E - pow2 E / 2) as H1 by lra.
      assert (x' = IZR N' * pow2 E + pow2 E / 2) as H2 by lra.
      pose proof (Htie (or_introl H1)) as Hev.
      pose proof (Htie' (or_intror H2)) as Hev'.
      rewrite Z.add_1_r, Z.even_succ, <- Z.negb_even, Hev' in Hev. done.
    + assert (N <= N')%Z as Hle' by lia. apply IZR_le in Hle'. nra.
  - assert (E + 53 <= E' + 52)%Z as HE' by lia. apply pow2_le in HE'.
    apply Rle_trans with (pow2 (E + 53)); [|apply Rle_trans with (pow2 (E' + 52))];
      [|done|].
    + rewrite pow2_add in *. rewrite (pow2_IZR 53) in * by lia. unfold F2R in *.
      assert (IZR N < IZR (2 ^ 53) + 1) as Hlt by nra.
      rewrite <- plus_IZR in Hlt. apply lt_IZR in Hlt.
      assert (N <= 2 ^ 53)%Z as Hle by lia. apply IZR_le in Hle. nra.
    + rewrite pow2_add in *. rewrite (pow2_IZR 52) in * by lia. unfold F2R in *.
      assert (IZR (2 ^ 52) - 1 < IZR N') as Hlt by nra.
      rewrite <- minus_IZR in Hlt. apply lt_IZR in Hlt.
      assert (2 ^ 52 <= N')%Z as Hle by lia. apply IZR_le in Hle. nra.
Qed.

Lemma rounds_to_unique x y y' : rounds_to x y → rounds_to x y' → y = y'.
Proof.
  intros H H'. apply Rle_antisym; eapply rounds_to_mono; try done; lra.
Qed.

Lemma round_nearest_even_located x m e l :
  located x m e l →
  (m <= round_nearest_even m l <= m + 1)%Z ∧
  F2R m e <= x < F2R m e + pow2 e ∧
  F2R (round_nearest_even m l) e - pow2 e / 2 <= x
    <= F2R (round_nearest_even m l) e + pow2 e / 2 ∧
  (x = F2R (round_nearest_even m l) e - pow2 e / 2 ∨
   x = F2R (round_nearest_even m l) e + pow2 e / 2 →
   Z.even (round_nearest_even m l) = true).
Proof.
  pose proof (pow2_pos e) as HP. unfold F2R.
  destruct l as [|[| |]]; cbn [located round_nearest_even]; unfold F2R; intros H.
  - split_and!; first [lia | lra].
  - destruct (Z.even m) eqn:Hev.
    + split_and!; first [lia | lra | done].
    + rewrite plus_IZR. split_and!; try first [lia | lra].
      intros _. by rewrite Z.add_1_r, Z.even_succ, <- Z.negb_even, Hev.
  - split_and!; first [lia | lra].
  - rewrite plus_IZR. split_and!; first [lia | lra].
Qed.

Lemma fexp_normal e :
  (-1074 <= e - 53)%Z → fexp prec emax e = (e - 53)%Z.
Proof. unfold fexp, SpecFloat.emin, prec, emax. lia. Qed.

Lemma located_rec_of_loc x m e l :
  located x m e l → located_rec x (shr_record_of_loc m l) e.
Proof. unfold located_rec. by destruct l as [|[| |]]. Qed.

Lemma shr_m_of_loc m l : shr_m (shr_record_of_loc m l) = m.
Proof. by destruct l as [|[| |]]. Qed.

(** [binary_round_aux] on a located positive value with at least 53 digits,
    in the range of normal numbers and away from overflow: the result is a
    finite double with a 53-digit mantissa, and it is the value rounded to
    nearest, ties to even. *)
Lemma binary_round_aux_correct x mx ex lx :
  (0 < mx)%Z → located x mx ex lx →
  (53 <= Zdigits2 mx)%Z →
  (-1074 <= Zdigits2 mx + ex - 53)%Z →
  (Zdigits2 mx + ex - 53 < 971)%Z →
  ∃ Mo Eo,
    binary_round_aux prec emax false mx ex lx = S754_finite false Mo Eo ∧
    Zpos (digits2_pos Mo) = 53%Z ∧
    (Zdigits2 mx + ex - 53 <= Eo <= Zdigits2 mx + ex - 52)%Z ∧
    rounds_to x (F2R (Zpos Mo) Eo).
Proof.
  intros Hmx Hloc Hd Hmin Hmax.
  destruct mx as [|pm|pm]; [lia| |lia]. cbn [Zdigits2] in *.
  set (d := Zpos (digits2_pos pm)) in *.
  set (E0 := (d + ex - 53)%Z).
  pose proof (digits2_pos_bounds pm) as [Hb1 Hb2]. fold d in Hb1, Hb2.
  unfold binary_round_aux, shr_fexp. cbn [Zdigits2]. fold d.
  rewrite fexp_normal by lia.
  destruct (shr_located x (shr_record_of_loc (Zpos pm) lx) ex (d + ex - 53 - ex))
    as (mrs' & -> & Hm' & Hl').
  { rewrite shr_m_of_loc. lia. }
  { lia. }
  { by apply located_rec_of_loc. }
  rewrite shr_m_of_loc in Hm'.
  replace (ex + (d + ex - 53 - ex))%Z with E0 in * by (unfold E0; lia).
  replace (d + ex - 53 - ex)%Z with (d - 53)%Z in Hm' by lia.
  set (m' := shr_m mrs') in *.
  assert (2 ^ 52 <= m' < 2 ^ 53)%Z as [Hm1 Hm2].
  { rewrite Hm'. assert (0 < 2 ^ (d - 53))%Z by (apply Z.pow_pos_nonneg; lia). split.
    - apply Z.div_le_lower_bound; [done|].
      rewrite Z.mul_comm, <- Z.pow_add_r by lia.
      replace (52 + (d - 53))%Z with (d - 1)%Z by lia. done.
    - apply Z.div_lt_upper_bound; [done|].
      rewrite <- Z.pow_add_r by lia.
      replace (d - 53 + 53)%Z with d by lia. done. }
  unfold located_rec in Hl'. fold m' in Hl'.
  destruct (round_nearest_even_located x m' E0 _ Hl')
    as ([HN1 HN2] & Hrange & [Hnear1 Hnear2] & Htie).
  set (N := round_nearest_even m' (loc_of_shr_record mrs')) in *.
  assert (rounds_to x (F2R N E0)) as Hround.
  { exists N, E0. split_and!; try done.
    - rewrite pow2_add, (pow2_IZR 52) by lia. unfold F2R in Hrange.
      apply IZR_le in Hm1. pose proof (pow2_pos E0). nra.
    - rewrite pow2_add, (pow2_IZR 53) by lia. unfold F2R in Hrange.
      assert (m' + 1 <= 2 ^ 53)%Z as H1 by lia. apply IZR_le in H1.
      rewrite plus_IZR in H1. pose proof (pow2_pos E0). nra. }
  destruct (Z.eq_dec N (2 ^ 53)%Z) as [HNeq|HNne].
  - (* the rounded mantissa carried into a 54th digit *)
    rewrite HNeq. change (Zdigits2 (2 ^ 53)) with 54%Z.
    rewrite fexp_normal by lia.
    replace (54 + E0 - 53 - E0)%Z with 1%Z by lia.
    change (shr (shr_record_of_loc (2 ^ 53) loc_Exact) E0 1)
      with ({| shr_m := Zpos 4503599627370496; shr_r := false; shr_s := false |},
            (E0 + 1)%Z).
    cbn [shr_m].
    assert ((E0 + 1 <=? emax - prec)%Z = true) as ->
      by (apply Z.leb_le; unfold emax, prec, E0; lia).
    eexists _, _. split_and!; [done|done|unfold E0; lia|unfold E0; lia|].
    replace (F2R (Zpos _) (E0 + 1)) with (F2R N E0); [done|].
    rewrite HNeq. unfold F2R. rewrite pow2_succ.
    change (2 ^ 53)%Z with (2 * 4503599627370496)%Z. rewrite mult_IZR. ring.
  - assert (2 ^ 52 <= N < 2 ^ 53)%Z as HNb by lia.
    destruct N as [|pN|pN] eqn:HN; [lia| |lia].
    pose proof (digits2_pos_unique pN 53 HNb) as HdN.
    cbn [Zdigits2 shr_record_of_loc]. rewrite HdN.
    rewrite fexp_normal by lia.
    replace (53 + E0 - 53 - E0)%Z with 0%Z by lia.
    cbn [shr shr_m].
    assert ((E0 <=? emax - prec)%Z = true) as ->
      by (apply Z.leb_le; unfold emax, prec, E0; lia).
    exists pN, E0. split_and!; [done|done|unfold E0; lia|unfold E0; lia|done].
Qed.

(** The location that the division computes from the remainder. *)
Lemma new_location_located (nb q r e : Z) :
  (0 < nb)%Z → (0 <= r < nb)%Z →
  located ((IZR q + IZR r / IZR nb) * pow2 e) q e (new_location nb r).
Proof.
  intros Hnb [Hr1 Hr2]. pose proof (pow2_pos e) as HP.
  assert (0 < IZR nb) as HnbR by (by apply IZR_lt).
  assert (∃ t, t = IZR r / IZR nb) as [t Hdef] by eauto.
  rewrite <- Hdef.
  assert (IZR r = t * IZR nb) as Ht by (rewrite Hdef; field; lra).
  clear Hdef.
  assert (r ≠ 0%Z → 0 < t) as Htpos.
  { intros Hr0. assert (1 <= r)%Z as H1 by lia. apply IZR_le in H1. nra. }
  unfold new_location.
  destruct (Z.even nb) eqn:Hev; unfold new_location_even, new_location_odd;
    (destruct (Z.eqb_spec r 0) as [Hr0|Hr0];
     [assert (t = 0) as -> by (rewrite Hr0 in Ht; nra);
      cbn [located]; unfold F2R; ring|]);
    specialize (Htpos Hr0).
  - destruct (Z.compare_spec (2 * r) nb) as [Heq|Hlt|Hgt]; cbn [located]; unfold F2R.
    + apply (f_equal IZR) in Heq. rewrite mult_IZR in Heq.
      assert (t = 1 / 2) as -> by nra. lra.
    + apply IZR_lt in Hlt. rewrite mult_IZR in Hlt. split; nra.
    + apply IZR_lt in Hgt, Hr2. rewrite mult_IZR in Hgt. split; nra.
  - assert (2 * r ≠ nb)%Z as Hne.
    { intros <-. by rewrite Z.even_mul in Hev. }
    destruct (Z.compare_spec (2 * r + 1) nb) as [Heq|Hlt|Hgt]; cbn [located]; unfold F2R.
    + assert (2 * r < nb)%Z as Hlt by lia.
      apply IZR_lt in Hlt. rewrite mult_IZR in Hlt. split; nra.
    + assert (2 * r < nb)%Z as Hlt' by lia.
      apply IZR_lt in Hlt'. rewrite mult_IZR in Hlt'. split; nra.
    + assert (nb < 2 * r)%Z as Hgt' by lia.
      apply IZR_lt in Hgt', Hr2. rewrite mult_IZR in Hgt'. split; nra.
Qed.

Lemma digits_between (q : positive) (a b : Z) :
  (0 <= a)%Z → (2 ^ a <= Zpos q < 2 ^ b)%Z →
  (a + 1 <= Zpos (digits2_pos q) <= b)%Z.
Proof.
  intros Ha [H1 H2]. pose proof (digits2_pos_bounds q) as [B1 B2].
  split.
  - destruct (Z_lt_le_dec a (Zpos (digits2_pos q))) as [|Hle]; [lia|].
    assert (2 ^ Zpos (digits2_pos q) <= 2 ^ a)%Z by (apply Z.pow_le_mono_r; lia). lia.
  - destruct (Z_lt_le_dec b (Zpos (digits2_pos q))) as [Hlt|]; [|lia].
    assert (2 ^ b <= 2 ^ (Zpos (digits2_pos q) - 1))%Z
      by (apply Z.pow_le_mono_r; lia). lia.
Qed.

(** A positive normal double: 53 digits and an exponent far from the ends
    of the range. *)
Definition normal (M : positive) (E : Z) : Prop :=
  Zpos (digits2_pos M) = 53%Z ∧ (-400 <= E <= 400)%Z.

Lemma normal_bounds M E : normal M E → (2 ^ 52 <= Zpos M < 2 ^ 53)%Z.
Proof. intros [Hd _]. pose proof (digits2_pos_bounds M). by rewrite Hd in *. Qed.

Lemma F2R_pos M E : 0 < F2R (Zpos M) E.
Proof.
  unfold F2R. apply Rmult_lt_0_compat; [by apply IZR_lt|apply pow2_pos].
Qed.

Lemma SFdiv_correct M1 E1 M2 E2 :
  normal M1 E1 → normal M2 E2 → (-300 <= E1 - E2 <= 300)%Z →
  ∃ Mo Eo,
    SFdiv prec emax (S754_finite false M1 E1) (S754_finite false M2 E2)
    = S754_finite false Mo Eo ∧
    Zpos (digits2_pos Mo) = 53%Z ∧
    (E1 - E2 - 53 <= Eo <= E1 - E2 - 51)%Z ∧
    rounds_to (F2R (Zpos M1) E1 / F2R (Zpos M2) E2) (F2R (Zpos Mo) Eo).
Proof.
  intros HN1 HN2 HE.
  pose proof (normal_bounds _ _ HN1) as [Ha1 Ha2].
  pose proof (normal_bounds _ _ HN2) as [Hb1 Hb2].
  destruct HN1 as [Hd1 HE1], HN2 as [Hd2 HE2].
  unfold SFdiv, SFdiv_core_binary. cbn [Zdigits2 xorb]. rewrite Hd1, Hd2.
  rewrite fexp_normal by lia.
  replace (Z.min (53 + E1 - (53 + E2) - 53) (E1 - E2))%Z with (E1 - E2 - 53)%Z by lia.
  replace (E1 - E2 - (E1 - E2 - 53))%Z with 53%Z by lia.
  rewrite Z.shiftl_mul_pow2 by lia.
  pose proof (Z_div_mod (Zpos M1 * 2 ^ 53) (Zpos M2) eq_refl) as Hdm.
  destruct (Z.div_eucl (Zpos M1 * 2 ^ 53) (Zpos M2)) as [q r].
  destruct Hdm as [Hq Hr].
  assert (2 ^ 52 <= q < 2 ^ 54)%Z as [Hq1 Hq2] by nia.
  destruct q as [|q|q]; [lia| |lia].
  pose proof (digits_between q 52 54 ltac:(lia) (conj Hq1 Hq2)) as Hdq.
  set (x := F2R (Zpos M1) E1 / F2R (Zpos M2) E2).
  assert (x = (IZR (Zpos q) + IZR r / IZR (Zpos M2)) * pow2 (E1 - E2 - 53)) as Hx.
  { unfold x, F2R.
    apply (f_equal IZR) in Hq. rewrite plus_IZR, !mult_IZR in Hq.
    replace E1 with ((E1 - E2 - 53) + 53 + E2)%Z at 1 by lia.
    rewrite !pow2_add, (pow2_IZR 53) by lia.
    pose proof (pow2_pos E2). assert (0 < IZR (Zpos M2)) by (by apply IZR_lt).
    replace (IZR (Zpos q) + IZR r / IZR (Zpos M2))
      with (IZR (Zpos M1) * IZR (2 ^ 53) / IZR (Zpos M2))
      by (rewrite Hq; field; lra).
    field. lra. }
  destruct (binary_round_aux_correct x (Zpos q) (E1 - E2 - 53)
              (new_location (Zpos M2) r)) as (Mo & Eo & Heq & Hdo & HEo & Hro).
  - done.
  - rewrite Hx. by apply new_location_located.
  - cbn [Zdigits2]. lia.
  - cbn [Zdigits2]. lia.
  - cbn [Zdigits2]. lia.
  - exists Mo, Eo. cbn [Zdigits2] in HEo. split_and!; [done|done|lia|lia|done].
Qed.

Lemma SFmul_correct M1 E1 M2 E2 :
  normal M1 E1 → normal M2 E2 → (-300 <= E1 + E2 <= 300)%Z →
  ∃ Mo Eo,
    SFmul prec emax (S754_finite false M1 E1) (S754_finite false M2 E2)
    = S754_finite false Mo Eo ∧
    Zpos (digits2_pos Mo) = 53%Z ∧
    (E1 + E2 + 52 <= Eo <= E1 + E2 + 54)%Z ∧
    rounds_to (F2R (Zpos M1) E1 * F2R (Zpos M2) E2) (F2R (Zpos Mo) Eo).
Proof.
  intros HN1 HN2 HE.
  pose proof (normal_bounds _ _ HN1) as [Ha1 Ha2].
  pose proof (normal_bounds _ _ HN2) as [Hb1 Hb2].
  unfold SFmul. cbn [xorb].
  assert (2 ^ 104 <= Zpos (M1 * M2) < 2 ^ 106)%Z as Hprod.
  { rewrite Pos2Z.inj_mul.
    change (2 ^ 104)%Z with (2 ^ 52 * 2 ^ 52)%Z.
    change (2 ^ 106)%Z with (2 ^ 53 * 2 ^ 53)%Z. nia. }
  pose proof (digits_between (M1 * M2) 104 106 ltac:(lia) Hprod) as Hd.
  destruct (binary_round_aux_correct (F2R (Zpos M1) E1 * F2R (Zpos M2) E2)
              (Zpos (M1 * M2)) (E1 + E2) loc_Exact)
    as (Mo & Eo & Heq & Hdo & HEo & Hro).
  - done.
  - cbn [located]. unfold F2R. rewrite Pos2Z.inj_mul, mult_IZR, pow2_add. ring.
  - cbn [Zdigits2]. lia.
  - cbn [Zdigits2]. lia.
  - cbn [Zdigits2]. lia.
  - exists Mo, Eo. cbn [Zdigits2] in HEo. split_and!; [done|done|lia|lia|done].
Qed.

Lemma Pos_iter_xO (p k : positive) :
  Zpos (Pos.iter xO p k) = (Zpos p * 2 ^ Zpos k)%Z.
Proof.
  induction k as [|k IH] using Pos.peano_ind.
  - cbn [Pos.iter]. lia.
  - rewrite Pos.iter_succ, Pos2Z.inj_succ, Z.pow_succ_r by lia.
    rewrite Pos2Z.inj_xO, IH. ring.
Qed.

(** The double that holds a positive count below [2^63]. *)
Lemma of_count_correct (n : nat) :
  (0 < n)%nat → (Z.of_nat n < 2 ^ 63)%Z →
  ∃ M E,
    Prim2SF (JsNumber.of_count n) = S754_finite false M E ∧
    Zpos (digits2_pos M) = 53%Z ∧ (-52 <= E <= 11)%Z ∧
    rounds_to (IZR (Z.of_nat n)) (F2R (Zpos M) E).
Proof.
  intros Hn0 Hn. unfold JsNumber.of_count.
  rewrite FloatAxioms.of_uint63_spec, Uint63.of_Z_spec.
  rewrite Z.mod_small by (change Uint63.wB with (2 ^ 63)%Z; lia).
  destruct (Z.of_nat n) as [|pn|pn] eqn:Hpn; [lia| |lia].
  cbn [binary_normalize]. unfold binary_round.
  pose proof (digits2_pos_bounds pn) as [Hb1 Hb2].
  set (d := Zpos (digits2_pos pn)) in *.
  assert (1 <= d <= 63)%Z as Hd.
  { split; [unfold d; lia|].
    destruct (Z_lt_le_dec 63 d) as [Hlt|]; [|lia].
    assert (2 ^ 63 <= 2 ^ (d - 1))%Z by (apply Z.pow_le_mono_r; lia). lia. }
  rewrite fexp_normal by lia. unfold shl_align.
  destruct (d + 0 - 53 - 0)%Z as [|k|k] eqn:Hk.
  - destruct (binary_round_aux_correct (IZR (Zpos pn)) (Zpos pn) 0 loc_Exact)
      as (Mo & Eo & Heq & Hdo & HEo & Hro); cbn [Zdigits2]; fold d; try lia.
    { cbn [located]. unfold F2R. rewrite pow2_0. ring. }
    cbn [Zdigits2] in HEo. fold d in HEo.
    exists Mo, Eo. split_and!; [done|done|lia|lia|done].
  - destruct (binary_round_aux_correct (IZR (Zpos pn)) (Zpos pn) 0 loc_Exact)
      as (Mo & Eo & Heq & Hdo & HEo & Hro); cbn [Zdigits2]; fold d; try lia.
    { cbn [located]. unfold F2R. rewrite pow2_0. ring. }
    cbn [Zdigits2] in HEo. fold d in HEo.
    exists Mo, Eo. split_and!; [done|done|lia|lia|done].
  - assert (Zpos k = 53 - d)%Z as Hk' by lia.
    pose proof (Pos_iter_xO pn k) as Hiter. rewrite Hk' in Hiter.
    assert (0 < 2 ^ (53 - d))%Z as Hpow by (apply Z.pow_pos_nonneg; lia).
    assert (Zpos (digits2_pos (Pos.iter xO pn k)) = 53%Z) as Hdig.
    { apply digits2_pos_unique. rewrite Hiter. split.
      - replace (53 - 1)%Z with ((d - 1) + (53 - d))%Z by lia.
        rewrite Z.pow_add_r by lia. nia.
      - replace 53%Z with (d + (53 - d))%Z at 2 by lia.
        rewrite Z.pow_add_r by lia. nia. }
    destruct (binary_round_aux_correct (IZR (Zpos pn)) (Zpos (Pos.iter xO pn k))
                (d + 0 - 53) loc_Exact)
      as (Mo & Eo & Heq & Hdo & HEo & Hro); cbn [Zdigits2]; rewrite ?Hdig; try lia.
    { cbn [located]. rewrite Hiter, F2R_shift by lia.
      replace (d + 0 - 53 + (53 - d))%Z with 0%Z by lia.
      unfold F2R. rewrite pow2_0. ring. }
    cbn [Zdigits2] in HEo. rewrite Hdig in HEo.
    exists Mo, Eo. split_and!; [done|done|lia|lia|done].
Qed.

Lemma of_count_zero : Prim2SF (JsNumber.of_count 0) = S754_zero false.
Proof. done. Qed.

(** [Math_round] of a finite double is the floor of its value plus one half. *)
Lemma Math_round_floor f s M E :
  Prim2SF f = S754_finite s M E →
  let v := if s then Zneg M else Zpos M in
  IZR (JsNumber.Math_round f) <= F2R v E + 1 / 2 < IZR (JsNumber.Math_round f) + 1.
Proof.
  intros Hf v. unfold JsNumber.Math_round. rewrite Hf. fold v.
  destruct (Z.leb_spec 0 E) as [HE|HE].
  - unfold F2R. rewrite pow2_IZR, <- mult_IZR by done.
    generalize (IZR (v * 2 ^ E)). intros z. split; lra.
  - set (K := (2 ^ (- E))%Z).
    assert (0 < K)%Z as HK by (apply Z.pow_pos_nonneg; lia).
    replace (2 ^ (1 - E))%Z with (2 * K)%Z
      by (unfold K; rewrite <- Z.pow_succ_r by lia; f_equal; lia).
    pose proof (Z.div_mod (2 * v + K) (2 * K) ltac:(lia)) as Hdm.
    pose proof (Z.mod_pos_bound (2 * v + K) (2 * K) ltac:(lia)) as [Hr1 Hr2].
    set (q := ((2 * v + K) / (2 * K))%Z) in *.
    set (r := ((2 * v + K) mod (2 * K))%Z) in *.
    assert (IZR K * pow2 E = 1) as HKP.
    { unfold K. rewrite <- pow2_IZR, <- pow2_add by lia.
      replace (- E + E)%Z with 0%Z by lia. apply pow2_0. }
    apply (f_equal IZR) in Hdm. rewrite !plus_IZR, !mult_IZR in Hdm.
    apply IZR_le in Hr1. apply IZR_lt in Hr2. rewrite mult_IZR in Hr2.
    apply IZR_lt in HK. pose proof (pow2_pos E) as HP.
    unfold F2R.
    assert (IZR v * pow2 E + 1 / 2 = (2 * IZR v + IZR K) * pow2 E / 2) as -> by nra.
    rewrite Hdm.
    replace ((2 * IZR K * IZR q + IZR r) * pow2 E / 2)
      with (IZR q * (IZR K * pow2 E) + IZR r * pow2 E / 2) by field.
    rewrite HKP.
    assert (0 <= IZR r * pow2 E) by nra.
    assert (IZR r * pow2 E < 2) by nra.
    split; lra.
Qed.

Lemma Math_round_mono f M E f' M' E' :
  Prim2SF f = S754_finite false M E →
  Prim2SF f' = S754_finite false M' E' →
  F2R (Zpos M) E <= F2R (Zpos M') E' →
  (JsNumber.Math_round f <= JsNumber.Math_round f')%Z.
Proof.
  intros Hf Hf' Hle.
  pose proof (Math_round_floor f false M E Hf) as [H1 H2].
  pose proof (Math_round_floor f' false M' E' Hf') as [H1' H2'].
  cbn zeta in *.
  assert (IZR (JsNumber.Math_round f) < IZR (JsNumber.Math_round f') + 1) as Hlt by lra.
  rewrite <- plus_IZR in Hlt. apply lt_IZR in Hlt. lia.
Qed.

Lemma Math_round_nonneg f M E :
  Prim2SF f = S754_finite false M E → (0 <= JsNumber.Math_round f)%Z.
Proof.
  intros Hf. pose proof (Math_round_floor f false M E Hf) as [H1 H2].
  cbn zeta in *. pose proof (F2R_pos M E).
  assert (IZR 0 < IZR (JsNumber.Math_round f) + 1) as Hlt by lra.
  rewrite <- plus_IZR in Hlt. apply lt_IZR in Hlt. lia.
Qed.

Lemma Prim2SF_hundred :
  Prim2SF JsNumber.hundred = S754_finite false 7036874417766400 (-46).
Proof. done. Qed.

Lemma normal_hundred : normal 7036874417766400 (-46).
Proof. split; [done|lia]. Qed.

Lemma F2R_hundred : F2R 7036874417766400 (-46) = 100.
Proof.
  unfold F2R.
  assert (IZR (2 ^ 46) * pow2 (-46) = 1) as H.
  { rewrite <- pow2_IZR, <- pow2_add by lia. apply pow2_0. }
  change 7036874417766400%Z with (100 * 2 ^ 46)%Z. rewrite mult_IZR. nra.
Qed.

(** [percent] is monotone in the number of completed questions. *)
Lemma percent_mono (c c' t : nat) :
  (c <= c')%nat → (0 < t)%nat →
  (Z.of_nat c' < 2 ^ 63)%Z → (Z.of_nat t < 2 ^ 63)%Z →
  (JsNumber.percent c t <= JsNumber.percent c' t)%Z.
Proof.
  intros Hle Ht Hc' Ht'.
  destruct (of_count_correct t Ht Ht') as (Mt & Et & Hft & Hdt & HEt & Hrt).
  assert (∀ k, (0 < k)%nat → (Z.of_nat k < 2 ^ 63)%Z →
            ∃ Mk Ek yk M E,
              rounds_to (IZR (Z.of_nat k)) (F2R (Zpos Mk) Ek) ∧
              rounds_to (F2R (Zpos Mk) Ek / F2R (Zpos Mt) Et) yk ∧
              rounds_to (yk * 100) (F2R (Zpos M) E) ∧
              Prim2SF (PrimFloat.mul
                         (PrimFloat.div (JsNumber.of_count k) (JsNumber.of_count t))
                         JsNumber.hundred) = S754_finite false M E) as Hchain.
  { intros k Hk Hk'.
    destruct (of_count_correct k Hk Hk') as (Mk & Ek & Hfk & Hdk & HEk & Hrk).
    destruct (SFdiv_correct Mk Ek Mt Et) as (Md & Ed & Hdiv & Hdd & HEd & Hrd);
      [split; [done|lia]..|lia|].
    destruct (SFmul_correct Md Ed 7036874417766400 (-46))
      as (Mo & Eo & Hmul & Hdo & HEo & Hro);
      [split; [done|lia]|apply normal_hundred|lia|].
    exists Mk, Ek, (F2R (Zpos Md) Ed), Mo, Eo. split_and!; [done|done| |].
    - by rewrite <- F2R_hundred.
    - rewrite FloatAxioms.mul_spec, FloatAxioms.div_spec, Hfk, Hft, Prim2SF_hundred.
      unfold FloatAxioms.SF64mul, FloatAxioms.SF64div. by rewrite Hdiv. }
  assert (∀ k, (0 < k)%nat → (Z.of_nat k < 2 ^ 63)%Z → (0 <= JsNumber.percent k t)%Z)
    as Hnonneg.
  { intros k Hk Hk'. destruct (Hchain k Hk Hk') as (? & ? & ? & M & E & _ & _ & _ & Hf).
    unfold JsNumber.percent. by eapply Math_round_nonneg. }
  destruct c as [|c].
  - assert (JsNumber.percent 0 t = 0%Z) as ->.
    { unfold JsNumber.percent, JsNumber.Math_round.
      rewrite FloatAxioms.mul_spec, FloatAxioms.div_spec, of_count_zero, Hft,
        Prim2SF_hundred. done. }
    destruct c' as [|c']; [|apply Hnonneg; lia].
    unfold JsNumber.percent, JsNumber.Math_round.
    rewrite FloatAxioms.mul_spec, FloatAxioms.div_spec, of_count_zero, Hft,
      Prim2SF_hundred. done.
  - destruct (Hchain (S c)) as (Mc & Ec & yc & M & E & R1 & R2 & R3 & Hf); [lia..|].
    destruct (Hchain c') as (Mc' & Ec' & yc' & M' & E' & R1' & R2' & R3' & Hf');
      [lia..|].
    unfold JsNumber.percent. eapply Math_round_mono; [done..|].
    pose proof (F2R_pos Mt Et) as Hpos.
    assert (F2R (Zpos Mc) Ec <= F2R (Zpos Mc') Ec') as H1.
    { eapply rounds_to_mono; [done..|]. apply IZR_le. lia. }
    assert (yc <= yc') as H2.
    { eapply rounds_to_mono; [done..|].
      apply Rmult_le_compat_r; [|done]. apply Rlt_le. by apply Rinv_0_lt_compat. }
    eapply rounds_to_mono; [done..|]. lra.
Qed.

(** A value that is itself a 53-digit double rounds to itself. *)
Lemma rounds_to_exact (N E : Z) :
  (2 ^ 52 <= N < 2 ^ 53)%Z → rounds_to (F2R N E) (F2R N E).
Proof.
  intros [H1 H2]. pose proof (pow2_pos E) as HP.
  apply IZR_le in H1. apply IZR_lt in H2.
  exists N, E. unfold F2R. split_and!; [done| | | | |].
  - rewrite pow2_add, (pow2_IZR 52) by lia. nra.
  - rewrite pow2_add, (pow2_IZR 53) by lia. nra.
  - lra.
  - lra.
  - intros [?|?]; lra.
Qed.

Lemma rounds_to_one y : rounds_to 1 y → y = 1.
Proof.
  intros H. apply (rounds_to_unique 1); [done|].
  assert (F2R (2 ^ 52) (-52) = 1) as Heq.
  { unfold F2R. rewrite <- pow2_IZR, <- pow2_add by lia. apply pow2_0. }
  rewrite <- Heq. apply rounds_to_exact. lia.
Qed.

Lemma rounds_to_hundred y : rounds_to 100 y → y = 100.
Proof.
  intros H. apply (rounds_to_unique 100); [done|].
  rewrite <- F2R_hundred. apply rounds_to_exact. lia.
Qed.

(** The double [(k / t) * 100] for positive counts below [2^63]: finite,
    positive, and reached from the exact counts by four roundings. *)
Lemma percent_float (k t : nat) :
  (0 < k)%nat → (0 < t)%nat → (Z.of_nat k < 2 ^ 63)%Z → (Z.of_nat t < 2 ^ 63)%Z →
  ∃ yk yt yd M E,
    rounds_to (IZR (Z.of_nat k)) yk ∧ rounds_to (IZR (Z.of_nat t)) yt ∧ 0 < yt ∧
    rounds_to (yk / yt) yd ∧
    rounds_to (yd * 100) (F2R (Zpos M) E) ∧
    Prim2SF (PrimFloat.mul
               (PrimFloat.div (JsNumber.of_count k) (JsNumber.of_count t))
               JsNumber.hundred) = S754_finite false M E.
Proof.
  intros Hk Ht Hk' Ht'.
  destruct (of_count_correct t Ht Ht') as (Mt & Et & Hft & Hdt & HEt & Hrt).
  destruct (of_count_correct k Hk Hk') as (Mk & Ek & Hfk & Hdk & HEk & Hrk).
  destruct (SFdiv_correct Mk Ek Mt Et) as (Md & Ed & Hdiv & Hdd & HEd & Hrd);
    [split; [done|lia]..|lia|].
  destruct (SFmul_correct Md Ed 7036874417766400 (-46))
    as (Mo & Eo & Hmul & Hdo & HEo & Hro);
    [split; [done|lia]|apply normal_hundred|lia|].
  exists (F2R (Zpos Mk) Ek), (F2R (Zpos Mt) Et), (F2R (Zpos Md) Ed), Mo, Eo.
  split_and!; [done|done|apply F2R_pos|done| |].
  - by rewrite <- F2R_hundred.
  - rewrite FloatAxioms.mul_spec, FloatAxioms.div_spec, Hfk, Hft, Prim2SF_hundred.
    unfold FloatAxioms.SF64mul, FloatAxioms.SF64div. by rewrite Hdiv.
Qed.

(** No question completed: 0. *)
Lemma percent_none (t : nat) :
  (0 < t)%nat → (Z.of_nat t < 2 ^ 63)%Z → JsNumber.percent 0 t = 0%Z.
Proof.
  intros Ht Ht'.
  destruct (of_count_correct t Ht Ht') as (Mt & Et & Hft & _).
  unfold JsNumber.percent, JsNumber.Math_round.
  rewrite FloatAxioms.mul_spec, FloatAxioms.div_spec, of_count_zero, Hft,
    Prim2SF_hundred. done.
Qed.

(** Every question completed: 100. *)
Lemma percent_all (t : nat) :
  (0 < t)%nat → (Z.of_nat t < 2 ^ 63)%Z → JsNumber.percent t t = 100%Z.
Proof.
  intros Ht Ht'.
  destruct (percent_float t t Ht Ht Ht' Ht')
    as (yk & yt & yd & M & E & Rk & Rt & Hpos & Rd & Rm & Hf).
  assert (yk = yt) as -> by (by eapply rounds_to_unique).
  replace (yt / yt) with 1 in Rd by (field; lra).
  apply rounds_to_one in Rd as ->.
  replace (1 * 100) with 100 in Rm by ring.
  apply rounds_to_hundred in Rm.
  pose proof (Math_round_floor _ false M E Hf) as [H1 H2]. cbn zeta in *.
  rewrite Rm in H1, H2. unfold JsNumber.percent.
  assert (IZR (JsNumber.Math_round
                 (PrimFloat.mul (PrimFloat.div (JsNumber.of_count t) (JsNumber.of_count t))
                    JsNumber.hundred)) < IZR 101) as Hlt by lra.
  assert (IZR 99 < IZR (JsNumber.Math_round
                 (PrimFloat.mul (PrimFloat.div (JsNumber.of_count t) (JsNumber.of_count t))
                    JsNumber.hundred))) as Hgt by lra.
  apply lt_IZR in Hlt, Hgt. lia.
Qed.

(** The percentage of [c] out of [t] is between 0 and 100. *)
Lemma percent_range (c t : nat) :
  (c <= t)%nat → (0 < t)%nat → (Z.of_nat t < 2 ^ 63)%Z →
  (0 <= JsNumber.percent c t <= 100)%Z.
Proof.
  intros Hc Ht Ht'. split.
  - rewrite <- (percent_none t Ht Ht'). apply percent_mono; lia.
  - rewrite <- (percent_all t Ht Ht'). apply percent_mono; lia.
Qed.

End Rounding.

(** ** More questions completed, same totals *)

(** [q2] is [q1], possibly completed since. *)
Definition question_le (q1 q2 : Question) : Prop :=
  q_id q1 = q_id q2 ∧ (q_completed q1 = true → q_completed q2 = true).

Definition sub_le (s1 s2 : SubExercise) : Prop :=
  sub_id s1 = sub_id s2 ∧ sub_name s1 = sub_name s2 ∧
  Forall2 question_le (sub_questions s1) (sub_questions s2).

Definition section_le (s1 s2 : Section) : Prop :=
  sec_id s1 = sec_id s2 ∧ sec_label s1 = sec_label s2 ∧ sec_type s1 = sec_type s2 ∧
  option_Forall2 (Forall2 question_le) (sec_questions s1) (sec_questions s2) ∧
  option_Forall2 (map_Forall2 (λ _, sub_le))
    (sec_subExercises s1) (sec_subExercises s2).

(** The two chapters are the same but for questions that are incomplete in the
    first and completed in the second. *)
Definition chapter_le (c1 c2 : Chapter) : Prop :=
  ch_id c1 = ch_id c2 ∧ ch_name c1 = ch_name c2 ∧
  map_Forall2 (λ _, section_le) (ch_sections c1) (ch_sections c2).

(** Same total, no fewer completed. *)
Definition counters_le (a b : counters) : Prop := a.1 = b.1 ∧ (a.2 ≤ b.2)%nat.

Lemma counters_le_plus a b a' b' :
  counters_le a b → counters_le a' b' →
  counters_le (plus_counters a a') (plus_counters b b').
Proof. unfold counters_le, plus_counters. cbn. lia. Qed.

Lemma counts_of_le qs1 qs2 :
  Forall2 question_le qs1 qs2 → counters_le (counts_of qs1) (counts_of qs2).
Proof.
  induction 1 as [|q1 q2 l1 l2 [_ Hq] _ IH]; [done|].
  unfold counters_le, counts_of in *. cbn [fst snd length] in *.
  rewrite !filter_cons. destruct IH as [IH1 IH2].
  destruct (decide (q_completed q1 = true)) as [H1|H1].
  - rewrite decide_True by auto. cbn. lia.
  - destruct (decide (q_completed q2 = true)); cbn; lia.
Qed.

(** The counts of the questions found in the values of a map. *)
Definition map_counts {V} (f : V → list Question) (m : gmap string V) : counters :=
  map_fold (λ _ v acc, tally (f v) acc) (0, 0)%nat m.

Lemma map_counts_insert {V} (f : V → list Question) (m : gmap string V) k v :
  m !! k = None →
  map_counts f (<[k := v]> m) = plus_counters (map_counts f m) (counts_of (f v)).
Proof.
  intros Hk. unfold map_counts. rewrite map_fold_insert_L; [done| |done].
  intros j1 j2 z1 z2 y _ _ _. rewrite !tally_counts, !plus_counters_assoc.
  f_equal. apply plus_counters_comm.
Qed.

Lemma map_counts_le {V} (R : V → V → Prop) (f : V → list Question)
    (m1 m2 : gmap string V) :
  (∀ x y, R x y → counters_le (counts_of (f x)) (counts_of (f y))) →
  map_Forall2 (λ _, R) m1 m2 → counters_le (map_counts f m1) (map_counts f m2).
Proof.
  intros Hf. revert m2.
  induction m1 as [|k v m1 Hk IH] using map_ind; intros m2 Hm.
  - apply map_Forall2_empty_inv_l in Hm as ->. split; [done|lia].
  - apply map_Forall2_insert_inv_l in Hm as (v2 & m2' & -> & Hk2 & HR & Hm); [|done].
    rewrite !map_counts_insert by done.
    apply counters_le_plus; [by apply IH|by apply Hf].
Qed.

Lemma map_counts_flat {V} (f : V → list Question) (m : gmap string V) :
  map_counts f m = counts_of (kv ← map_to_list m; f kv.2).
Proof.
  unfold map_counts. rewrite map_fold_foldr.
  rewrite (foldr_tally _ (λ kv : string * V, f kv.2)); [|by intros [??] ?].
  by rewrite plus_counters_comm, plus_counters_zero.
Qed.

Lemma section_questions_le s1 s2 :
  section_le s1 s2 →
  counters_le (counts_of (section_questions s1)) (counts_of (section_questions s2)).
Proof.
  intros (_ & _ & Hty & Hqs & Hsubs). unfold section_questions. rewrite <- Hty.
  assert (counters_le (counts_of (default [] (sec_questions s1)))
            (counts_of (default [] (sec_questions s2)))) as Hdirect.
  { destruct Hqs; [by apply counts_of_le|done]. }
  destruct (sec_type s1) as [ty|]; [|done].
  destruct Hsubs as [subs1 subs2 Hsubs|]; [|done].
  destruct (decide (ty = "exercise")); [|done].
  rewrite <- !(map_counts_flat sub_questions).
  apply (map_counts_le sub_le); [|done].
  intros x y (_ & _ & Hxy). by apply counts_of_le.
Qed.

Lemma chapter_questions_le c1 c2 :
  chapter_le c1 c2 →
  counters_le (counts_of (chapter_questions c1)) (counts_of (chapter_questions c2)).
Proof.
  intros (_ & _ & Hsecs). unfold chapter_questions.
  rewrite <- !(map_counts_flat section_questions).
  apply (map_counts_le section_le); [|done]. apply section_questions_le.
Qed.

Lemma filter_length_le {A} (P : A → Prop) `{∀ x, Decision (P x)} (l : list A) :
  (length (filter P l) ≤ length l)%nat.
Proof. apply length_filter. Qed.

(** C8.  When the second chapter is the first with more questions completed
    (same sections, same lists, same ids), its progress is at least that of the
    first.  The number of questions is a count that a Number holds exactly. *)
Theorem calculateProgress_monotone c1 c2 :
  chapter_le c1 c2 →
  Z.of_nat (length (chapter_questions c2)) < 2 ^ 53 →
  calculateProgress c1 ≤ calculateProgress c2.
Proof.
  intros Hle Hbound. destruct (chapter_questions_le c1 c2 Hle) as [Htot Hdone].
  unfold counts_of in Htot, Hdone. cbn [fst snd] in Htot, Hdone.
  rewrite !calculateProgress_counts. cbn zeta. rewrite Htot.
  destruct (decide (length (chapter_questions c2) = 0%nat)) as [|Hne]; [done|].
  apply Rounding.percent_mono; [done|lia| |lia].
  pose proof (filter_length_le (λ q, q_completed q = true) (chapter_questions c2)).
  lia.
Qed.

Lemma calculateProgress_monotone_witness :
  calculateProgress (chapter_done 1 3) ≤ calculateProgress (chapter_done 2 3).
Proof.
  apply (calculateProgress_monotone (chapter_done 1 3) (chapter_done 2 3)).
  - split_and!; [done..|]. apply map_Forall2_singleton.
    split_and!; [done..| |constructor].
    constructor. repeat constructor; done.
  - vm_compute. done.
Defined.

(** ** The range of the progress value *)

(** Whatever the chapter holds, the percentage is an integer from 0 to 100
    (the number of questions being a count that a Number holds exactly). *)
Theorem calculateProgress_range c :
  Z.of_nat (length (chapter_questions c)) < 2 ^ 53 →
  0 ≤ calculateProgress c ≤ 100.
Proof.
  intros Hbound. rewrite calculateProgress_counts. cbn zeta.
  destruct (decide (length (chapter_questions c) = 0%nat)) as [|Hne]; [lia|].
  apply Rounding.percent_range; [apply length_filter|lia|lia].
Qed.

Lemma calculateProgress_range_witness :
  0 ≤ calculateProgress (chapter_done 23 40) ≤ 100.
Proof.
  apply (calculateProgress_range (chapter_done 23 40)). vm_compute. done.
Defined.

Lemma filter_all_length {A} (P : A → Prop) `{∀ x, Decision (P x)} (l : list A) :
  Forall P l → filter P l = l.
Proof. intros Hall. apply filter_all. by apply Forall_forall. Qed.

Lemma filter_none {A} (P : A → Prop) `{∀ x, Decision (P x)} (l : list A) :
  Forall (λ x, ¬ P x) l → filter P l = [].
Proof.
  induction 1 as [|x l Hx _ IH]; [done|]. by rewrite filter_cons, decide_False.
Qed.

(** A chapter with at least one question, all of them completed, is at 100;
    rounding never makes a finished chapter fall short. *)
Theorem calculateProgress_all_completed c :
  chapter_questions c ≠ [] →
  Forall (λ q, q_completed q = true) (chapter_questions c) →
  Z.of_nat (length (chapter_questions c)) < 2 ^ 53 →
  calculateProgress c = 100.
Proof.
  intros Hne Hall Hbound. rewrite calculateProgress_counts. cbn zeta.
  rewrite filter_all_length by done.
  destruct (decide (length (chapter_questions c) = 0%nat)) as [H0|_].
  - by apply nil_length_inv in H0.
  - apply Rounding.percent_all; [|lia].
    destruct (chapter_questions c); [done|cbn; lia].
Qed.

Lemma calculateProgress_all_completed_witness :
  calculateProgress (chapter_done 7 7) = 100.
Proof.
  apply (calculateProgress_all_completed (chapter_done 7 7)).
  - vm_compute. discriminate.
  - vm_compute. repeat constructor.
  - vm_compute. done.
Defined.

(** A chapter none of whose questions is completed is at 0. *)
Theorem calculateProgress_none_completed c :
  Forall (λ q, q_completed q ≠ true) (chapter_questions c) →
  Z.of_nat (length (chapter_questions c)) < 2 ^ 53 →
  calculateProgress c = 0.
Proof.
  intros Hnone Hbound. rewrite calculateProgress_counts. cbn zeta.
  rewrite filter_none by done.
  destruct (decide (length (chapter_questions c) = 0%nat)) as [|Hne]; [done|].
  apply Rounding.percent_none; lia.
Qed.

Lemma calculateProgress_none_completed_witness :
  calculateProgress (chapter_done 0 9) = 0.
Proof.
  apply (calculateProgress_none_completed (chapter_done 0 9)).
  - vm_compute. repeat constructor; discriminate.
  - vm_compute. done.
Defined.

(** ** What a mutation leaves alone *)

Definition every_chapter (P : Chapter → Prop) (t : Tree) : Prop :=
  ∀ s c, s ∈ t → c ∈ subj_chapters s → P c.

(** The cached [progress] field holds what [calculateProgress] gives. *)
Definition cache_fresh (c : Chapter) : Prop := ch_progress c = calculateProgress c.

(** The chapter that a callback addresses, for the four callbacks built on
    the shared frame. *)
Definition addressed (op : mutation) : option (string * string) :=
  match op with
  | ToggleQuestion sId cId _ _ _ => Some (sId, cId)
  | GenQuestions sId cId _ _ => Some (sId, cId)
  | AddGenericSection sId cId _ => Some (sId, cId)
  | AddSubExercise sId cId _ _ _ => Some (sId, cId)
  | _ => None
  end.

(** Ids and names of subjects and chapters, in order. *)
Definition outline (t : Tree) : list (string * string * list (string * string)) :=
  map (λ s, (subj_id s, subj_name s,
             map (λ c, (ch_id c, ch_name c)) (subj_chapters s))) t.

Lemma cache_fresh_with_sections c secs : cache_fresh (with_sections c secs).
Proof. unfold cache_fresh. by apply calculateProgress_sections. Qed.

(** Each inner callback returns its chapter with new sections and the
    progress recomputed on them: id and name are kept. *)
Lemma toggleQuestion_chapter_shape secId qId subExId c n c' n' :
  toggleQuestion_chapter secId qId subExId c n = Return (c', n') →
  ∃ sec, c' = with_sections c (<[secId := sec]> (ch_sections c)).
Proof.
  unfold toggleQuestion_chapter. intros H.
  destruct (ch_sections c !! secId) as [sec|]; [|by destruct (truthy subExId)].
  destruct (truthy subExId) as [sx|].
  - destruct (sec_subExercises sec) as [subs|]; [|done].
    destruct (subs !! sx) as [sub|]; [|done].
    injection H as <- _. by eexists.
  - destruct (sec_questions sec) as [qs|]; [|done].
    injection H as <- _. by eexists.
Qed.

Lemma genQuestions_chapter_shape secId count c n c' n' :
  genQuestions_chapter secId count c n = Return (c', n') →
  ∃ sec, c' = with_sections c (<[secId := sec]> (ch_sections c)).
Proof. intros H. apply genQuestions_chapter_inv in H as (-> & _ & _). by eexists. Qed.

Lemma addGenericSection_chapter_shape randomUUID label c n c' n' :
  addGenericSection_chapter randomUUID label c n = Return (c', n') →
  ∃ sec, c' = with_sections c (<[randomUUID n := sec]> (ch_sections c)).
Proof. intros H. injection H as <- _. by eexists. Qed.

Lemma addSubExercise_chapter_shape randomUUID secId name qCount c n c' n' :
  addSubExercise_chapter randomUUID secId name qCount c n = Return (c', n') →
  ∃ sec, c' = with_sections c (<[secId := sec]> (ch_sections c)).
Proof.
  intros H. apply addSubExercise_chapter_inv in H as (sec & _ & _ & _ & ->).
  by eexists.
Qed.

(** A body of the frame that only replaces the sections. *)
Definition replaces_sections (body : Chapter → M Chapter) : Prop :=
  ∀ c n c' n', body c n = Return (c', n') → ∃ secs, c' = with_sections c secs.

Lemma find_Forall2 {A} (key : A → string) (R : A → A → Prop) (l l' : list A) k :
  Forall2 R l l' → (∀ a b, R a b → key b = key a) →
  option_Forall2 (λ a b, R a b ∧ key a = k)
    (find (λ a, bool_decide (key a = k)) l)
    (find (λ a, bool_decide (key a = k)) l').
Proof.
  intros HR Hkey. induction HR as [|a b l l' Hab _ IH]; [constructor|].
  cbn [find]. rewrite (Hkey a b Hab).
  destruct (bool_decide_reflect (key a = k)); [by constructor|done].
Qed.

(** How the frame relates the chapters of a subject before and after. *)
Definition chapter_step (cId : string) (body : Chapter → M Chapter)
    (c c' : Chapter) : Prop :=
  if decide (ch_id c ≠ cId) then c' = c else ∃ m m', body c m = Return (c', m').

Definition subject_step (sId cId : string) (body : Chapter → M Chapter)
    (s s' : Subject) : Prop :=
  if decide (subj_id s ≠ sId) then s' = s
  else subj_id s' = subj_id s ∧ subj_name s' = subj_name s ∧
       Forall2 (chapter_step cId body) (subj_chapters s) (subj_chapters s').

Lemma update_chapter_steps sId cId body subjects n t' n' :
  update_chapter sId cId body subjects n = Return (t', n') →
  Forall2 (subject_step sId cId body) subjects t'.
Proof.
  intros H. apply mapM_Return_inv in H.
  eapply Forall2_impl; [exact H|]. clear. intros s s' (m & m' & Hf).
  unfold subject_step. destruct (decide (subj_id s ≠ sId)).
  { by injection Hf as <- _. }
  rewrite M_bind_eq in Hf.
  destruct (@mapM M _ _ _ _ _ (subj_chapters s) m) as [[chapters m1]|] eqn:Hch;
    [|done].
  injection Hf as <- _. split_and!; [done..|]. cbn.
  apply mapM_Return_inv in Hch.
  eapply Forall2_impl; [exact Hch|]. clear. intros c c' (m & m' & Hg).
  unfold chapter_step. destruct (decide (ch_id c ≠ cId)); [|eauto].
  by injection Hg as <- _.
Qed.

Lemma chapter_step_id cId body c c' :
  replaces_sections body → chapter_step cId body c c' →
  ch_id c' = ch_id c ∧ ch_name c' = ch_name c.
Proof.
  intros Hbody. unfold chapter_step.
  destruct (decide (ch_id c ≠ cId)); [by intros ->|].
  intros (m & m' & Hb). by destruct (Hbody _ _ _ _ Hb) as [secs ->].
Qed.

Lemma subject_step_id sId cId body s s' :
  subject_step sId cId body s s' → subj_id s' = subj_id s.
Proof.
  unfold subject_step. destruct (decide (subj_id s ≠ sId)); [by intros ->|].
  by intros [? _].
Qed.

(** The chapter found under the addressed ids afterwards is what the body
    returned for the one found before. *)
Lemma update_chapter_find sId cId body subjects n t' n' :
  replaces_sections body →
  update_chapter sId cId body subjects n = Return (t', n') →
  option_Forall2 (λ c c', ∃ m m', body c m = Return (c', m'))
    (find_chapter subjects sId cId) (find_chapter t' sId cId).
Proof.
  intros Hbody H. apply update_chapter_steps in H. unfold find_chapter.
  destruct (find_Forall2 subj_id _ _ _ sId H (subject_step_id sId cId body))
    as [s s' [Hstep Hid]|]; [|constructor]. cbn.
  unfold subject_step in Hstep. rewrite decide_False in Hstep by auto.
  destruct Hstep as (_ & _ & Hch).
  destruct (find_Forall2 ch_id _ _ _ cId Hch
              (λ a b Hab, proj1 (chapter_step_id cId body a b Hbody Hab)))
    as [c c' [Hc Hcid]|]; [|constructor].
  constructor. unfold chapter_step in Hc. by rewrite decide_False in Hc by auto.
Qed.

(** Every other address finds what it found before. *)
Lemma update_chapter_frame sId cId body subjects n t' n' sId' cId' :
  replaces_sections body →
  update_chapter sId cId body subjects n = Return (t', n') →
  (sId', cId') ≠ (sId, cId) →
  find_chapter t' sId' cId' = find_chapter subjects sId' cId'.
Proof.
  intros Hbody H Hne. apply update_chapter_steps in H. unfold find_chapter.
  destruct (find_Forall2 subj_id _ _ _ sId' H (subject_step_id sId cId body))
    as [s s' [Hstep Hid]|]; [|done]. cbn.
  unfold subject_step in Hstep.
  destruct (decide (subj_id s ≠ sId)) as [|Heq]; [by rewrite Hstep|].
  apply dec_stable in Heq. destruct Hstep as (_ & _ & Hch).
  assert (cId' ≠ cId) as Hc by congruence.
  destruct (find_Forall2 ch_id _ _ _ cId' Hch
              (λ a b Hab, proj1 (chapter_step_id cId body a b Hbody Hab)))
    as [c c' [Hstep Hcid]|]; [|done].
  unfold chapter_step in Hstep. rewrite decide_True in Hstep by congruence.
  by rewrite Hstep.
Qed.

Lemma update_chapter_outline sId cId body subjects n t' n' :
  replaces_sections body →
  update_chapter sId cId body subjects n = Return (t', n') →
  outline t' = outline subjects.
Proof.
  intros Hbody H. apply update_chapter_steps in H. unfold outline.
  induction H as [|s s' l l' Hstep _ IH]; [done|]. cbn [map]. rewrite IH.
  f_equal. unfold subject_step in Hstep.
  destruct (decide (subj_id s ≠ sId)); [by rewrite Hstep|].
  destruct Hstep as (-> & -> & Hch). f_equal.
  induction Hch as [|c c' k k' Hc _ IHc]; [done|]. cbn [map]. rewrite IHc.
  by destruct (chapter_step_id cId body c c' Hbody Hc) as [-> ->].
Qed.

Lemma update_chapter_cache sId cId body subjects n t' n' :
  replaces_sections body →
  update_chapter sId cId body subjects n = Return (t', n') →
  every_chapter cache_fresh subjects → every_chapter cache_fresh t'.
Proof.
  intros Hbody H Hall. apply update_chapter_steps in H.
  intros s' c' Hs' Hc'.
  apply list_elem_of_lookup in Hs' as [i Hi].
  destruct (Forall2_lookup_r _ _ _ _ _ H Hi) as (s & Hs & Hstep).
  apply list_elem_of_lookup_2 in Hs. unfold subject_step in Hstep.
  destruct (decide (subj_id s ≠ sId)); [subst s'; by apply (Hall s)|].
  destruct Hstep as (_ & _ & Hch).
  apply list_elem_of_lookup in Hc' as [j Hj].
  destruct (Forall2_lookup_r _ _ _ _ _ Hch Hj) as (c & Hc & Hcstep).
  apply list_elem_of_lookup_2 in Hc. unfold chapter_step in Hcstep.
  destruct (decide (ch_id c ≠ cId)); [subst c'; by apply (Hall s)|].
  destruct Hcstep as (m & m' & Hb). destruct (Hbody _ _ _ _ Hb) as [secs ->].
  apply cache_fresh_with_sections.
Qed.

(** The four callbacks built on the frame, seen through [new_tree]. *)
Lemma new_tree_addressed randomUUID op sId cId t n t' n' :
  addressed op = Some (sId, cId) →
  new_tree randomUUID op t n = Return (Some t', n') →
  ∃ body, replaces_sections body ∧
          update_chapter sId cId body t n = Return (t', n').
Proof.
  intros Ha H.
  destruct op; cbn in Ha; try done; injection Ha as <- <-;
    cbn in H; unfold saved in H; rewrite M_bind_eq in H.
  - destruct (toggleQuestion t sId0 cId0 secId qId subExId n) as [[t1 n1]|] eqn:Hop;
      [|done].
    injection H as <- <-. eexists. split; [|exact Hop].
    intros c m c' m' Hb. apply toggleQuestion_chapter_shape in Hb as [sec ->]. eauto.
  - destruct (genQuestions t sId0 cId0 secId count n) as [[t1 n1]|] eqn:Hop; [|done].
    injection H as <- <-. eexists. split; [|exact Hop].
    intros c m c' m' Hb. apply genQuestions_chapter_shape in Hb as [sec ->]. eauto.
  - destruct (addGenericSection randomUUID t sId0 cId0 label n) as [[t1 n1]|] eqn:Hop;
      [|done].
    injection H as <- <-. eexists. split; [|exact Hop].
    intros c m c' m' Hb. apply addGenericSection_chapter_shape in Hb as [sec ->]. eauto.
  - destruct (addSubExercise randomUUID t sId0 cId0 secId name qCount n)
      as [[t1 n1]|] eqn:Hop; [|done].
    injection H as <- <-. eexists. split; [|exact Hop].
    intros c m c' m' Hb. apply addSubExercise_chapter_shape in Hb as [sec ->]. eauto.
Qed.

(** A callback that addresses a chapter changes that chapter only: under any
    other pair of ids the views find exactly the chapter they found before,
    and the ids and names of all subjects and chapters stay in place. *)
Theorem mutation_touches_one_chapter randomUUID op sId cId t n t' n' :
  addressed op = Some (sId, cId) →
  new_tree randomUUID op t n = Return (Some t', n') →
  outline t' = outline t ∧
  ∀ sId' cId', (sId', cId') ≠ (sId, cId) →
    find_chapter t' sId' cId' = find_chapter t sId' cId'.
Proof.
  intros Ha H. destruct (new_tree_addressed _ _ _ _ _ _ _ _ Ha H) as (body & Hb & Hu).
  split.
  - by eapply update_chapter_outline.
  - intros sId' cId' Hne. by eapply update_chapter_frame.
Qed.

Lemma mutation_touches_one_chapter_witness :
  outline demo_newSubjs = outline demo_tree ∧
  ∀ sId' cId', (sId', cId') ≠ ("subj-1", "ch-1") →
    find_chapter demo_newSubjs sId' cId' = find_chapter demo_tree sId' cId'.
Proof.
  apply (mutation_touches_one_chapter demo_uuid demo_op "subj-1" "ch-1"
           demo_tree 0%nat demo_newSubjs 0%nat); reflexivity.
Defined.

(** ** The cached progress is never stale *)

Lemma bind_nil {A B} (f : A → list B) (l : list A) :
  (∀ x, x ∈ l → f x = []) → l ≫= f = [].
Proof.
  induction l as [|x l IH]; intros Hf; [done|].
  cbn. rewrite Hf by left. cbn. apply IH. intros y Hy. apply Hf. by right.
Qed.

Lemma new_section_no_questions kind k : section_questions (new_section kind k) = [].
Proof.
  unfold section_questions, new_section. cbn.
  destruct (decide (kind = "EXERCISE")) as [->|]; [|done].
  cbn. by rewrite map_to_list_empty.
Qed.

Lemma chapter_questions_nil c :
  (∀ k sec, ch_sections c !! k = Some sec → section_questions sec = []) →
  chapter_questions c = [].
Proof.
  intros H. unfold chapter_questions. apply bind_nil. intros [k sec] Hin.
  apply elem_of_map_to_list in Hin. by apply (H k).
Qed.

(** Every mutation returns a tree in which each chapter's cached [progress] is
    what [calculateProgress] gives on that chapter, if that was so before: the
    callbacks recompute it whenever they touch the sections, and a new chapter
    starts at 0 with no question. *)
Theorem mutations_keep_cache_fresh randomUUID op t n t' n' :
  new_tree randomUUID op t n = Return (Some t', n') →
  every_chapter cache_fresh t → every_chapter cache_fresh t'.
Proof.
  intros H Hall.
  destruct (addressed op) as [[sId cId]|] eqn:Ha.
  { destruct (new_tree_addressed _ _ _ _ _ _ _ _ Ha H) as (body & Hb & Hu).
    by eapply update_chapter_cache. }
  destruct op; try done; cbn in H; unfold saved in H.
  - (* addSubject *)
    unfold addSubject in H. destruct (all_white_space name); [done|].
    injection H as <- _. intros s c Hs Hc.
    apply elem_of_app in Hs as [Hs|Hs]; [by apply (Hall s)|].
    apply list_elem_of_singleton in Hs as ->. by apply elem_of_nil in Hc.
  - (* addChapter *)
    rewrite M_bind_eq in H.
    destruct (addChapter _ _ _ _ _ n) as [[t1 n1]|] eqn:Hop; [|done].
    injection H as <- _.
    apply addChapter_chapters in Hop as (sections & Hs & Hch).
    intros s' c Hs' Hc.
    destruct (Hch s' c Hs' Hc) as [(s & ? & ?)|(_ & Hp & Heq)]; [by apply (Hall s)|].
    unfold cache_fresh. rewrite Hp. symmetry.
    apply calculateProgress_no_questions, chapter_questions_nil.
    intros k sec Hk. rewrite Heq in Hk.
    destruct (new_sections_shape _ _ _ _ _ Hs k sec Hk) as (kind & _ & ->).
    apply new_section_no_questions.
  - (* deleteChapter *)
    rewrite M_bind_eq in H. injection H as <- _. intros s' c Hs' Hc.
    apply list_elem_of_fmap in Hs' as (s & -> & Hs).
    destruct (decide (subj_id s = sId)); [|by apply (Hall s)].
    cbn in Hc. apply list_elem_of_filter in Hc as [_ Hc]. by apply (Hall s).
Qed.

Lemma demo_tree_cache_fresh : every_chapter cache_fresh demo_tree.
Proof.
  intros s c Hs Hc.
  apply list_elem_of_singleton in Hs as ->. cbn in Hc.
  apply list_elem_of_singleton in Hc as ->. reflexivity.
Qed.

Lemma mutations_keep_cache_fresh_witness : every_chapter cache_fresh demo_newSubjs.
Proof.
  apply (mutations_keep_cache_fresh demo_uuid demo_op demo_tree 0%nat
           demo_newSubjs 0%nat); [reflexivity|apply demo_tree_cache_fresh].
Defined.

(** ** deleteChapter *)

Lemma find_map_key {A} (key : A → string) (f : A → A) (l : list A) k :
  (∀ a, key (f a) = key a) →
  find (λ a, bool_decide (key a = k)) (map f l)
  = f <$> find (λ a, bool_decide (key a = k)) l.
Proof.
  intros Hkey. induction l as [|a l IH]; [done|].
  cbn [map find]. rewrite Hkey. by destruct (bool_decide (key a = k)).
Qed.

Lemma find_filter_same (l : list Chapter) k :
  find (λ c, bool_decide (ch_id c = k)) (filter (λ c, ch_id c ≠ k) l) = None.
Proof.
  induction l as [|c l IH]; [done|].
  rewrite filter_cons. destruct (decide (ch_id c ≠ k)); [|done].
  cbn [find]. by rewrite bool_decide_eq_false_2.
Qed.

Lemma find_filter_other (l : list Chapter) k k' :
  k' ≠ k →
  find (λ c, bool_decide (ch_id c = k')) (filter (λ c, ch_id c ≠ k) l)
  = find (λ c, bool_decide (ch_id c = k')) l.
Proof.
  intros Hk. induction l as [|c l IH]; [done|].
  rewrite filter_cons. destruct (decide (ch_id c ≠ k)) as [|Heq].
  - cbn [find]. by rewrite IH.
  - apply dec_stable in Heq. cbn [find].
    rewrite bool_decide_eq_false_2 by congruence. done.
Qed.

(** [deleteChapter] never fails and draws nothing; in the tree it returns the
    views find no chapter under the deleted address, find under every other
    address what they found before, and the subjects are the same ones in the
    same order. *)
Theorem deleteChapter_removes_that_chapter subjects sId cId n :
  ∃ t', deleteChapter subjects sId cId n = Return (t', n) ∧
    find_chapter t' sId cId = None ∧
    (∀ sId' cId', (sId', cId') ≠ (sId, cId) →
       find_chapter t' sId' cId' = find_chapter subjects sId' cId') ∧
    map (λ s, (subj_id s, subj_name s)) t'
    = map (λ s, (subj_id s, subj_name s)) subjects.
Proof.
  eexists. split; [reflexivity|].
  set (f := λ s, if decide (subj_id s = sId)
                 then mkSubject (subj_id s) (subj_name s)
                        (filter (λ c, ch_id c ≠ cId) (subj_chapters s))
                 else s).
  assert (Hkey : ∀ s, subj_id (f s) = subj_id s).
  { intros s. unfold f. by destruct (decide (subj_id s = sId)). }
  split_and!.
  - unfold find_chapter. rewrite (find_map_key subj_id f) by done.
    destruct (find _ subjects) as [s|] eqn:Hs; [|done]. cbn.
    apply find_some in Hs as [_ Hs]. apply bool_decide_eq_true in Hs.
    unfold f. rewrite decide_True by done. apply find_filter_same.
  - intros sId' cId' Hne. unfold find_chapter.
    rewrite (find_map_key subj_id f) by done.
    destruct (find _ subjects) as [s|] eqn:Hs; [|done]. cbn.
    apply find_some in Hs as [_ Hs]. apply bool_decide_eq_true in Hs.
    unfold f. destruct (decide (subj_id s = sId)) as [Heq|]; [|done].
    cbn. apply find_filter_other. congruence.
  - rewrite map_map. apply map_ext. intros s. fold (f s).
    unfold f. by destruct (decide (subj_id s = sId)).
Qed.

Lemma filter_filter_same {A} (P : A → Prop) `{∀ x, Decision (P x)} (l : list A) :
  filter P (filter P l) = filter P l.
Proof.
  induction l as [|a l IH]; [done|].
  rewrite filter_cons. destruct (decide (P a)); [|done].
  rewrite filter_cons, decide_True by done. by rewrite IH.
Qed.

(** Deleting the same chapter again changes nothing more: on the tree that
    [deleteChapter] returned, the same call returns that tree. *)
Theorem deleteChapter_idempotent subjects sId cId n t1 n1 :
  deleteChapter subjects sId cId n = Return (t1, n1) →
  deleteChapter t1 sId cId n1 = Return (t1, n1).
Proof.
  intros H. injection H as <- <-. unfold deleteChapter, mret, M_ret.
  do 2 f_equal. rewrite map_map. apply map_ext. intros s.
  destruct (decide (subj_id s = sId)) as [Heq|Hne]; cbn.
  - rewrite decide_True by done. cbn. by rewrite filter_filter_same.
  - by rewrite decide_False.
Qed.

Lemma deleteChapter_idempotent_witness :
  deleteChapter [mkSubject "subj-1" "Math" []] "subj-1" "ch-1" 0%nat
  = Return ([mkSubject "subj-1" "Math" []], 0%nat).
Proof.
  apply (deleteChapter_idempotent demo_tree "subj-1" "ch-1" 0%nat). reflexivity.
Defined.

(** ** addGenericSection *)

Definition custom_section (secId label : string) : Section :=
  mkSection (Some secId) (Some label) (Some "custom") (Some []) None.

Lemma calculateProgress_insert_empty c k sec :
  ch_sections c !! k = None →
  section_questions sec = [] →
  calculateProgress
    (mkChapter (ch_id c) (ch_name c) (ch_progress c) (<[k := sec]> (ch_sections c)))
  = calculateProgress c.
Proof.
  intros Hk Hq. unfold calculateProgress. cbn [ch_sections].
  rewrite count_sections_insert, Hq by done.
  change (counts_of []) with ((0, 0)%nat : counters). rewrite plus_counters_zero.
  rewrite map_size_insert_None by done.
  rewrite decide_False by lia.
  destruct (decide (size (ch_sections c) = 0%nat)) as [Hsz|]; [|done].
  apply map_size_empty_inv in Hsz. rewrite Hsz. done.
Qed.

(** When the UUID drawn is not yet a key of the chapter's sections,
    [addGenericSection] succeeds, keeps every section of the chapter as it
    was, adds one section of type ["custom"] with the given label and no
    question, and the progress it stores is the progress of the chapter it was
    given. *)
Theorem addGenericSection_adds_empty_section
    randomUUID subjects sId cId label c n :
  find_chapter subjects sId cId = Some c →
  ch_sections c !! randomUUID n = None →
  ∃ t' n' c',
    addGenericSection randomUUID subjects sId cId label n = Return (t', n') ∧
    find_chapter t' sId cId = Some c' ∧
    ch_sections c' !! randomUUID n = Some (custom_section (randomUUID n) label) ∧
    (∀ k, k ≠ randomUUID n → ch_sections c' !! k = ch_sections c !! k) ∧
    size (ch_sections c') = S (size (ch_sections c)) ∧
    ch_progress c' = calculateProgress c.
Proof.
  intros Hc Hfresh.
  destruct (update_chapter_first sId cId (addGenericSection_chapter randomUUID label)
              subjects c Hc) with (n := n) as (t' & n' & c1 & n1 & Hu & Hb & Hf).
  { intros c' m Hc'. apply elem_of_targets in Hc' as (_ & _ & _ & _ & Hid).
    eexists _, _. split.
    - unfold addGenericSection_chapter, mbind, M_bind, uuid. reflexivity.
    - exact Hid. }
  exists t', n', c1.
  unfold addGenericSection_chapter, mbind, M_bind, uuid in Hb.
  injection Hb as <- _.
  split_and!; try done.
  - cbn. by rewrite lookup_insert_eq.
  - intros k Hk. cbn. by rewrite lookup_insert_ne.
  - cbn. by rewrite map_size_insert_None.
  - cbn [with_sections ch_progress]. by apply calculateProgress_insert_empty.
Qed.

Lemma addGenericSection_adds_empty_section_witness :
  ∃ t' n' c',
    addGenericSection demo_uuid demo_tree "subj-1" "ch-1" "NOTES" 0%nat
    = Return (t', n') ∧
    find_chapter t' "subj-1" "ch-1" = Some c' ∧
    ch_sections c' !! demo_uuid 0 = Some (custom_section (demo_uuid 0) "NOTES") ∧
    (∀ k, k ≠ demo_uuid 0 → ch_sections c' !! k = ch_sections demo_chapter !! k) ∧
    size (ch_sections c') = S (size (ch_sections demo_chapter)) ∧
    ch_progress c' = calculateProgress demo_chapter.
Proof.
  apply (addGenericSection_adds_empty_section demo_uuid demo_tree "subj-1" "ch-1"
           "NOTES" demo_chapter 0%nat); reflexivity.
Defined.

(** ** Question ids and the toggle *)

Lemma to_uint_nonnil n : Nat.to_uint n ≠ Decimal.Nil.
Proof.
  rewrite <- (DecimalNat.Unsigned.of_to n), DecimalNat.Unsigned.to_of.
  apply DecimalFacts.unorm_nonnil.
Qed.

Lemma question_id_inj i j : question_id i = question_id j → i = j.
Proof.
  unfold question_id. intros H. injection H as H.
  change (NilZero.string_of_uint (Nat.to_uint (i + 1))
          = NilZero.string_of_uint (Nat.to_uint (j + 1))) in H.
  assert (Some (Nat.to_uint (i + 1)) = Some (Nat.to_uint (j + 1))) as Hu.
  { rewrite <- !NilZero.usu by apply to_uint_nonnil. by rewrite H. }
  injection Hu as Hu. apply DecimalNat.Unsigned.to_uint_inj in Hu. lia.
Qed.

(** The ids [q-1], [q-2], ... of a generated list are pairwise distinct. *)
Theorem fresh_questions_ids_distinct count :
  NoDup (map q_id (fresh_questions count)).
Proof.
  unfold fresh_questions. rewrite map_map. cbn [q_id].
  apply NoDup_fmap_2; [|apply NoDup_seq].
  intros i j. apply question_id_inj.
Qed.

(** The number of completed questions of a list. *)
Definition completed (qs : list Question) : nat :=
  length (filter (λ q, q_completed q = true) qs).

Lemma completed_cons q qs :
  completed (q :: qs) = ((if q_completed q then 1 else 0) + completed qs)%nat.
Proof.
  unfold completed. rewrite filter_cons.
  destruct (q_completed q); [by rewrite decide_True|by rewrite decide_False].
Qed.

Lemma map_toggle_other qId qs :
  qId ∉ map q_id qs → map (toggle qId) qs = qs.
Proof.
  intros Hni. apply map_id_on. intros q Hq. unfold toggle.
  rewrite decide_False; [done|]. intros Heq. apply Hni.
  rewrite <- Heq. by apply list_elem_of_fmap_2.
Qed.

(** In a list whose ids are distinct, toggling the id of one of its questions
    keeps the ids and moves the number of completed questions by exactly one:
    up when that question was open, down when it was completed. *)
Theorem toggle_moves_count_by_one qId qs q :
  NoDup (map q_id qs) → q ∈ qs → q_id q = qId →
  map q_id (map (toggle qId) qs) = map q_id qs ∧
  if q_completed q
  then S (completed (map (toggle qId) qs)) = completed qs
  else completed (map (toggle qId) qs) = S (completed qs).
Proof.
  intros Hnd Hq Hid. split.
  { rewrite map_map. apply map_ext. intros a. unfold toggle.
    by destruct (decide (q_id a = qId)). }
  induction qs as [|a qs IH]; [by apply elem_of_nil in Hq|].
  cbn [map] in Hnd. apply NoDup_cons in Hnd as [Hni Hnd].
  cbn [map]. rewrite !completed_cons.
  apply elem_of_cons in Hq as [->|Hq].
  - rewrite Hid in Hni. rewrite (map_toggle_other qId qs Hni).
    unfold toggle. rewrite decide_True by done. cbn [q_completed].
    by destruct (q_completed a).
  - assert (q_id a ≠ qId) as Hne.
    { intros Heq. apply Hni. rewrite Heq, <- Hid. by apply list_elem_of_fmap_2. }
    assert (toggle qId a = a) as -> by (unfold toggle; by rewrite decide_False).
    specialize (IH Hnd Hq). destruct (q_completed q), (q_completed a); lia.
Qed.

Lemma toggle_moves_count_by_one_witness :
  map q_id (map (toggle "q-2") (fresh_questions (Int 3)))
  = map q_id (fresh_questions (Int 3)) ∧
  completed (map (toggle "q-2") (fresh_questions (Int 3)))
  = S (completed (fresh_questions (Int 3))).
Proof.
  apply (toggle_moves_count_by_one "q-2" (fresh_questions (Int 3))
           (mkQuestion "q-2" false)).
  - unfold fresh_questions. rewrite map_map.
    apply NoDup_fmap_2; [intros i j; apply question_id_inj|apply NoDup_seq].
  - vm_compute. right. left.
  - reflexivity.
Defined.

(** ** The questions view of SubjectManager *)

(** [view] when [view.type === 'questions']. *)
Record QuestionsView := mkQuestionsView {
  view_sId : string;
  view_cId : string;
  view_secId : string;
  view_subExId : option string
}.

(** What the view works on: [None] stands for [return null], otherwise the
    section found and the [items] shown.  Reading [section.subExercises[...]]
    or [sub.questions] on [undefined] throws. *)
Definition questions_view (subjects : Tree) (view : QuestionsView)
    : outcome (option (Section * list Question)) :=
  match find_chapter subjects (view_sId view) (view_cId view)
        ≫= (λ c, ch_sections c !! view_secId view) with
  | None => Return None
  | Some section =>
      match truthy (view_subExId view) with
      | Some subExId =>
          match sec_subExercises section with
          | None => Throw
          | Some subExercises =>
              match subExercises !! subExId with
              | None => Throw
              | Some sub => Return (Some (section, sub_questions sub))
              end
          end
      | None => Return (Some (section, default [] (sec_questions section)))
      end
  end.

(** A property key: [undefined] used as a key is the string ["undefined"]. *)
Definition property_key (id : option string) : string := default "undefined" id.

(** The call behind the button of question [q]:
    [toggleQuestion(view.sId, view.cId, section.id, q.id, view.subExId)]. *)
Definition toggle_button (view : QuestionsView) (section : Section) (q : Question)
    : mutation :=
  ToggleQuestion (view_sId view) (view_cId view) (property_key (sec_id section))
    (q_id q) (view_subExId view).

Lemma questions_view_leaf subjects view c section items :
  find_chapter subjects (view_sId view) (view_cId view) = Some c →
  questions_view subjects view = Return (Some (section, items)) →
  ch_sections c !! view_secId view = Some section ∧
  (items = [] ∨ leaf (view_secId view) (view_subExId view) c = Some items).
Proof.
  unfold questions_view, leaf. intros -> H. cbn in *.
  destruct (ch_sections c !! view_secId view) as [sec|]; [|done]. cbn.
  destruct (truthy (view_subExId view)) as [sx|].
  - destruct (sec_subExercises sec) as [subs|]; [|done]. cbn.
    destruct (subs !! sx) as [sub|]; [|done]. cbn.
    injection H as <- <-. auto.
  - injection H as <- <-. destruct (sec_questions sec); cbn; auto.
Qed.

Lemma leaf_questions_view subjects view c items :
  find_chapter subjects (view_sId view) (view_cId view) = Some c →
  leaf (view_secId view) (view_subExId view) c = Some items →
  ∃ section, ch_sections c !! view_secId view = Some section ∧
    questions_view subjects view = Return (Some (section, items)).
Proof.
  unfold questions_view, leaf. intros -> H. cbn in *.
  destruct (ch_sections c !! view_secId view) as [sec|]; [|done]. cbn in *.
  exists sec. split; [done|].
  destruct (truthy (view_subExId view)) as [sx|].
  - destruct (sec_subExercises sec) as [subs|]; [|done]. cbn in H.
    destruct (subs !! sx) as [sub|]; [|done]. cbn in H. by injection H as <-.
  - by rewrite H.
Qed.

Lemma toggled_sec_id secId qId subExId c sec0 :
  ch_sections c !! secId = Some sec0 →
  ∃ sec', ch_sections (toggled secId qId subExId c) !! secId = Some sec' ∧
          sec_id sec' = sec_id sec0.
Proof.
  intros H. toggle_cases c secId subExId; try congruence.
  all: injection H as <-.
  all: try (eexists; split; [apply lookup_insert_eq|done]).
  all: eauto.
Qed.

(** Every question button that the questions view shows works: when the
    chapter is the only one under its address and the section found carries its
    key as [id], pressing the button of a question [q] of the list shown makes
    [toggleQuestion] return a tree, without drawing a UUID, and on that tree
    the same view shows the same list with [q.id] toggled, under a section that
    still carries its key as [id]. *)
Theorem questions_view_buttons_work randomUUID subjects view c section items q n :
  targets subjects (view_sId view) (view_cId view) = [c] →
  questions_view subjects view = Return (Some (section, items)) →
  sec_id section = Some (view_secId view) →
  q ∈ items →
  ∃ t' section',
    new_tree randomUUID (toggle_button view section q) subjects n
    = Return (Some t', n) ∧
    questions_view t' view
    = Return (Some (section', map (toggle (q_id q)) items)) ∧
    sec_id section' = Some (view_secId view).
Proof.
  intros Ht Hview Hid Hq.
  assert (find_chapter subjects (view_sId view) (view_cId view) = Some c) as Hc.
  { unfold questions_view in Hview.
    destruct (find_chapter subjects (view_sId view) (view_cId view)) as [c0|] eqn:Hc0;
      [|done].
    apply find_chapter_target in Hc0. rewrite Ht in Hc0.
    by apply list_elem_of_singleton in Hc0 as ->. }
  destruct (questions_view_leaf _ _ _ _ _ Hc Hview) as [Hsec [->|Hleaf]];
    [by apply elem_of_nil in Hq|].
  set (g := toggled (view_secId view) (q_id q) (view_subExId view)).
  assert (toggleQuestion subjects (view_sId view) (view_cId view) (view_secId view)
            (q_id q) (view_subExId view) n
          = Return (map_chapter (view_sId view) (view_cId view) g subjects, n)) as Hop.
  { apply toggleQuestion_eq. rewrite Ht. apply Forall_singleton. by eexists. }
  assert (find_chapter (map_chapter (view_sId view) (view_cId view) g subjects)
            (view_sId view) (view_cId view) = Some (g c)) as Hc'.
  { rewrite find_chapter_map_chapter by (intros; apply toggled_id). by rewrite Hc. }
  destruct (leaf_questions_view _ view _ _ Hc'
              (leaf_toggled _ (q_id q) _ _ _ Hleaf)) as (section' & Hsec' & Hview').
  exists (map_chapter (view_sId view) (view_cId view) g subjects), section'.
  split_and!.
  - unfold toggle_button. rewrite Hid. cbn. unfold saved.
    rewrite M_bind_eq, Hop. done.
  - done.
  - destruct (toggled_sec_id _ (q_id q) (view_subExId view) _ _ Hsec)
      as (sec' & Hs & Hi).
    fold g in Hs. rewrite Hsec' in Hs. injection Hs as <-. by rewrite Hi.
Qed.

Definition demo_view : QuestionsView := mkQuestionsView "subj-1" "ch-1" "sec-1" None.

Lemma questions_view_buttons_work_witness :
  ∃ t' section',
    new_tree demo_uuid (toggle_button demo_view demo_section (mkQuestion "q-2" false))
      demo_tree 0%nat = Return (Some t', 0%nat) ∧
    questions_view t' demo_view
    = Return (Some (section',
        map (toggle "q-2") [mkQuestion "q-1" true; mkQuestion "q-2" false])) ∧
    sec_id section' = Some "sec-1".
Proof.
  apply (questions_view_buttons_work demo_uuid demo_tree demo_view demo_chapter
           demo_section [mkQuestion "q-1" true; mkQuestion "q-2" false]
           (mkQuestion "q-2" false) 0%nat).
  - reflexivity.
  - reflexivity.
  - reflexivity.
  - right. left.
Defined.

(** ** Sequences of events *)

Lemma run_cons randomUUID st ev evs :
  run randomUUID st (ev :: evs)
  = ((run randomUUID (step randomUUID st ev).1 evs).1,
     (step randomUUID st ev).2 ++ (run randomUUID (step randomUUID st ev).1 evs).2).
Proof.
  cbn [run]. destruct (step randomUUID st ev) as [st1 acts1]. cbn [fst snd].
  by destruct (run randomUUID st1 evs).
Qed.

(** One mutation: user and tree stay, and what is dispatched is a write, under
    the signed-in user, of a tree computed from the in-memory tree. *)
Lemma step_Mutate randomUUID st op :
  user (step randomUUID st (Mutate op)).1 = user st ∧
  subjects (step randomUUID st (Mutate op)).1 = subjects st ∧
  ∀ a, a ∈ (step randomUUID st (Mutate op)).2 →
    ∃ uid t m m', user st = Some uid ∧ a = SetDoc uid t ∧
      new_tree randomUUID op (subjects st) m = Return (Some t, m').
Proof.
  cbn [step].
  destruct (new_tree randomUUID op (subjects st) (drawn st))
    as [[[newSubjs|] n]|] eqn:Hnew; cbn [fst snd user subjects].
  - split_and!; [done..|]. intros a Ha. unfold saveData in Ha.
    destruct (user st) as [uid|]; [|by apply elem_of_nil in Ha].
    apply list_elem_of_singleton in Ha as ->. eauto 10.
  - split_and!; [done..|]. intros a Ha. by apply elem_of_nil in Ha.
  - split_and!; [done..|]. intros a Ha. by apply elem_of_nil in Ha.
Qed.

(** Callbacks fired one after the other, with no snapshot in between, all work
    on the tree of the same render: the in-memory tree and the user are the
    same at the end, and every write dispatched carries a tree that one of the
    callbacks computed from that one tree, so that a later write does not
    contain what an earlier one added. *)
Theorem mutations_in_a_row_start_from_one_tree randomUUID st ops :
  user (run randomUUID st (map Mutate ops)).1 = user st ∧
  subjects (run randomUUID st (map Mutate ops)).1 = subjects st ∧
  ∀ a, a ∈ (run randomUUID st (map Mutate ops)).2 →
    ∃ uid op t m m', user st = Some uid ∧ op ∈ ops ∧ a = SetDoc uid t ∧
      new_tree randomUUID op (subjects st) m = Return (Some t, m').
Proof.
  revert st. induction ops as [|op ops IH]; intros st.
  - cbn. split_and!; [done..|]. intros a Ha. by apply elem_of_nil in Ha.
  - cbn [map]. rewrite run_cons. cbn [fst snd].
    destruct (step_Mutate randomUUID st op) as (Hu & Hs & Hacts).
    destruct (IH (step randomUUID st (Mutate op)).1) as (Hu' & Hs' & Hacts').
    split_and!; [congruence..|].
    intros a Ha. apply elem_of_app in Ha as [Ha|Ha].
    + destruct (Hacts a Ha) as (uid & t & m & m' & ? & ? & ?).
      exists uid, op, t, m, m'. split_and!; [done|left|done|done].
    + destruct (Hacts' a Ha) as (uid & op' & t & m & m' & ? & ? & ? & Hn).
      rewrite Hs in Hn. exists uid, op', t, m, m'.
      split_and!; [congruence|by right|done|done].
Qed.

(** Who a write is for. *)
Lemma step_writes randomUUID st ev uid t :
  SetDoc uid t ∈ (step randomUUID st ev).2 → user st = Some uid.
Proof.
  destruct ev as [op|doc|u].
  - intros Ha. destruct (step_Mutate randomUUID st op) as (_ & _ & Hacts).
    destruct (Hacts _ Ha) as (uid' & t' & m & m' & Hu & Heq & _). congruence.
  - cbn [step]. destruct (user st), doc; cbn; intros Ha.
    + apply list_elem_of_singleton in Ha. discriminate Ha.
    + by apply elem_of_nil in Ha.
    + by apply elem_of_nil in Ha.
    + by apply elem_of_nil in Ha.
  - cbn [step]. destruct u; cbn; intros Ha.
    + by apply elem_of_nil in Ha.
    + apply list_elem_of_singleton in Ha. discriminate Ha.
Qed.

Lemma step_user randomUUID st ev :
  user (step randomUUID st ev).1
  = match ev with AuthChanged u => u | _ => user st end.
Proof.
  destruct ev as [op|doc|u]; cbn [step].
  - by destruct (new_tree randomUUID op (subjects st) (drawn st)) as [[[?|] ?]|].
  - destruct (user st) eqn:Hu, doc; cbn; congruence.
  - by destruct u.
Qed.

(** Every write of a run goes to the document of a user who was signed in:
    the one of the starting state, or one that an auth change brought in. *)
Theorem writes_go_to_a_signed_in_user randomUUID st evs uid t :
  SetDoc uid t ∈ (run randomUUID st evs).2 →
  user st = Some uid ∨ AuthChanged (Some uid) ∈ evs.
Proof.
  revert st. induction evs as [|ev evs IH]; intros st Ha.
  - by apply elem_of_nil in Ha.
  - rewrite run_cons in Ha. cbn [snd] in Ha.
    apply elem_of_app in Ha as [Ha|Ha].
    + left. by apply (step_writes randomUUID st ev uid t).
    + destruct (IH _ Ha) as [Hu|Hin]; [|right; by right].
      rewrite step_user in Hu. destruct ev; [by left|by left|].
      right. rewrite Hu. left.
Qed.

Lemma writes_go_to_a_signed_in_user_witness :
  user demo_state = Some "user-1" ∨
  AuthChanged (Some "user-1") ∈ [Mutate demo_op].
Proof.
  apply (writes_go_to_a_signed_in_user demo_uuid demo_state [Mutate demo_op]
           "user-1" demo_newSubjs).
  vm_compute. left.
Defined.

Lemma step_signed_out randomUUID st ev :
  user st = None → subjects st = [] →
  (∀ u, ev ≠ AuthChanged (Some u)) →
  user (step randomUUID st ev).1 = None ∧
  subjects (step randomUUID st ev).1 = [] ∧
  ∀ a, a ∈ (step randomUUID st ev).2 → a = SetSubjects [].
Proof.
  intros Hu Hs Hev. destruct ev as [op|doc|[u|]]; cbn [step].
  - destruct (step_Mutate randomUUID st op) as (Hu' & Hs' & Hacts).
    cbn [step] in Hu', Hs', Hacts. split_and!; [congruence..|].
    intros a Ha. destruct (Hacts a Ha) as (uid & _ & _ & _ & Hsome & _). congruence.
  - rewrite Hu. cbn. split_and!; [done..|]. intros a Ha. by apply elem_of_nil in Ha.
  - by destruct (Hev u).
  - cbn. split_and!; [done..|]. intros a Ha. by apply list_elem_of_singleton in Ha.
Qed.

(** After a sign-out the in-memory tree is empty and stays empty, and nothing
    is written, whatever mutations, snapshots and further sign-outs follow, as
    long as nobody signs in. *)
Theorem sign_out_clears_and_blocks randomUUID st evs :
  (∀ u, AuthChanged (Some u) ∉ evs) →
  user (run randomUUID st (AuthChanged None :: evs)).1 = None ∧
  subjects (run randomUUID st (AuthChanged None :: evs)).1 = [] ∧
  ∀ a, a ∈ (run randomUUID st (AuthChanged None :: evs)).2 → a = SetSubjects [].
Proof.
  intros Hev. rewrite run_cons. cbn [step fst snd].
  set (st0 := mkAppState None [] (drawn st)).
  assert (user st0 = None ∧ subjects st0 = []) as Hst0 by done.
  clearbody st0. revert st0 Hst0.
  induction evs as [|ev evs IH]; intros st0 [Hu Hs].
  - cbn. split_and!; [done..|]. intros a Ha.
    by apply list_elem_of_singleton in Ha.
  - rewrite run_cons. cbn [fst snd].
    destruct (step_signed_out randomUUID st0 ev Hu Hs) as (Hu1 & Hs1 & Hacts).
    { intros u ->. apply (Hev u). left. }
    destruct (IH (λ u Hin, Hev u (list_elem_of_further _ _ _ Hin))
                 (step randomUUID st0 ev).1 (conj Hu1 Hs1)) as (Hu2 & Hs2 & Hacts2).
    split_and!; [done..|].
    intros a Ha. apply elem_of_app in Ha as [Ha|Ha].
    + by apply list_elem_of_singleton in Ha.
    + apply elem_of_app in Ha as [Ha|Ha]; [by apply Hacts|].
      apply Hacts2. apply elem_of_app. by right.
Qed.

Definition demo_after_sign_out : list event :=
  [Mutate demo_op; Snapshot (Some (Some demo_newSubjs)); Mutate (AddSubject "Physics")].

Lemma sign_out_clears_and_blocks_witness :
  user (run demo_uuid demo_state (AuthChanged None :: demo_after_sign_out)).1 = None ∧
  subjects (run demo_uuid demo_state (AuthChanged None :: demo_after_sign_out)).1 = [] ∧
  ∀ a, a ∈ (run demo_uuid demo_state (AuthChanged None :: demo_after_sign_out)).2 →
       a = SetSubjects [].
Proof.
  apply (sign_out_clears_and_blocks demo_uuid demo_state demo_after_sign_out).
  intros u Hin. unfold demo_after_sign_out in Hin.
  repeat (apply elem_of_cons in Hin as [Hin|Hin]; [discriminate Hin|]).
  by apply elem_of_nil in Hin.
Defined.

(** ** Where rounding decides: the ends of the scale, and larger totals *)

Module RoundingEdges.
Import SpecFloat FloatOps Rounding.
Local Open Scope R_scope.

(** A positive integer below [2^53] is a double. *)
Lemma rounds_to_int (n : Z) y :
  (0 < n < 2 ^ 53)%Z → rounds_to (IZR n) y → y = IZR n.
Proof.
  intros [Hn0 Hn] H. apply (rounds_to_unique (IZR n)); [done|].
  pose proof (Z.log2_spec n Hn0) as [Hj1 Hj2].
  pose proof (Z.log2_nonneg n) as Hj0.
  assert (Z.log2 n < 53)%Z as Hj by (apply Z.log2_lt_pow2; lia).
  set (j := Z.log2 n) in *.
  assert (F2R (n * 2 ^ (52 - j)) (j - 52) = IZR n) as Heq.
  { rewrite F2R_shift by lia. replace (j - 52 + (52 - j))%Z with 0%Z by lia.
    unfold F2R. rewrite pow2_0. ring. }
  rewrite <- Heq at 2. rewrite <- Heq at 1. apply rounds_to_exact.
  assert (2 ^ 52 = 2 ^ j * 2 ^ (52 - j))%Z as E52.
  { rewrite <- Z.pow_add_r by lia. f_equal. lia. }
  assert (2 ^ 53 = 2 ^ Z.succ j * 2 ^ (52 - j))%Z as E53.
  { rewrite <- Z.pow_add_r by lia. f_equal. lia. }
  assert (0 < 2 ^ (52 - j))%Z by (apply Z.pow_pos_nonneg; lia).
  rewrite E52, E53. split; nia.
Qed.

(** The chain of roundings behind [percent], for counts that are exact. *)
Lemma percent_exact_counts (k t : nat) :
  (0 < k)%nat → (0 < t)%nat →
  (Z.of_nat k < 2 ^ 53)%Z → (Z.of_nat t < 2 ^ 53)%Z →
  ∃ yd M E,
    rounds_to (IZR (Z.of_nat k) / IZR (Z.of_nat t)) yd ∧
    rounds_to (yd * 100) (F2R (Zpos M) E) ∧
    Prim2SF (PrimFloat.mul
               (PrimFloat.div (JsNumber.of_count k) (JsNumber.of_count t))
               JsNumber.hundred) = S754_finite false M E.
Proof.
  intros Hk Ht Hk' Ht'.
  destruct (percent_float k t Hk Ht) as (yk & yt & yd & M & E & Rk & Rt & _ & Rd & Rm & Hf);
    [lia..|].
  apply rounds_to_int in Rk as ->; [|lia]. apply rounds_to_int in Rt as ->; [|lia].
  by exists yd, M, E.
Qed.

Lemma F2R_ratio (a : Z) (p q : Z) :
  (0 <= p)%Z → (0 <= q)%Z → F2R (a * 2 ^ p) (- q - p) = IZR a / IZR (2 ^ q).
Proof.
  intros Hp Hq. rewrite F2R_shift by done.
  replace (- q - p + p)%Z with (- q)%Z by lia. unfold F2R.
  assert (IZR (2 ^ q) * pow2 (- q) = 1) as H.
  { rewrite <- pow2_IZR, <- pow2_add by done.
    replace (q + - q)%Z with 0%Z by lia. apply pow2_0. }
  assert (0 < IZR (2 ^ q)) as Hpos by (apply IZR_lt, Z.pow_pos_nonneg; lia).
  apply Rmult_eq_reg_r with (IZR (2 ^ q)); [|lra].
  unfold Rdiv. rewrite !Rmult_assoc, Rinv_l by lra.
  rewrite (Rmult_comm (pow2 (- q))), H. ring.
Qed.

(** From 200 completed out of 201 upwards the percentage is 100. *)
Lemma percent_high (c t : nat) :
  (c <= t)%nat → (0 < t)%nat → (Z.of_nat t < 2 ^ 53)%Z →
  (200 * Z.of_nat t <= 201 * Z.of_nat c)%Z →
  JsNumber.percent c t = 100%Z.
Proof.
  intros Hc Ht Ht' Hr.
  pose proof (percent_range c t Hc Ht ltac:(lia)) as [_ Hup].
  destruct (percent_exact_counts c t) as (yd & M & E & Rd & Rm & Hf); [lia..|].
  assert (rounds_to (IZR 65209 / IZR (2 ^ 16)) (IZR 65209 / IZR (2 ^ 16))) as R1.
  { rewrite <- (F2R_ratio 65209 37 16) by lia. apply rounds_to_exact. lia. }
  assert (rounds_to (IZR 1630225 / IZR (2 ^ 14)) (IZR 1630225 / IZR (2 ^ 14))) as R2.
  { rewrite <- (F2R_ratio 1630225 32 14) by lia. apply rounds_to_exact. lia. }
  assert (0 < IZR (Z.of_nat t)) as Htpos by (apply IZR_lt; lia).
  apply IZR_le in Hr. rewrite !mult_IZR in Hr.
  assert (IZR 65209 / IZR (2 ^ 16) <= IZR (Z.of_nat c) / IZR (Z.of_nat t)) as Hq.
  { apply Rmult_le_reg_r with (IZR (Z.of_nat t)); [done|].
    replace (IZR (Z.of_nat c) / IZR (Z.of_nat t) * IZR (Z.of_nat t))
      with (IZR (Z.of_nat c)) by (field; lra).
    change (2 ^ 16)%Z with 65536%Z. lra. }
  pose proof (rounds_to_mono _ _ _ _ R1 Rd Hq) as Hyd.
  assert (IZR 1630225 / IZR (2 ^ 14) <= yd * 100) as Hq2.
  { change (2 ^ 14)%Z with 16384%Z. change (2 ^ 16)%Z with 65536%Z in Hyd. lra. }
  pose proof (rounds_to_mono _ _ _ _ R2 Rm Hq2) as Hym.
  pose proof (Math_round_floor _ false M E Hf) as [_ H2]. cbn zeta in H2.
  unfold JsNumber.percent in *.
  change (2 ^ 14)%Z with 16384%Z in Hym.
  assert (IZR 99 < IZR (JsNumber.Math_round
            (PrimFloat.mul (PrimFloat.div (JsNumber.of_count c) (JsNumber.of_count t))
               JsNumber.hundred))) as Hgt by lra.
  apply lt_IZR in Hgt. lia.
Qed.

(** Up to 1 completed out of 201 the percentage is 0. *)
Lemma percent_low (c t : nat) :
  (0 < t)%nat → (Z.of_nat t < 2 ^ 53)%Z →
  (201 * Z.of_nat c <= Z.of_nat t)%Z →
  JsNumber.percent c t = 0%Z.
Proof.
  intros Ht Ht' Hr.
  destruct c as [|c]; [apply percent_none; lia|].
  pose proof (percent_range (S c) t ltac:(lia) Ht ltac:(lia)) as [Hlo _].
  destruct (percent_exact_counts (S c) t) as (yd & M & E & Rd & Rm & Hf); [lia..|].
  assert (rounds_to (IZR 327 / IZR (2 ^ 16)) (IZR 327 / IZR (2 ^ 16))) as R1.
  { rewrite <- (F2R_ratio 327 44 16) by lia. apply rounds_to_exact. lia. }
  assert (rounds_to (IZR 8175 / IZR (2 ^ 14)) (IZR 8175 / IZR (2 ^ 14))) as R2.
  { rewrite <- (F2R_ratio 8175 40 14) by lia. apply rounds_to_exact. lia. }
  assert (0 < IZR (Z.of_nat t)) as Htpos by (apply IZR_lt; lia).
  apply IZR_le in Hr. rewrite !mult_IZR in Hr.
  assert (IZR (Z.of_nat (S c)) / IZR (Z.of_nat t) <= IZR 327 / IZR (2 ^ 16)) as Hq.
  { apply Rmult_le_reg_r with (IZR (Z.of_nat t)); [done|].
    replace (IZR (Z.of_nat (S c)) / IZR (Z.of_nat t) * IZR (Z.of_nat t))
      with (IZR (Z.of_nat (S c))) by (field; lra).
    change (2 ^ 16)%Z with 65536%Z. lra. }
  pose proof (rounds_to_mono _ _ _ _ Rd R1 Hq) as Hyd.
  assert (yd * 100 <= IZR 8175 / IZR (2 ^ 14)) as Hq2.
  { change (2 ^ 14)%Z with 16384%Z. change (2 ^ 16)%Z with 65536%Z in Hyd. lra. }
  pose proof (rounds_to_mono _ _ _ _ Rm R2 Hq2) as Hym.
  pose proof (Math_round_floor _ false M E Hf) as [H1 _]. cbn zeta in H1.
  unfold JsNumber.percent in *.
  change (2 ^ 14)%Z with 16384%Z in Hym.
  assert (IZR (JsNumber.Math_round
            (PrimFloat.mul (PrimFloat.div (JsNumber.of_count (S c)) (JsNumber.of_count t))
               JsNumber.hundred)) < IZR 1) as Hlt by lra.
  apply lt_IZR in Hlt. lia.
Qed.

(** With the same number completed, a larger total gives no larger
    percentage. *)
Lemma percent_antitone (c t t' : nat) :
  (0 < t)%nat → (t <= t')%nat → (Z.of_nat c < 2 ^ 63)%Z → (Z.of_nat t' < 2 ^ 63)%Z →
  (JsNumber.percent c t' <= JsNumber.percent c t)%Z.
Proof.
  intros Ht Hle Hc Ht'.
  destruct c as [|c]; [rewrite !percent_none by lia; lia|].
  destruct (percent_float (S c) t) as (yk & yt & yd & M & E & Rk & Rt & Hpos & Rd & Rm & Hf);
    [lia..|].
  destruct (percent_float (S c) t')
    as (yk' & yt' & yd' & M' & E' & Rk' & Rt' & Hpos' & Rd' & Rm' & Hf'); [lia..|].
  assert (yk' = yk) as -> by (by eapply rounds_to_unique).
  assert (1 <= yk) as Hk1.
  { assert (rounds_to 1 1) as R1.
    { replace 1 with (F2R (2 ^ 52) (-52)); [apply rounds_to_exact; lia|].
      unfold F2R. rewrite <- pow2_IZR, <- pow2_add by lia. apply pow2_0. }
    apply (rounds_to_mono _ _ _ _ R1 Rk). apply IZR_le. lia. }
  assert (yt <= yt') as Htt.
  { apply (rounds_to_mono _ _ _ _ Rt Rt'). apply IZR_le. lia. }
  assert (yk / yt' <= yk / yt) as Hq.
  { unfold Rdiv. apply Rmult_le_compat_l; [lra|]. by apply Rinv_le_contravar. }
  pose proof (rounds_to_mono _ _ _ _ Rd' Rd Hq) as Hyd.
  unfold JsNumber.percent. eapply Math_round_mono; [done..|].
  eapply rounds_to_mono; [done..|]. lra.
Qed.

(** [Math.round(sum / n)] for exact counts. *)
Lemma quotient_float (s n : nat) :
  (0 < s)%nat → (0 < n)%nat → (Z.of_nat s < 2 ^ 53)%Z → (Z.of_nat n < 2 ^ 53)%Z →
  ∃ M E,
    Prim2SF (PrimFloat.div (JsNumber.of_count s) (JsNumber.of_count n))
    = S754_finite false M E ∧
    rounds_to (IZR (Z.of_nat s) / IZR (Z.of_nat n)) (F2R (Zpos M) E).
Proof.
  intros Hs Hn Hs' Hn'.
  destruct (of_count_correct s Hs ltac:(lia)) as (Ms & Es & Hfs & Hds & HEs & Rs).
  destruct (of_count_correct n Hn ltac:(lia)) as (Mn & En & Hfn & Hdn & HEn & Rn).
  destruct (SFdiv_correct Ms Es Mn En) as (Md & Ed & Hdiv & Hdd & HEd & Rd);
    [split; [done|lia]..|lia|].
  exists Md, Ed. split.
  - rewrite FloatAxioms.div_spec, Hfs, Hfn. exact Hdiv.
  - apply rounds_to_int in Rs; [|lia]. apply rounds_to_int in Rn; [|lia].
    by rewrite Rs, Rn in Rd.
Qed.

Lemma quotient_zero (n : nat) :
  (0 < n)%nat → (Z.of_nat n < 2 ^ 53)%Z →
  JsNumber.Math_round (PrimFloat.div (JsNumber.of_count 0) (JsNumber.of_count n)) = 0%Z.
Proof.
  intros Hn Hn'.
  destruct (of_count_correct n Hn ltac:(lia)) as (Mn & En & Hfn & _).
  unfold JsNumber.Math_round. rewrite FloatAxioms.div_spec, of_count_zero, Hfn. done.
Qed.

(** The rounded mean of [n] numbers that add up to [s <= 100 * n]. *)
Lemma quotient_range (s n : nat) :
  (0 < n)%nat → (Z.of_nat n < 2 ^ 53)%Z → (Z.of_nat s < 2 ^ 53)%Z →
  (Z.of_nat s <= 100 * Z.of_nat n)%Z →
  (0 <= JsNumber.Math_round
          (PrimFloat.div (JsNumber.of_count s) (JsNumber.of_count n)) <= 100)%Z.
Proof.
  intros Hn Hn' Hs' Hle.
  destruct s as [|s]; [rewrite quotient_zero by done; lia|].
  destruct (quotient_float (S s) n) as (M & E & Hf & Rq); [lia..|].
  split; [by eapply Math_round_nonneg|].
  assert (rounds_to 100 100) as R100.
  { rewrite <- F2R_hundred. apply rounds_to_exact. lia. }
  assert (0 < IZR (Z.of_nat n)) as Hnpos by (apply IZR_lt; lia).
  apply IZR_le in Hle. rewrite mult_IZR in Hle.
  assert (IZR (Z.of_nat (S s)) / IZR (Z.of_nat n) <= 100) as Hq.
  { apply Rmult_le_reg_r with (IZR (Z.of_nat n)); [done|].
    replace (IZR (Z.of_nat (S s)) / IZR (Z.of_nat n) * IZR (Z.of_nat n))
      with (IZR (Z.of_nat (S s))) by (field; lra). lra. }
  pose proof (rounds_to_mono _ _ _ _ Rq R100 Hq) as Hy.
  pose proof (Math_round_floor _ false M E Hf) as [H1 _]. cbn zeta in H1.
  assert (IZR (JsNumber.Math_round
            (PrimFloat.div (JsNumber.of_count (S s)) (JsNumber.of_count n)))
          < IZR 101) as Hlt by lra.
  apply lt_IZR in Hlt. lia.
Qed.

(** The rounded mean of [n] copies of the integer [p] is [p]. *)
Lemma quotient_constant (p n : nat) :
  (0 < n)%nat → (Z.of_nat n < 2 ^ 53)%Z → (Z.of_nat (p * n) < 2 ^ 53)%Z →
  JsNumber.Math_round
    (PrimFloat.div (JsNumber.of_count (p * n)) (JsNumber.of_count n)) = Z.of_nat p.
Proof.
  intros Hn Hn' Hs'.
  destruct p as [|p]; [by apply quotient_zero|].
  destruct (quotient_float (S p * n) n) as (M & E & Hf & Rq); [nia|lia|lia|lia|].
  assert (0 < IZR (Z.of_nat n)) as Hnpos by (apply IZR_lt; lia).
  replace (IZR (Z.of_nat (S p * n)) / IZR (Z.of_nat n)) with (IZR (Z.of_nat (S p))) in Rq.
  2:{ rewrite Nat2Z.inj_mul, mult_IZR. field. lra. }
  apply rounds_to_int in Rq; [|nia].
  pose proof (Math_round_floor _ false M E Hf) as [H1 H2]. cbn zeta in H1, H2.
  rewrite Rq in H1, H2.
  set (r := JsNumber.Math_round _) in *.
  assert (IZR r < IZR (Z.of_nat (S p) + 1)) as Hlt by (rewrite plus_IZR; lra).
  assert (IZR (Z.of_nat (S p) - 1) < IZR r) as Hgt by (rewrite minus_IZR; lra).
  apply lt_IZR in Hlt, Hgt. lia.
Qed.

End RoundingEdges.

(** ** 100 before the last question, 0 after the first *)

Lemma calculateProgress_completed c :
  calculateProgress c =
  if decide (length (chapter_questions c) = 0%nat) then 0
  else JsNumber.percent (completed (chapter_questions c))
         (length (chapter_questions c)).
Proof. apply calculateProgress_counts. Qed.

Lemma completed_le qs : (completed qs ≤ length qs)%nat.
Proof. apply length_filter. Qed.

(** A chapter is shown at 100 as soon as at least 200 of every 201 questions
    are completed: with 201 questions or more, one open question (or more, in
    proportion) is rounded away. *)
Theorem calculateProgress_100_with_open_questions c :
  chapter_questions c ≠ [] →
  Z.of_nat (length (chapter_questions c)) < 2 ^ 53 →
  200 * Z.of_nat (length (chapter_questions c))
    ≤ 201 * Z.of_nat (completed (chapter_questions c)) →
  calculateProgress c = 100.
Proof.
  intros Hne Hbound Hratio. rewrite calculateProgress_completed.
  destruct (decide (length (chapter_questions c) = 0%nat)) as [H0|H0].
  - by apply nil_length_inv in H0.
  - apply RoundingEdges.percent_high; [apply completed_le|lia|lia|lia].
Qed.

Lemma calculateProgress_100_with_open_questions_witness :
  calculateProgress (chapter_done 200 201) = 100.
Proof.
  apply (calculateProgress_100_with_open_questions (chapter_done 200 201)).
  - vm_compute. discriminate.
  - vm_compute. reflexivity.
  - vm_compute. discriminate.
Defined.

(** A chapter is shown at 0 as long as no more than 1 of every 201 questions
    is completed. *)
Theorem calculateProgress_0_with_completed_questions c :
  Z.of_nat (length (chapter_questions c)) < 2 ^ 53 →
  201 * Z.of_nat (completed (chapter_questions c))
    ≤ Z.of_nat (length (chapter_questions c)) →
  calculateProgress c = 0.
Proof.
  intros Hbound Hratio. rewrite calculateProgress_completed.
  destruct (decide (length (chapter_questions c) = 0%nat)) as [H0|H0]; [done|].
  apply RoundingEdges.percent_low; lia.
Qed.

Lemma calculateProgress_0_with_completed_questions_witness :
  calculateProgress (chapter_done 1 201) = 0.
Proof.
  apply (calculateProgress_0_with_completed_questions (chapter_done 1 201)).
  - vm_compute. reflexivity.
  - vm_compute. discriminate.
Defined.

(** ** Adding a sub-exercise never raises the progress *)

Lemma count_sections_lookup k sec sections :
  sections !! k = Some sec →
  count_sections sections
  = plus_counters (count_sections (delete k sections))
      (counts_of (section_questions sec)).
Proof.
  intros Hk. rewrite <- (insert_delete_id sections k sec) at 1 by done.
  apply count_sections_insert, lookup_delete_eq.
Qed.

Lemma count_sections_update k sec sec' sections :
  sections !! k = Some sec →
  count_sections (<[k := sec']> sections)
  = plus_counters (count_sections (delete k sections))
      (counts_of (section_questions sec')).
Proof.
  intros Hk. rewrite <- (insert_delete_eq sections k sec').
  apply count_sections_insert, lookup_delete_eq.
Qed.

Lemma counts_of_fresh count : counts_of (fresh_questions count) = (ToLength count, 0%nat).
Proof.
  unfold counts_of. rewrite fresh_questions_length. f_equal.
  rewrite filter_none; [done|].
  eapply Forall_impl; [apply fresh_questions_incomplete|].
  intros q Hq. cbn in Hq. by rewrite Hq.
Qed.

(** What the new sub-exercise adds to the counts of its section: its questions
    when the section is of type ["exercise"], nothing otherwise. *)
Lemma section_questions_add_sub sec subs k name count :
  sec_subExercises sec = Some subs → subs !! k = None →
  counts_of (section_questions
    (with_subExercises sec
       (Some (<[k := mkSubExercise k name (fresh_questions count)]> subs))))
  = plus_counters (counts_of (section_questions sec))
      (if decide (sec_type sec = Some "exercise") then (ToLength count, 0%nat)
       else (0, 0)%nat).
Proof.
  intros Hsubs Hk. unfold section_questions, with_subExercises. cbn. rewrite Hsubs.
  destruct (sec_type sec) as [ty|]; cbn.
  - destruct (decide (ty = "exercise")) as [->|Hne].
    + rewrite decide_True by done.
      rewrite <- !(map_counts_flat sub_questions).
      rewrite map_counts_insert by done. cbn. by rewrite counts_of_fresh.
    + rewrite decide_False by congruence. by rewrite plus_counters_zero.
  - rewrite decide_False by done. by rewrite plus_counters_zero.
Qed.

(** When the section has a sub-exercise map, the UUID drawn is not one of its
    keys and the count is a length that an array can have (at most
    [2^32 - 1]; [Array.from] throws above), [addSubExercise] returns and the
    progress it stores is at most the progress of the chapter it was given:
    the questions it adds are all open. *)
Theorem addSubExercise_never_raises_progress
    randomUUID subjects sId cId secId name qCount c sec subs n :
  find_chapter subjects sId cId = Some c →
  ch_sections c !! secId = Some sec →
  sec_subExercises sec = Some subs →
  subs !! randomUUID n = None →
  Forall (λ c, is_Some (ch_sections c !! secId)) (targets subjects sId cId) →
  Z.of_nat (ToLength qCount) < 2 ^ 32 →
  Z.of_nat (length (chapter_questions c)) + Z.of_nat (ToLength qCount) < 2 ^ 53 →
  ∃ t' n' c',
    addSubExercise randomUUID subjects sId cId secId name qCount n
    = Return (t', n') ∧
    find_chapter t' sId cId = Some c' ∧
    ch_progress c' = calculateProgress c' ∧
    calculateProgress c' ≤ calculateProgress c.
Proof.
  intros Hc Hsec Hsubs Hfresh Hall Hlen Hbound.
  destruct (update_chapter_first sId cId
              (addSubExercise_chapter randomUUID secId name qCount) subjects c Hc)
    with (n := n) as (t' & n' & c1 & n1 & Ht & Hb & Hf).
  { intros c' m Hc'.
    destruct (proj1 (Forall_forall _ _) Hall c' Hc') as [sec' Hsec'].
    apply elem_of_targets in Hc' as (_ & _ & _ & _ & Hid).
    eexists _, _. split; [by apply addSubExercise_chapter_Return|done]. }
  rewrite (addSubExercise_chapter_Return _ _ _ _ _ sec) in Hb by done.
  injection Hb as <- <-. rewrite Hsubs in Hf. cbn [default] in Hf.
  eexists t', n', _. split_and!; [done|exact Hf|by apply calculateProgress_sections|].
  unfold calculateProgress. cbn [with_sections ch_sections].
  rewrite map_size_insert_Some by done.
  assert (size (ch_sections c) ≠ 0%nat) as Hsz.
  { intros H0. apply map_size_empty_inv in H0. by rewrite H0 in Hsec. }
  rewrite !decide_False by done.
  rewrite (count_sections_update secId sec) by done.
  rewrite section_questions_add_sub by done.
  rewrite <- plus_counters_assoc, <- (count_sections_lookup secId sec) by done.
  pose proof (completed_le (chapter_questions c)) as Hle.
  assert (count_sections (ch_sections c)
          = (length (chapter_questions c), completed (chapter_questions c))) as ->.
  { by rewrite count_sections_counts. }
  set (T := length (chapter_questions c)) in *.
  set (C := completed (chapter_questions c)) in *.
  destruct (decide (sec_type sec = Some "exercise")); cbn [plus_counters fst snd].
  - rewrite Nat.add_0_r.
    destruct (decide ((T + ToLength qCount)%nat = 0%nat)) as [H0|H0].
    + rewrite decide_True by lia. done.
    + destruct (decide (T = 0%nat)) as [HT|HT].
      * assert (C = 0%nat) as -> by lia.
        rewrite Rounding.percent_none by lia. done.
      * apply RoundingEdges.percent_antitone; lia.
  - rewrite !Nat.add_0_r. done.
Qed.

Definition demo_exercise_chapter : Chapter :=
  mkChapter "ch-1" "Algebra" 50
    {[ "sec-1" := mkSection (Some "sec-1") (Some "EXERCISE") (Some "exercise") (Some [])
         (Some {[ "sub-1" := mkSubExercise "sub-1" "Set A"
                               [mkQuestion "q-1" true; mkQuestion "q-2" false] ]}) ]}.

Definition demo_exercise_tree : Tree :=
  [mkSubject "subj-1" "Math" [demo_exercise_chapter]].

Lemma addSubExercise_never_raises_progress_witness :
  ∃ t' n' c',
    addSubExercise demo_uuid demo_exercise_tree "subj-1" "ch-1" "sec-1" "Set B"
      (Int 2) 0%nat = Return (t', n') ∧
    find_chapter t' "subj-1" "ch-1" = Some c' ∧
    ch_progress c' = calculateProgress c' ∧
    calculateProgress c' ≤ calculateProgress demo_exercise_chapter.
Proof.
  eapply (addSubExercise_never_raises_progress demo_uuid demo_exercise_tree
            "subj-1" "ch-1" "sec-1" "Set B" (Int 2) demo_exercise_chapter).
  - reflexivity.
  - reflexivity.
  - reflexivity.
  - reflexivity.
  - repeat constructor. by eexists.
  - reflexivity.
  - vm_compute. reflexivity.
Defined.

(** ** The Dashboard *)

(** [{ ...c, sName: s.name, sId: s.id }] *)
Record DashboardChapter := mkDashboardChapter {
  dc_chapter : Chapter;
  dc_sName : string;
  dc_sId : string
}.

Definition dc_progress (c : DashboardChapter) : Z := ch_progress (dc_chapter c).

(** [subjects.flatMap(s => s.chapters.map(c => ({ ...c, sName: s.name, sId: s.id })))] *)
Definition allChapters (subjects : Tree) : list DashboardChapter :=
  s ← subjects;
  map (λ c, mkDashboardChapter c (subj_name s) (subj_id s)) (subj_chapters s).

(** The Number holding an integer. *)
Definition of_integer (z : Z) : PrimFloat.float :=
  if decide (z < 0) then PrimFloat.opp (JsNumber.of_count (Z.to_nat (- z)))
  else JsNumber.of_count (Z.to_nat z).

(** [allChapters.length > 0
      ? Math.round(allChapters.reduce((a, b) => a + b.progress, 0) / allChapters.length)
      : 0].
    The sum is carried out on integers, which is what the additions of the
    source do as long as the running sum stays below [2^53] in size. *)
Definition globalProgress (subjects : Tree) : Z :=
  let all := allChapters subjects in
  if decide (0 < length all)%nat then
    JsNumber.Math_round
      (PrimFloat.div (of_integer (foldl (λ a b, a + dc_progress b) 0 all))
         (JsNumber.of_count (length all)))
  else 0.

(** [sort((a, b) => b.progress - a.progress)]: larger progress first, and,
    the sort being stable, chapters of equal progress in their original
    order.  Each element is put in front of the sorted rest, behind the
    chapters of strictly larger progress. *)
Fixpoint insert_desc (x : DashboardChapter) (l : list DashboardChapter)
    : list DashboardChapter :=
  match l with
  | [] => [x]
  | y :: l' =>
      if decide (dc_progress x < dc_progress y) then y :: insert_desc x l'
      else x :: l
  end.

Definition sort_desc (l : list DashboardChapter) : list DashboardChapter :=
  foldr insert_desc [] l.

(** [allChapters.filter(c => c.progress < 100).sort(...).slice(0, 3)] *)
Definition recent (subjects : Tree) : list DashboardChapter :=
  take 3 (sort_desc (filter (λ c, dc_progress c < 100) (allChapters subjects))).

(** [Math.min(100, Math.max(0, progress))], the width of a [ProgressBar]. *)
Definition ProgressBar_width (progress : Z) : Z := Z.min 100 (Z.max 0 progress).

Lemma elem_of_allChapters x subjects :
  x ∈ allChapters subjects ↔
  ∃ s c, s ∈ subjects ∧ c ∈ subj_chapters s ∧
         x = mkDashboardChapter c (subj_name s) (subj_id s).
Proof.
  unfold allChapters. rewrite list_elem_of_bind. split.
  - intros (s & Hx & Hs). apply list_elem_of_fmap in Hx as (c & -> & Hc). eauto.
  - intros (s & c & Hs & Hc & ->). exists s. split; [|done].
    apply list_elem_of_fmap. by exists c.
Qed.

Lemma foldl_progress_bounds (lo hi : Z) (l : list DashboardChapter) a :
  Forall (λ x, lo ≤ dc_progress x ≤ hi) l →
  a + lo * Z.of_nat (length l)
  ≤ foldl (λ a b, a + dc_progress b) a l
  ≤ a + hi * Z.of_nat (length l).
Proof.
  intros Hall. revert a. induction Hall as [|x l Hx _ IH]; intros a.
  - cbn. lia.
  - cbn [foldl length]. specialize (IH (a + dc_progress x)). lia.
Qed.

(** When every stored progress is between 0 and 100, so is the total shown on
    the dashboard. *)
Theorem globalProgress_range subjects :
  every_chapter (λ c, 0 ≤ ch_progress c ≤ 100) subjects →
  Z.of_nat (length (allChapters subjects)) < 2 ^ 46 →
  0 ≤ globalProgress subjects ≤ 100.
Proof.
  intros Hall Hlen. unfold globalProgress. cbn zeta.
  destruct (decide (0 < length (allChapters subjects))%nat) as [Hpos|]; [|lia].
  assert (Forall (λ x, 0 ≤ dc_progress x ≤ 100) (allChapters subjects)) as Hf.
  { apply Forall_forall. intros x Hx.
    apply elem_of_allChapters in Hx as (s & c & Hs & Hc & ->). by apply (Hall s). }
  pose proof (foldl_progress_bounds 0 100 _ 0 Hf) as Hsum.
  set (sum := foldl (λ a b, a + dc_progress b) 0 (allChapters subjects)) in *.
  unfold of_integer. rewrite decide_False by lia.
  apply RoundingEdges.quotient_range; lia.
Qed.

Lemma globalProgress_range_witness : 0 ≤ globalProgress demo_tree ≤ 100.
Proof.
  apply (globalProgress_range demo_tree).
  - intros s c Hs Hc. apply list_elem_of_singleton in Hs as ->. cbn in Hc.
    apply list_elem_of_singleton in Hc as ->. cbn. lia.
  - vm_compute. reflexivity.
Defined.

(** When all chapters stand at the same progress, that is the total: the mean
    of equal numbers is not disturbed by the division. *)
Theorem globalProgress_uniform subjects p :
  allChapters subjects ≠ [] →
  every_chapter (λ c, ch_progress c = p) subjects →
  0 ≤ p →
  p * Z.of_nat (length (allChapters subjects)) < 2 ^ 53 →
  Z.of_nat (length (allChapters subjects)) < 2 ^ 53 →
  globalProgress subjects = p.
Proof.
  intros Hne Hall Hp Hbound Hlen. unfold globalProgress. cbn zeta.
  destruct (allChapters subjects) as [|x0 l0] eqn:Heq; [done|]. rewrite <- Heq in *.
  assert (0 < length (allChapters subjects))%nat as Hpos by (rewrite Heq; cbn; lia).
  rewrite decide_True by done.
  assert (Forall (λ x, p ≤ dc_progress x ≤ p) (allChapters subjects)) as Hf.
  { apply Forall_forall. intros x Hx.
    apply elem_of_allChapters in Hx as (s & c & Hs & Hc & ->).
    unfold dc_progress. cbn. rewrite (Hall s c Hs Hc). lia. }
  pose proof (foldl_progress_bounds p p _ 0 Hf) as Hsum.
  set (sum := foldl (λ a b, a + dc_progress b) 0 (allChapters subjects)) in *.
  assert (sum = p * Z.of_nat (length (allChapters subjects))) as -> by lia.
  unfold of_integer. rewrite decide_False by lia.
  replace (Z.to_nat (p * Z.of_nat (length (allChapters subjects))))
    with (Z.to_nat p * length (allChapters subjects))%nat by lia.
  rewrite RoundingEdges.quotient_constant by lia. lia.
Qed.

Lemma globalProgress_uniform_witness : globalProgress demo_tree = 50.
Proof.
  apply (globalProgress_uniform demo_tree 50).
  - vm_compute. discriminate.
  - intros s c Hs Hc. apply list_elem_of_singleton in Hs as ->. cbn in Hc.
    by apply list_elem_of_singleton in Hc as ->.
  - lia.
  - vm_compute. reflexivity.
  - vm_compute. reflexivity.
Defined.

(** The list "Active Focus" *)

Definition progress_ge (x y : DashboardChapter) : Prop :=
  dc_progress y ≤ dc_progress x.

Lemma insert_desc_Permutation x l : insert_desc x l ≡ₚ x :: l.
Proof.
  induction l as [|y l IH]; [done|]. cbn [insert_desc].
  destruct (decide (dc_progress x < dc_progress y)); [|done].
  rewrite IH. apply Permutation_swap.
Qed.

Lemma sort_desc_Permutation l : sort_desc l ≡ₚ l.
Proof.
  induction l as [|x l IH]; [done|]. cbn [sort_desc foldr]. fold (sort_desc l).
  by rewrite insert_desc_Permutation, IH.
Qed.

Lemma insert_desc_sorted x l :
  Sorted.StronglySorted progress_ge l → Sorted.StronglySorted progress_ge (insert_desc x l).
Proof.
  induction 1 as [|y l Hl IH Hy]; [repeat constructor|]. cbn [insert_desc].
  destruct (decide (dc_progress x < dc_progress y)) as [Hlt|Hge].
  - constructor; [done|]. rewrite insert_desc_Permutation.
    constructor; [unfold progress_ge; lia|done].
  - constructor; [by constructor|]. constructor; [unfold progress_ge; lia|].
    eapply Forall_impl; [exact Hy|]. unfold progress_ge. intros z Hz. lia.
Qed.

Lemma sort_desc_sorted l : Sorted.StronglySorted progress_ge (sort_desc l).
Proof.
  induction l as [|x l IH]; [constructor|]. by apply insert_desc_sorted.
Qed.

Lemma StronglySorted_lookup {A} (R : A → A → Prop) (l : list A) :
  Sorted.StronglySorted R l →
  ∀ i j x y, (i < j)%nat → l !! i = Some x → l !! j = Some y → R x y.
Proof.
  induction 1 as [|a l Hl IH Ha]; intros i j x y Hij Hi Hj; [done|].
  destruct j as [|j]; [lia|]. cbn in Hj. destruct i as [|i].
  - injection Hi as <-. apply list_elem_of_lookup_2 in Hj.
    by apply (proj1 (Forall_forall _ _) Ha).
  - cbn in Hi. apply (IH i j); [lia|done|done].
Qed.

(** The dashboard lists at most three chapters, all of them chapters of the
    tree below 100, in order of decreasing progress, and they are the furthest
    advanced ones: a chapter below 100 that is not listed has at most the
    progress of every listed one, and then three are listed. *)
Theorem recent_is_top_three subjects :
  (length (recent subjects) ≤ 3)%nat ∧
  (∀ x, x ∈ recent subjects → x ∈ allChapters subjects ∧ dc_progress x < 100) ∧
  (∀ i j x y, (i < j)%nat →
     recent subjects !! i = Some x → recent subjects !! j = Some y →
     dc_progress y ≤ dc_progress x) ∧
  (∀ y, y ∈ allChapters subjects → dc_progress y < 100 →
     y ∈ recent subjects ∨
     (length (recent subjects) = 3%nat ∧
      ∀ x, x ∈ recent subjects → dc_progress y ≤ dc_progress x)).
Proof.
  unfold recent.
  set (l := filter (λ c, dc_progress c < 100) (allChapters subjects)).
  pose proof (sort_desc_sorted l) as Hsorted.
  pose proof (sort_desc_Permutation l) as Hperm.
  rewrite <- (take_drop 3 (sort_desc l)) in Hsorted.
  apply sorting.StronglySorted_app in Hsorted as (Hcross & Htake & _).
  split_and!.
  - rewrite length_take. lia.
  - intros x Hx. apply (subseteq_take 3) in Hx.
    rewrite Hperm in Hx. by apply list_elem_of_filter in Hx as [? ?].
  - intros i j x y. by apply (StronglySorted_lookup progress_ge).
  - intros y Hy Hlt.
    assert (y ∈ sort_desc l) as Hin.
    { rewrite Hperm. by apply list_elem_of_filter. }
    rewrite <- (take_drop 3 (sort_desc l)) in Hin.
    apply elem_of_app in Hin as [Hin|Hin]; [by left|]. right. split.
    + rewrite length_take. destruct (decide (3 ≤ length (sort_desc l))%nat); [lia|].
      rewrite drop_ge in Hin by lia. by apply elem_of_nil in Hin.
    + intros x Hx. by apply (Hcross x y).
Qed.

(** The bar of a chapter whose stored progress is what [calculateProgress]
    gives shows exactly that number: the clamp of [ProgressBar] is never
    active on it. *)
Theorem ProgressBar_shows_progress c :
  cache_fresh c →
  Z.of_nat (length (chapter_questions c)) < 2 ^ 53 →
  ProgressBar_width (ch_progress c) = ch_progress c.
Proof.
  unfold cache_fresh. intros -> Hbound. unfold ProgressBar_width.
  rewrite calculateProgress_counts. cbn zeta.
  destruct (decide (length (chapter_questions c) = 0%nat)) as [|Hne]; [done|].
  pose proof (Rounding.percent_range
                (length (filter (λ q, q_completed q = true) (chapter_questions c)))
                (length (chapter_questions c))
                ltac:(apply length_filter) ltac:(lia) ltac:(lia)).
  lia.
Qed.

Lemma ProgressBar_shows_progress_witness :
  ProgressBar_width (ch_progress demo_chapter) = ch_progress demo_chapter.
Proof.
  apply (ProgressBar_shows_progress demo_chapter); reflexivity.
Defined.

(** ** The sections of a new chapter *)

Lemma forEach_new_sections_exact randomUUID (kinds : list string) :
  ∀ (acc : gmap string Section) n,
  (∀ i j, (i < j < length kinds)%nat → randomUUID (n + i)%nat ≠ randomUUID (n + j)%nat) →
  (∀ i, (i < length kinds)%nat → acc !! randomUUID (n + i)%nat = None) →
  ∃ sections,
    forEach (λ type sections,
        id ← uuid randomUUID;
        mret (<[id := new_section type id]> sections)) kinds acc n
    = Return (sections, (n + length kinds)%nat) ∧
    size sections = (size acc + length kinds)%nat ∧
    (∀ i kind, kinds !! i = Some kind →
       sections !! randomUUID (n + i)%nat
       = Some (new_section kind (randomUUID (n + i)%nat))) ∧
    (∀ k, (∀ i, (i < length kinds)%nat → k ≠ randomUUID (n + i)%nat) →
       sections !! k = acc !! k).
Proof.
  induction kinds as [|kind kinds IH]; intros acc n Hdist Hfresh.
  - exists acc. split_and!.
    + cbn. unfold mret, M_ret. do 2 f_equal. lia.
    + cbn. lia.
    + intros i k Hi. done.
    + done.
  - cbn [length] in *.
    destruct (IH (<[randomUUID n := new_section kind (randomUUID n)]> acc) (S n))
      as (sections & Hrun & Hsize & Hnew & Hold).
    { intros i j Hij. replace (S n + i)%nat with (n + S i)%nat by lia.
      replace (S n + j)%nat with (n + S j)%nat by lia. apply Hdist. lia. }
    { intros i Hi. rewrite lookup_insert_ne.
      - replace (S n + i)%nat with (n + S i)%nat by lia. apply Hfresh. lia.
      - replace (S n + i)%nat with (n + S i)%nat by lia.
        replace n with (n + 0)%nat at 1 by lia. apply Hdist. lia. }
    exists sections. split_and!.
    + rewrite forEach_cons.
      replace (n + S (length kinds))%nat with (S n + length kinds)%nat by lia.
      exact Hrun.
    + rewrite Hsize, map_size_insert_None; [lia|].
      replace n with (n + 0)%nat by lia. apply Hfresh. lia.
    + intros [|i] k Hi.
      * injection Hi as <-. rewrite Nat.add_0_r. rewrite Hold.
        { apply lookup_insert_eq. }
        intros i Hi. replace (S n + i)%nat with (n + S i)%nat by lia.
        replace n with (n + 0)%nat at 1 by lia. apply Hdist. lia.
      * cbn in Hi. replace (n + S i)%nat with (S n + i)%nat by lia. by apply Hnew.
    + intros k Hk. rewrite Hold.
      * apply lookup_insert_ne. replace n with (n + 0)%nat by lia.
        intros Heq. apply (Hk 0%nat); [lia|done].
      * intros i Hi. replace (S n + i)%nat with (n + S i)%nat by lia. apply Hk. lia.
Qed.

(** When the UUIDs drawn for the sections are pairwise distinct, [addChapter]
    builds exactly one section per selected kind, in the order of the
    selection: as many sections as kinds, the section of the [i]-th kind under
    the [i]-th UUID and carrying it as [id], and nothing else.  Every subject
    with the given id gets one new chapter at the end of its list, with the
    given name, progress 0 and these sections; its other chapters and all
    other subjects are kept. *)
Theorem addChapter_one_section_per_kind randomUUID subjects sId name kinds n :
  (∀ i j, (i < j < length kinds)%nat →
     randomUUID (n + i)%nat ≠ randomUUID (n + j)%nat) →
  ∃ t' n' sections,
    addChapter randomUUID subjects sId name kinds n = Return (t', n') ∧
    size sections = length kinds ∧
    (∀ i kind, kinds !! i = Some kind →
       sections !! randomUUID (n + i)%nat
       = Some (new_section kind (randomUUID (n + i)%nat))) ∧
    (∀ k sec, sections !! k = Some sec →
       ∃ i kind, kinds !! i = Some kind ∧ k = randomUUID (n + i)%nat) ∧
    Forall2 (λ s s',
        if decide (subj_id s = sId)
        then ∃ id, s' = mkSubject (subj_id s) (subj_name s)
                          (subj_chapters s ++ [mkChapter id name 0 sections])
        else s' = s) subjects t'.
Proof.
  intros Hdist.
  destruct (forEach_new_sections_exact randomUUID kinds ∅ n Hdist)
    as (sections & Hrun & Hsize & Hnew & Hold).
  { intros i _. apply lookup_empty. }
  destruct (addChapter_total randomUUID subjects sId name kinds n) as (t' & n' & Hadd).
  exists t', n', sections. split_and!; [done| |done| |].
  - by rewrite Hsize, map_size_empty.
  - intros k sec Hk.
    destruct (decide (k ∈ (λ i, randomUUID (n + i)%nat) <$> seq 0 (length kinds)))
      as [Hin|Hno].
    + apply list_elem_of_fmap in Hin as (i & -> & Hi). apply elem_of_seq in Hi.
      destruct (lookup_lt_is_Some_2 kinds i ltac:(lia)) as [kind Hkind]. eauto.
    + rewrite Hold, lookup_empty in Hk; [done|].
      intros i Hi ->. apply Hno. apply list_elem_of_fmap. exists i.
      split; [done|]. apply elem_of_seq. lia.
  - unfold addChapter, new_sections in Hadd. rewrite M_bind_eq, Hrun in Hadd.
    apply mapM_Return_inv in Hadd.
    eapply Forall2_impl; [exact Hadd|]. cbn beta.
    intros s s' (m & m' & Hf).
    destruct (decide (subj_id s = sId)).
    + injection Hf as <- _. eauto.
    + by injection Hf as <- _.
Qed.

Lemma addChapter_one_section_per_kind_witness :
  ∃ t' n' sections,
    addChapter demo_uuid demo_tree "subj-1" "Geometry" ["EXAMPLES"; "EXERCISE"] 0%nat
    = Return (t', n') ∧
    size sections = length ["EXAMPLES"; "EXERCISE"] ∧
    (∀ i kind, ["EXAMPLES"; "EXERCISE"] !! i = Some kind →
       sections !! demo_uuid (0 + i)%nat
       = Some (new_section kind (demo_uuid (0 + i)%nat))) ∧
    (∀ k sec, sections !! k = Some sec →
       ∃ i kind, ["EXAMPLES"; "EXERCISE"] !! i = Some kind ∧ k = demo_uuid (0 + i)%nat) ∧
    Forall2 (λ s s',
        if decide (subj_id s = "subj-1")
        then ∃ id, s' = mkSubject (subj_id s) (subj_name s)
                          (subj_chapters s ++ [mkChapter id "Geometry" 0 sections])
        else s' = s) demo_tree t'.
Proof.
  apply (addChapter_one_section_per_kind demo_uuid demo_tree "subj-1" "Geometry"
           ["EXAMPLES"; "EXERCISE"] 0%nat).
  intros i j Hij. cbn in Hij.
  assert (i = 0 ∧ j = 1)%nat as [-> ->] by lia. vm_compute. discriminate.
Defined.

(** ** The selection of AddChapterModal *)

(** [p => p.includes(type) ? p.filter(x => x !== type) : [...p, type]] *)
Definition toggle_selected (type : string) (p : list string) : list string :=
  if decide (type ∈ p) then filter (λ x, x ≠ type) p else p ++ [type].

(** A click on a kind flips whether that kind is selected and nothing else,
    and a selection without repetition stays without repetition, so that the
    chapter gets at most one section per kind. *)
Theorem toggle_selected_flips type p :
  NoDup p →
  NoDup (toggle_selected type p) ∧
  (type ∈ toggle_selected type p ↔ type ∉ p) ∧
  (∀ x, x ≠ type → (x ∈ toggle_selected type p ↔ x ∈ p)).
Proof.
  intros Hnd. unfold toggle_selected.
  destruct (decide (type ∈ p)) as [Hin|Hni]; split_and!.
  - by apply NoDup_filter.
  - rewrite list_elem_of_filter. split; [by intros [? ?]|done].
  - intros x Hx. rewrite list_elem_of_filter. split; [by intros [? ?]|done].
  - apply NoDup_app. split_and!; [done| |apply NoDup_singleton].
    intros x Hx Hx'. apply list_elem_of_singleton in Hx' as ->. done.
  - rewrite elem_of_app, list_elem_of_singleton. split; [done|by right].
  - intros x Hx. rewrite elem_of_app, list_elem_of_singleton.
    split; [by intros [?|?]|by left].
Qed.

Lemma toggle_selected_flips_witness :
  NoDup (toggle_selected "EXERCISE" ["EXAMPLES"; "EXERCISE"; "PYQS"]) ∧
  ("EXERCISE" ∈ toggle_selected "EXERCISE" ["EXAMPLES"; "EXERCISE"; "PYQS"]
   ↔ "EXERCISE" ∉ ["EXAMPLES"; "EXERCISE"; "PYQS"]) ∧
  (∀ x, x ≠ "EXERCISE" →
     (x ∈ toggle_selected "EXERCISE" ["EXAMPLES"; "EXERCISE"; "PYQS"]
      ↔ x ∈ ["EXAMPLES"; "EXERCISE"; "PYQS"])).
Proof.
  apply (toggle_selected_flips "EXERCISE" ["EXAMPLES"; "EXERCISE"; "PYQS"]).
  apply (bool_decide_unpack _). vm_compute. exact I.
Defined.

(** ** Sections carry their key as id *)









(** ** addSubject *)

Lemma find_app_l {A} (f : A → bool) (l1 l2 : list A) :
  find f (l1 ++ l2) = match find f l1 with Some a => Some a | None => find f l2 end.
Proof.
  induction l1 as [|a l1 IH]; [done|]. cbn. by destruct (f a).
Qed.

(** A tree that [addSubject] saves is the old one with one subject added at
    the end, under the UUID drawn, with the name as typed and no chapter; the
    name was not blank.  No chapter appears or moves: every address finds what
    it found before, and the dashboard (its chapters, total and "Active
    Focus") is unchanged. *)
Theorem addSubject_adds_no_chapter randomUUID t name n t' n' :
  new_tree randomUUID (AddSubject name) t n = Return (Some t', n') →
  all_white_space name = false ∧
  t' = t ++ [mkSubject (randomUUID n) name []] ∧
  n' = S n ∧
  (∀ sId cId, find_chapter t' sId cId = find_chapter t sId cId) ∧
  allChapters t' = allChapters t ∧
  globalProgress t' = globalProgress t ∧
  recent t' = recent t.
Proof.
  cbn. unfold addSubject. intros H.
  destruct (all_white_space name); [done|]. injection H as <- <-.
  assert (allChapters (t ++ [mkSubject (randomUUID n) name []]) = allChapters t) as Hall.
  { unfold allChapters. rewrite bind_app. cbn. by rewrite app_nil_r. }
  split_and!; [done|done|done| |done| |].
  - intros sId cId. unfold find_chapter. rewrite find_app_l.
    destruct (find _ t) as [s|]; [done|]. cbn.
    by destruct (bool_decide (randomUUID n = sId)).
  - unfold globalProgress. by rewrite Hall.
  - unfold recent. by rewrite Hall.
Qed.

Lemma addSubject_adds_no_chapter_witness :
  all_white_space "Physics" = false ∧
  demo_tree ++ [mkSubject (demo_uuid 0) "Physics" []]
  = demo_tree ++ [mkSubject (demo_uuid 0) "Physics" []] ∧
  1%nat = 1%nat ∧
  (∀ sId cId,
     find_chapter (demo_tree ++ [mkSubject (demo_uuid 0) "Physics" []]) sId cId
     = find_chapter demo_tree sId cId) ∧
  allChapters (demo_tree ++ [mkSubject (demo_uuid 0) "Physics" []])
  = allChapters demo_tree ∧
  globalProgress (demo_tree ++ [mkSubject (demo_uuid 0) "Physics" []])
  = globalProgress demo_tree ∧
  recent (demo_tree ++ [mkSubject (demo_uuid 0) "Physics" []]) = recent demo_tree.
Proof.
  apply (addSubject_adds_no_chapter demo_uuid demo_tree "Physics" 0%nat
           (demo_tree ++ [mkSubject (demo_uuid 0) "Physics" []]) 1%nat).
  reflexivity.
Defined.

(** ** Counts that no array can hold *)

Lemma update_chapter_throws sId cId body subjects :
  chapter_known subjects sId cId →
  (∀ c n, body c n = Throw) →
  ∀ n, update_chapter sId cId body subjects n = Throw.
Proof.
  intros (s & c & Hs & Hsid & Hc & Hcid) Hbody. unfold update_chapter.
  apply (mapM_throw _ _ s Hs). intros n.
  rewrite decide_False by (by intros ?). rewrite M_bind_eq.
  rewrite (mapM_throw _ _ c Hc); [done|].
  intros m. rewrite decide_False by (by intros ?). apply Hbody.
Qed.

(** With a count of [2^32] or more, [genQuestions] and [addSubExercise]
    addressed to a chapter of the tree throw, whatever the section: the
    callback ends before [saveData], so that nothing is written and the state
    is as it was. *)
Theorem oversized_count_throws randomUUID st sId cId secId name count :
  chapter_known (subjects st) sId cId →
  2 ^ 32 ≤ Z.of_nat (ToLength count) →
  (∀ n, genQuestions (subjects st) sId cId secId count n = Throw) ∧
  (∀ n, addSubExercise randomUUID (subjects st) sId cId secId name count n = Throw) ∧
  step randomUUID st (Mutate (GenQuestions sId cId secId count)) = (st, []) ∧
  step randomUUID st (Mutate (AddSubExercise sId cId secId name count)) = (st, []).
Proof.
  intros Hk Hlen.
  assert (∀ n, genQuestions (subjects st) sId cId secId count n = Throw) as Hgen.
  { apply update_chapter_throws; [done|]. intros c n.
    unfold genQuestions_chapter. by rewrite M_bind_eq, Array_from_Throw. }
  assert (∀ n, addSubExercise randomUUID (subjects st) sId cId secId name count n
               = Throw) as Hadd.
  { apply update_chapter_throws; [done|]. intros c n.
    unfold addSubExercise_chapter. rewrite M_bind_eq. cbn.
    by rewrite M_bind_eq, Array_from_Throw. }
  split_and!; [done|done| |].
  - cbn [step new_tree]. unfold saved. by rewrite M_bind_eq, Hgen.
  - cbn [step new_tree]. unfold saved. by rewrite M_bind_eq, Hadd.
Qed.

Lemma oversized_count_throws_witness :
  (∀ n, genQuestions (subjects demo_state) "subj-1" "ch-1" "sec-1"
          (Int 4294967296) n = Throw) ∧
  (∀ n, addSubExercise demo_uuid (subjects demo_state) "subj-1" "ch-1" "sec-1"
          "Set A" (Int 4294967296) n = Throw) ∧
  step demo_uuid demo_state
    (Mutate (GenQuestions "subj-1" "ch-1" "sec-1" (Int 4294967296)))
  = (demo_state, []) ∧
  step demo_uuid demo_state
    (Mutate (AddSubExercise "subj-1" "ch-1" "sec-1" "Set A" (Int 4294967296)))
  = (demo_state, []).
Proof.
  apply (oversized_count_throws demo_uuid demo_state "subj-1" "ch-1" "sec-1"
           "Set A" (Int 4294967296)).
  - exists (mkSubject "subj-1" "Math" [demo_chapter]), demo_chapter.
    split_and!; [left|reflexivity|left|reflexivity].
  - unfold ToLength. lia.
Defined.
